(** * Bouncing balls

    A shallow embedding of the two backends of the simulation that are
    written in this repository's JavaScript and WGSL:
    - [JSBackend] (js-backend.js): the ball record, the constructor,
      [update] (one tick of physics with wall reflection and splitting),
      [render] (the two canvas strategies) and [getBallCount];
    - the compute shader (compute-shader.js), in modules [Shader] and
      [Interleaved], and the constructor of [WebGPUBackend]
      (webgpu-backend.js);
    - the vertex shader (compute-shader.js), in module [Vertex];
    - the methods of [WebGPUBackend] on its buffers and its cached count
      (init, initBuffers, updateConfig, updateResolution, update, render,
      readBallCount, getBallCount);
    - the animation loop of the page, which calls update() and render().

    JavaScript numbers are IEEE 754 binary64 values and the shader's
    [f32] are binary32 values.  The embedding is written once over an
    interface [Number] of the arithmetic the sources use, with the
    instances [binary64] and [binary32], built on the standard library's
    executable specification of IEEE 754 ([SpecFloat]).  Theorems that
    follow the control flow are stated for every instance; what depends
    on the values is evaluated in the instance of the source.

    The invocations of a dispatch of the compute shader run side by
    side.  Module [Shader] has one invocation as a function, run from
    start to end, and module [Interleaved] cuts it at its accesses to
    the storage buffers, so that a dispatch is any interleaving of the
    accesses of its invocations; the serial runs of [Shader] are among
    them. *)

From Stdlib Require Import String.
From Stdlib Require Import ZArith QArith Qabs Qround Lqa Lia List Bool.
From Stdlib Require Import Permutation.
From Corelib Require Import Floats.SpecFloat.
Import ListNotations.

(** ** Numbers *)

Declare Scope num_scope.
Delimit Scope num_scope with num.

(** The operations on numbers that the sources use. *)
Class Number : Type := {
  num : Type;
  lit : Q -> num;               (* a numeric literal of the source text *)
  nadd : num -> num -> num;     (* a + b *)
  nsub : num -> num -> num;     (* a - b *)
  nmul : num -> num -> num;     (* a * b *)
  ndiv : num -> num -> num;     (* a / b *)
  nneg : num -> num;            (* -a *)
  nabs : num -> num;            (* Math.abs(a) *)
  nmax : num -> num -> num;     (* Math.max(a, b) *)
  nfloor : num -> Z;            (* Math.floor(a), of a finite a *)
  nltb : num -> num -> bool;    (* a < b *)
  ngtb : num -> num -> bool;    (* a > b *)
  ngeb : num -> num -> bool     (* a >= b *)
}.

Notation "a + b" := (nadd a b) : num_scope.
Notation "a - b" := (nsub a b) : num_scope.
Notation "a * b" := (nmul a b) : num_scope.
Notation "a / b" := (ndiv a b) : num_scope.
Notation "- a" := (nneg a) : num_scope.
Notation "a <? b" := (nltb a b) : num_scope.
Notation "a >? b" := (ngtb a b) : num_scope.
Notation "a >=? b" := (ngeb a b) : num_scope.

(** A comparison of rationals, for the times of the animation loop. *)
Definition Qltb (a b : Q) : bool :=
  match Qcompare a b with Lt => true | _ => false end.

(** *** IEEE 754 binary floating point *)

Module IEEE.

Definition of_Z (prec emax : Z) (z : Z) : spec_float :=
  binary_normalize prec emax z 0 false.

(** A literal denotes the floating-point number nearest to it: the
    correctly rounded quotient of its numerator and denominator.  In the
    literals used here these two are exact, except for 4294967295 in
    binary32, which rounds to 2^32 as the literal itself does. *)
Definition of_Q (prec emax : Z) (q : Q) : spec_float :=
  SFdiv prec emax (of_Z prec emax (Qnum q)) (of_Z prec emax (Zpos (Qden q))).

(** Math.max: NaN if either argument is, and +0 is larger than -0. *)
Definition max (a b : spec_float) : spec_float :=
  match a, b with
  | S754_nan, _ | _, S754_nan => S754_nan
  | S754_zero sa, S754_zero sb => S754_zero (andb sa sb)
  | _, _ => if SFltb a b then b else a
  end.

(** Math.floor of a finite number, as an integer. *)
Definition floor (a : spec_float) : Z :=
  match a with
  | S754_finite s m e =>
      let z := if s then Zneg m else Zpos m in
      if (0 <=? e)%Z then (z * 2 ^ e)%Z else (z / 2 ^ (- e))%Z
  | _ => 0%Z
  end.

(** The rational that a finite floating-point number stands for. *)
Definition to_Q (a : spec_float) : Q :=
  match a with
  | S754_finite s m e =>
      let z := if s then Zneg m else Zpos m in
      if (0 <=? e)%Z then inject_Z (z * 2 ^ e)
      else Qmake z (Z.to_pos (2 ^ (- e)))
  | _ => 0
  end.

Definition number (prec emax : Z) : Number := {|
  num := spec_float;
  lit := of_Q prec emax;
  nadd := SFadd prec emax;
  nsub := SFsub prec emax;
  nmul := SFmul prec emax;
  ndiv := SFdiv prec emax;
  nneg := SFopp;
  nabs := SFabs;
  nmax := max;
  nfloor := floor;
  nltb := SFltb;
  ngtb := fun a b => SFltb b a;
  ngeb := fun a b => SFleb b a
|}.

End IEEE.

(** The numbers of JavaScript. *)
#[export] Instance binary64 : Number := IEEE.number 53 1024.

(** The [f32] of the compute shader. *)
Definition binary32 : Number := IEEE.number 24 128.

(** ** The data model *)

(** A JavaScript call either returns or throws. *)
Inductive Completion (A : Type) : Type :=
| Normal (a : A)
| Throw (message : string).

Arguments Normal {A} a.
Arguments Throw {A} message.

Section Model.

Context {N : Number}.
Local Open Scope num_scope.

(** A ball object (js-backend.js, lines 10-18 and 68-76). *)
Record Ball : Type := mkBall {
  x : num;
  y : num;
  vx : num;
  vy : num;
  radius : num;
  color : Z;
  justSplit : bool
}.

(** The part of the canvas element the backend reads. *)
Record Canvas : Type := mkCanvas {
  width : num;
  height : num
}.

Record JSBackend : Type := mkJSBackend {
  canvas : Canvas;
  maxBalls : Z;
  splitRatio : num;
  balls : list Ball
}.

(** Math.random(): the sequence of values it returns, and how many of
    them have been drawn so far. *)
Definition Random : Type := nat -> num.

(** constructor(canvas, maxBalls, splitRatio), lines 3-19. *)
Definition constructor (canvas : Canvas) (maxBalls : Z) (splitRatio : num)
  : Completion JSBackend :=
  Normal
    {| canvas := canvas;
       maxBalls := maxBalls;
       splitRatio := splitRatio;
       balls := [ {| x := width canvas / lit 2;
                     y := height canvas / lit 2;
                     vx := lit 8.0;
                     vy := lit (-6.0);
                     radius := lit 60.0;
                     color := 0xFF4444;
                     justSplit := false |} ] |}.

(** Lines 30 and 36-45 of the loop body: the move along x and the
    bounce off the left or the right wall.  Returns [ball.x], [ball.vx]
    and [hitX] as the body leaves them. *)
Definition bounceX (this : JSBackend) (ball : Ball) : num * num * bool :=
  let x1 := x ball + vx ball in
  if x1 - radius ball <? lit 0 then
    (radius ball, nabs (vx ball), true)
  else if x1 + radius ball >? width (canvas this) then
    (width (canvas this) - radius ball, - nabs (vx ball), true)
  else
    (x1, vx ball, false).

(** Lines 31 and 47-56: the same along y, off the top or the bottom wall. *)
Definition bounceY (this : JSBackend) (ball : Ball) : num * num * bool :=
  let y1 := y ball + vy ball in
  if y1 - radius ball <? lit 0 then
    (radius ball, nabs (vy ball), true)
  else if y1 + radius ball >? height (canvas this) then
    (height (canvas this) - radius ball, - nabs (vy ball), true)
  else
    (y1, vy ball, false).

(** The body of the [for] loop of update(), lines 25-89, for one ball:
    the ball as the body leaves it, [newBalls] after the body, and the
    number of values drawn from Math.random() so far.  The draws are made
    in the order of the source: speedFactor, color, then one jitter per
    axis that was hit. *)
Definition loop_body (this : JSBackend) (newBalls : list Ball)
    (random : Random) (k : nat) (ball : Ball) : Ball * list Ball * nat :=
  let wasJustSplit := justSplit ball in
  let '(x2, vx2, hitX) := bounceX this ball in
  let '(y2, vy2, hitY) := bounceY this ball in
  (* Split logic *)
  if (hitX || hitY) && negb wasJustSplit then
    let newRadius := radius ball * splitRatio this in
    if (newRadius >=? lit 1.0)
       && (Z.of_nat (length (balls this) + length newBalls) <? maxBalls this)%Z
    then
      let speedFactor := lit 0.8 + random k * lit 0.4 in
      let newColor := nfloor (random (S k) * lit 16777215) in
      let '(nvy, k1) :=
        if hitX
        then (vy2 * speedFactor + (random (S (S k)) - lit 0.5) * lit 2.0,
              S (S (S k)))
        else (vy2 * speedFactor, S (S k)) in
      let '(nvx, k2) :=
        if hitY
        then (vx2 * speedFactor + (random k1 - lit 0.5) * lit 2.0, S k1)
        else (vx2 * speedFactor, k1) in
      (mkBall x2 y2 vx2 vy2 newRadius (color ball) true,
       newBalls ++ [mkBall x2 y2 nvx nvy newRadius newColor true],
       k2)
    else
      (mkBall x2 y2 vx2 vy2 (nmax (radius ball) (lit 1.0)) (color ball) false,
       newBalls, k)
  else
    (mkBall x2 y2 vx2 vy2 (radius ball) (color ball) false, newBalls, k).

(** The [for] loop of update(), lines 24-90, over the balls still to be
    visited. *)
Fixpoint update_loop (this : JSBackend) (random : Random)
    (rest : list Ball) (newBalls : list Ball) (k : nat)
  : list Ball * list Ball * nat :=
  match rest with
  | [] => ([], newBalls, k)
  | ball :: rest' =>
      let '(ball', newBalls', k') := loop_body this newBalls random k ball in
      let '(visited, newBalls'', k'') :=
        update_loop this random rest' newBalls' k' in
      (ball' :: visited, newBalls'', k'')
  end.

(** update(), lines 21-94: the loop, then [this.balls.push(...newBalls)]. *)
Definition update (this : JSBackend) (random : Random) (k : nat)
  : JSBackend * nat :=
  let '(visited, newBalls, k') :=
    update_loop this random (balls this) [] k in
  ({| canvas := canvas this;
      maxBalls := maxBalls this;
      splitRatio := splitRatio this;
      balls := visited ++ newBalls |}, k').

(** getBallCount(), lines 142-144. *)
Definition getBallCount (this : JSBackend) : nat := length (balls this).

(** [n] calls of update() in a row. *)
Fixpoint ticks (n : nat) (this : JSBackend) (random : Random) (k : nat)
  : JSBackend * nat :=
  match n with
  | O => (this, k)
  | S n' => let '(this', k') := ticks n' this random k in update this' random k'
  end.

(** *** Looking inside one update() call *)

(** [hitX] and [hitY] as the bounce leaves them. *)
Definition hitX (this : JSBackend) (ball : Ball) : bool :=
  snd (bounceX this ball).

Definition hitY (this : JSBackend) (ball : Ball) : bool :=
  snd (bounceY this ball).

(** The ball after the move and the bounce, lines 26-56: grace flag
    cleared, radius and color untouched. *)
Definition bounced (this : JSBackend) (ball : Ball) : Ball :=
  {| x := fst (fst (bounceX this ball));
     y := fst (fst (bounceY this ball));
     vx := snd (fst (bounceX this ball));
     vy := snd (fst (bounceY this ball));
     radius := radius ball;
     color := color ball;
     justSplit := false |}.

(** The two conditions of lines 59 and 62 together: the ball hit a wall
    without the grace flag, the shrunken radius is at least 1.0 and there
    is room under the cap. *)
Definition splits (this : JSBackend) (newBalls : list Ball) (ball : Ball)
  : bool :=
  (hitX this ball || hitY this ball) && negb (justSplit ball)
  && (radius ball * splitRatio this >=? lit 1.0)
  && (Z.of_nat (length (balls this) + length newBalls) <? maxBalls this)%Z.

(** Line 67, and lines 79 and 82, from the [k]-th random value. *)
Definition speedFactor (random : Random) (k : nat) : num :=
  lit 0.8 + random k * lit 0.4.

Definition jitter (random : Random) (k : nat) : num :=
  (random k - lit 0.5) * lit 2.0.

(** [newBalls] and the number of random draws when the loop, started on
    [rest] with [newBalls] and [k], reaches the ball at position [i]. *)
Fixpoint loop_state (this : JSBackend) (random : Random)
    (rest : list Ball) (newBalls : list Ball) (k : nat) (i : nat)
  : list Ball * nat :=
  match i, rest with
  | S i', ball :: rest' =>
      let '(_, newBalls', k') := loop_body this newBalls random k ball in
      loop_state this random rest' newBalls' k' i'
  | _, _ => (newBalls, k)
  end.

(** What the loop body does for [this.balls[i]] within update(). *)
Definition visit (this : JSBackend) (random : Random) (k : nat) (i : nat)
  : option (Ball * list Ball * nat) :=
  match nth_error (balls this) i with
  | Some ball =>
      let '(newBalls, k') := loop_state this random (balls this) [] k i in
      Some (loop_body this newBalls random k' ball)
  | None => None
  end.

(** Whether the loop body pushes a child for [ball]. *)
Definition pushes (this : JSBackend) (newBalls : list Ball)
    (random : Random) (k : nat) (ball : Ball) : bool :=
  (length newBalls
   <? length (snd (fst (loop_body this newBalls random k ball))))%nat.

(** Whether [this.balls[i]] splits during update(). *)
Definition splits_at (this : JSBackend) (random : Random) (k : nat) (i : nat)
  : bool :=
  match nth_error (balls this) i with
  | Some ball =>
      let '(newBalls, k') := loop_state this random (balls this) [] k i in
      pushes this newBalls random k' ball
  | None => false
  end.

(** The index in [this.balls], after the final push, of a child pushed to
    [newBalls] while the loop is at position [i]. *)
Definition child_slot (this : JSBackend) (random : Random) (k : nat) (i : nat)
  : nat :=
  length (balls this)
  + length (fst (loop_state this random (balls this) [] k i)).

(** *** The first ball on its own *)

(** [this] with [ball] as its only ball. *)
Definition alone (this : JSBackend) (ball : Ball) : JSBackend :=
  {| canvas := canvas this;
     maxBalls := maxBalls this;
     splitRatio := splitRatio this;
     balls := [ball] |}.

(** What update() makes of [ball] when it is alone, and whether it
    splits. *)
Definition seed_step (this : JSBackend) (ball : Ball) : Ball :=
  fst (fst (loop_body (alone this ball) [] (fun _ => lit 0) 0 ball)).

Definition seed_splits (this : JSBackend) (ball : Ball) : bool :=
  splits (alone this ball) [] ball.

(** The ball after [n] ticks on its own, and how often it split. *)
Fixpoint seed_run (this : JSBackend) (ball : Ball) (n : nat) : Ball * nat :=
  match n with
  | O => (ball, O)
  | S n' =>
      let '(ball', count) := seed_run this ball n' in
      (seed_step this ball',
       (count + (if seed_splits this ball' then 1 else 0))%nat)
  end.

Definition seed_path (this : JSBackend) (ball : Ball) (n : nat) : Ball :=
  fst (seed_run this ball n).

Definition seed_split_count (this : JSBackend) (ball : Ball) (n : nat) : nat :=
  snd (seed_run this ball n).



(** Where update() leaves a ball along one axis, with respect to the
    radius [r0] the ball had when the loop reached it: tangent to the
    near wall, tangent to the far wall, or at a place where neither wall
    test fires.  [zero] is the literal that the near test compares with
    and [limit] the width or the height. *)
Definition settled_along (zero limit r0 pos : num) : Prop :=
  pos = r0
  \/ pos = limit - r0
  \/ ((pos - r0 <? zero) = false /\ (pos + r0 >? limit) = false).

(** A ball as update() leaves it, with respect to the radius [r0] it had
    when the loop reached it: settled along both axes, its own radius
    being [r0], [r0 * splitRatio] or [Math.max(r0, 1.0)]. *)
Definition settled_with (this : JSBackend) (r0 : num) (ball : Ball) : Prop :=
  (radius ball = r0
   \/ radius ball = r0 * splitRatio this
   \/ radius ball = nmax r0 (lit 1.0))
  /\ settled_along (lit 0) (width (canvas this)) r0 (x ball)
  /\ settled_along (lit 0) (height (canvas this)) r0 (y ball).

Definition settled (this : JSBackend) (ball : Ball) : Prop :=
  exists r0 : num, settled_with this r0 ball.

(** ** Rendering *)

(** A value assigned to [ctx.fillStyle]: a string literal, or the
    template string [rgb(r,g,b)]. *)
Inductive FillStyle : Type :=
| css (s : string)
| rgb (r g b : Z).

(** The calls made on the 2D context, in order. *)
Inductive Draw : Type :=
| setFillStyle (style : FillStyle)
| fillRect (left top w h : num)
| beginPath
| arc (cx cy r startAngle endAngle : num)
| fill
| closePath.

Definition Math_PI : num := lit (884279719003555 # 281474976710656).

(** [rgb(${(color >> 16) & 0xFF},${(color >> 8) & 0xFF},${color & 0xFF})] *)
Definition rgb_of (color : Z) : FillStyle :=
  rgb (Z.land (Z.shiftr color 16) 0xFF)
      (Z.land (Z.shiftr color 8) 0xFF)
      (Z.land color 0xFF).

(** A JavaScript [Map] from colors to arrays of balls: the entries in
    insertion order. *)
Definition ColorMap : Type := list (Z * list Ball).

Fixpoint Map_has (m : ColorMap) (key : Z) : bool :=
  match m with
  | [] => false
  | (key', _) :: m' => (key =? key')%Z || Map_has m' key
  end.

(** [m.set(key, value)]: replaces the value of an existing key in place,
    and appends a new key at the end. *)
Fixpoint Map_set (m : ColorMap) (key : Z) (value : list Ball) : ColorMap :=
  match m with
  | [] => [(key, value)]
  | (key', value') :: m' =>
      if (key =? key')%Z then (key', value) :: m'
      else (key', value') :: Map_set m' key value
  end.

(** [m.get(key).push(ball)]: the array held by the map is extended in
    place. *)
Fixpoint Map_get_push (m : ColorMap) (key : Z) (ball : Ball) : ColorMap :=
  match m with
  | [] => []
  | (key', value') :: m' =>
      if (key =? key')%Z then (key', value' ++ [ball]) :: m'
      else (key', value') :: Map_get_push m' key ball
  end.

(** Lines 109-112: file one ball under its color. *)
Definition group_step (colorGroups : ColorMap) (ball : Ball) : ColorMap :=
  let colorGroups' :=
    if negb (Map_has colorGroups (color ball))
    then Map_set colorGroups (color ball) []
    else colorGroups in
  Map_get_push colorGroups' (color ball) ball.

(** Lines 106-113: group balls by color. *)
Definition group_by_color (balls : list Ball) : ColorMap :=
  fold_left group_step balls [].

(** A color map is well grouped when no group is empty and every ball
    sits under its own color. *)
Definition well_grouped (m : ColorMap) : Prop :=
  Forall (fun entry => snd entry <> []
                       /\ Forall (fun ball => color ball = fst entry)
                                 (snd entry)) m.

(** Line 123: the bounding square of a ball. *)
Definition draw_square (ball : Ball) : Draw :=
  fillRect (x ball - radius ball) (y ball - radius ball)
           (radius ball * lit 2) (radius ball * lit 2).

(** Lines 116-125: one color group. *)
Definition draw_group (entry : Z * list Ball) : list Draw :=
  setFillStyle (rgb_of (fst entry)) :: map draw_square (snd entry).

(** Lines 129-137: one ball as a circle. *)
Definition draw_circle (ball : Ball) : list Draw :=
  [ setFillStyle (rgb_of (color ball));
    beginPath;
    arc (x ball) (y ball) (radius ball) (lit 0) (Math_PI * lit 2);
    fill;
    closePath ].

(** Lines 98-99: clear the canvas. *)
Definition clear_canvas (this : JSBackend) : list Draw :=
  [ setFillStyle (css "#1a1a1a");
    fillRect (lit 0) (lit 0) (width (canvas this)) (height (canvas this)) ].

(** render(ctx), lines 96-140. *)
Definition render (this : JSBackend) : list Draw :=
  let useFastMode := (10000 <? Z.of_nat (length (balls this)))%Z in
  clear_canvas this
  ++ (if useFastMode
      then flat_map draw_group (group_by_color (balls this))
      else flat_map draw_circle (balls this)).

(** *** What the calls paint *)

(** What a call of [fillRect] or [fill] puts on the canvas: a rectangle,
    or the region inside the current path, here a list of arcs. *)
Inductive Shape : Type :=
| rectangle (left top w h : num)
| inside_path (arcs : list (num * num * num * num * num)).

(** The state of the 2D context that the calls of render() depend on:
    the fill style, the current path, and what has been painted so far,
    each shape with the style it was filled with. *)
Record Context2D : Type := mkContext2D {
  fillStyle : FillStyle;
  currentPath : list (num * num * num * num * num);
  paintedSoFar : list (FillStyle * Shape)
}.

(** One call on the context.  [closePath] adds no arc and paints
    nothing. *)
Definition call (ctx : Context2D) (d : Draw) : Context2D :=
  match d with
  | setFillStyle style =>
      mkContext2D style (currentPath ctx) (paintedSoFar ctx)
  | fillRect x0 y0 w h =>
      mkContext2D (fillStyle ctx) (currentPath ctx)
        (paintedSoFar ctx ++ [(fillStyle ctx, rectangle x0 y0 w h)])
  | beginPath => mkContext2D (fillStyle ctx) [] (paintedSoFar ctx)
  | arc cx cy r startAngle endAngle =>
      mkContext2D (fillStyle ctx)
        (currentPath ctx ++ [(cx, cy, r, startAngle, endAngle)])
        (paintedSoFar ctx)
  | fill =>
      mkContext2D (fillStyle ctx) (currentPath ctx)
        (paintedSoFar ctx ++ [(fillStyle ctx, inside_path (currentPath ctx))])
  | closePath => ctx
  end.

(** What a list of calls paints on a fresh context, whose fill style is
    black and whose path is empty. *)
Definition painted (calls : list Draw) : list (FillStyle * Shape) :=
  paintedSoFar (fold_left call calls (mkContext2D (css "#000000") [] [])).

End Model.

(** ** The other backend's constructor *)

(** WebGPUBackend (webgpu-backend.js, lines 4-19): the fields that are not
    device handles; those are all [null] after construction. *)
Record WebGPUBackend {N : Number} : Type := mkWebGPUBackend {
  gpu_canvas : Canvas;
  gpu_maxBalls : Z;
  gpu_splitRatio : num;
  ballCount : Z
}.

Definition WebGPUBackend_constructor {N : Number}
    (canvas : Canvas) (maxBalls : Z) (splitRatio : num)
  : Completion WebGPUBackend :=
  Normal {| gpu_canvas := canvas;
            gpu_maxBalls := maxBalls;
            gpu_splitRatio := splitRatio;
            ballCount := 1 |}.

(** ** The compute shader *)

(** [computeShaderCode] (compute-shader.js, lines 2-124).  The GPU runs
    one invocation of [main] per index, with no order among them.  Here
    one invocation is a function on the storage buffers, run from start
    to end without interruption, and a dispatch runs its invocations one
    after the other in a given order.  Every such run is a run the GPU
    may make, so what goes wrong in one can go wrong on the GPU.
    Statements about all runs of the GPU are made over the finer model
    of module [Interleaved] below. *)
Module Shader.

Section Shader.

Context {N : Number}.
Local Open Scope num_scope.
Local Open Scope Z_scope.

(** A [u32], with its wrap-around. *)
Definition u32 (z : Z) : Z := z mod 2 ^ 32.

(** [u32(e)] of an [f32]: truncation, clamped to the range of [u32]. *)
Definition to_u32 (a : num) : Z := Z.min (Z.max 0 (nfloor a)) (2 ^ 32 - 1).

(** [f32(e)] of a [u32]. *)
Definition to_f32 (z : Z) : num := lit (z # 1).

(** struct Ball, lines 3-10. *)
Record Ball : Type := mkBall {
  pos_x : num;
  pos_y : num;
  vel_x : num;
  vel_y : num;
  radius : num;
  color : Z;
  just_split : Z;
  padding : Z
}.

(** struct Config, lines 12-17. *)
Record Config : Type := mkConfig {
  width : num;
  height : num;
  max_balls : Z;
  split_ratio : num
}.

(** The two storage bindings, lines 19 and 21. *)
Record Storage : Type := mkStorage {
  balls : Z -> Ball;
  ball_count : Z
}.

(** [balls[i] = ball] *)
Definition store (balls : Z -> Ball) (i : Z) (ball : Ball) : Z -> Ball :=
  fun j => if j =? i then ball else balls j.

(** random(), lines 26-30: the new [seed] and the value returned. *)
Definition random (seed : Z) : Z * num :=
  let seed := u32 (u32 (seed * 747796405) + 2891336453) in
  let result :=
    u32 (Z.lxor (Z.shiftr seed (u32 (Z.shiftr seed 28 + 4))) seed
         * 277803737) in
  (seed,
   (to_f32 (Z.lxor (Z.shiftr result 22) result) / lit 4294967295)%num).

(** Lines 48 and 54-62: the move along x and the bounce off the left or
    the right wall: [ball.pos.x], [ball.vel.x] and [hit_x]. *)
Definition bounce_x (config : Config) (ball : Ball) : num * num * bool :=
  let px := (pos_x ball + vel_x ball)%num in
  if (px - radius ball <? lit 0.0)%num then
    (radius ball, nabs (vel_x ball), true)
  else if (px + radius ball >? width config)%num then
    ((width config - radius ball)%num, (- nabs (vel_x ball))%num, true)
  else
    (px, vel_x ball, false).

(** Lines 48 and 65-73: the same along y. *)
Definition bounce_y (config : Config) (ball : Ball) : num * num * bool :=
  let py := (pos_y ball + vel_y ball)%num in
  if (py - radius ball <? lit 0.0)%num then
    (radius ball, nabs (vel_y ball), true)
  else if (py + radius ball >? height config)%num then
    ((height config - radius ball)%num, (- nabs (vel_y ball))%num, true)
  else
    (py, vel_y ball, false).

(** Lines 96-108: the new ball, a copy of [ball] with its velocity
    scaled and jittered and a color of its own.  The values of random()
    are drawn in the order of the source: speed factor, one jitter per
    axis hit, color. *)
Definition spawn (seed : Z) (hit_x hit_y : bool) (ball : Ball) : Ball :=
  let '(seed, u) := random seed in
  let speed_factor := (lit 0.8 + u * lit 0.4)%num in
  let nvx := (vel_x ball * speed_factor)%num in
  let nvy := (vel_y ball * speed_factor)%num in
  let '(seed, nvy) :=
    if hit_x
    then let '(seed, u) := random seed in
         (seed, (nvy + (u - lit 0.5) * lit 2.0)%num)
    else (seed, nvy) in
  let '(seed, nvx) :=
    if hit_y
    then let '(seed, u) := random seed in
         (seed, (nvx + (u - lit 0.5) * lit 2.0)%num)
    else (seed, nvx) in
  let '(seed, u) := random seed in
  mkBall (pos_x ball) (pos_y ball) nvx nvy (radius ball)
         (to_u32 (u * lit 16777215)%num) 1 (padding ball).

(** Line 97, and lines 101 and 104, from the value random() returns
    when the seed is [seed]. *)
Definition speed_factor (seed : Z) : num :=
  (lit 0.8 + snd (random seed) * lit 0.4)%num.

Definition jitter (seed : Z) : num :=
  ((snd (random seed) - lit 0.5) * lit 2.0)%num.

(** Line 41: the seed of an invocation. *)
Definition seed_of (config : Config) (idx : Z) : Z :=
  u32 (u32 (idx * 747796405) + to_u32 (width config * height config)%num).

(** main, lines 33-123, for the invocation with [global_id.x = idx].
    [atomicAdd] returns the old count; the invocation runs alone, so the
    two atomic loads and the [atomicAdd] see the same count. *)
Definition main (config : Config) (idx : Z) (storage : Storage) : Storage :=
  let current_count := ball_count storage in
  if current_count <=? idx then storage
  else
    let seed := seed_of config idx in
    let ball := balls storage idx in
    let was_just_split := just_split ball =? 1 in
    let '(px, vx, hit_x) := bounce_x config ball in
    let '(py, vy, hit_y) := bounce_y config ball in
    let ball := mkBall px py vx vy (radius ball) (color ball) 0
                  (padding ball) in
    (* Split logic *)
    if (hit_x || hit_y) && negb was_just_split then
      let new_radius := (radius ball * split_ratio config)%num in
      if (new_radius >=? lit 1.0)%num then
        let current_total := ball_count storage in
        if current_total <? max_balls config then
          let ball := mkBall px py vx vy new_radius (color ball) 1
                        (padding ball) in
          let new_idx := ball_count storage in
          let count := u32 (ball_count storage + 1) in
          if u32 (new_idx + 1) <=? max_balls config then
            let new_ball := spawn seed hit_x hit_y ball in
            mkStorage (store (store (balls storage) new_idx new_ball) idx ball)
                      count
          else
            (* We exceeded the limit, decrement back *)
            mkStorage (store (balls storage) idx ball) (u32 (count - 1))
        else
          mkStorage (store (balls storage) idx ball) (ball_count storage)
      else
        (* Radius too small, keep current size *)
        let ball := mkBall px py vx vy (nmax (radius ball) (lit 1.0))
                      (color ball) 0 (padding ball) in
        mkStorage (store (balls storage) idx ball) (ball_count storage)
    else
      mkStorage (store (balls storage) idx ball) (ball_count storage).

(** The invocations of a dispatch, run one after the other in the order
    of [schedule]. *)
Definition run (config : Config) (schedule : list Z) (storage : Storage)
  : Storage :=
  fold_left (fun storage idx => main config idx storage) schedule storage.

(** WebGPUBackend.update() (webgpu-backend.js, lines 170-183) dispatches
    [Math.ceil(this.ballCount / 64)] workgroups of 64 invocations, where
    [ballCount] is the count the host has cached.  [in_order] lists their
    indices from 0 upwards. *)
Definition workgroupCount (ballCount : Z) : Z := (ballCount + 63) / 64.

Definition in_order (ballCount : Z) : list Z :=
  map Z.of_nat (seq 0 (Z.to_nat (64 * workgroupCount ballCount))).

(** [n] calls of WebGPUBackend.update() in a row, each running its
    invocations in index order, while the host's cached count stays at
    [ballCount]. *)
Fixpoint frames (config : Config) (ballCount : Z) (n : nat)
    (storage : Storage) : Storage :=
  match n with
  | O => storage
  | S n' => run config (in_order ballCount) (frames config ballCount n' storage)
  end.

(** The buffers after initBuffers() (webgpu-backend.js, lines 105-124):
    one ball, all other slots zero. *)
Definition initial (canvas_width canvas_height : num) : Storage :=
  mkStorage
    (store (fun _ => mkBall (lit 0) (lit 0) (lit 0) (lit 0) (lit 0) 0 0 0)
           0
           (mkBall (canvas_width / lit 2)%num (canvas_height / lit 2)%num
                   (lit 8.0) (lit (-6.0)) (lit 60.0) 0xFF4444 0 0))
    1.

End Shader.

End Shader.

(** ** The compute shader, access by access *)

(** [Shader.main] runs an invocation from start to end without
    interruption.  On the GPU the invocations of a dispatch run side by
    side, and what one of them reads depends on what the others have
    written so far.  Here an invocation is cut at its accesses to the two
    storage buffers (the loads, the atomicAdd and the atomicSub of the
    counter, the read of its ball, the two stores); between two accesses
    it computes on its own variables only.  A dispatch is then any
    interleaving of the accesses of its invocations.  A ball is read and
    stored as a whole. *)
Module Interleaved.

Section Interleaved.

Context {N : Number}.
Local Open Scope num_scope.
Local Open Scope Z_scope.

(** Where an invocation stands: before the access of the given line,
    with the variables it needs from there on. *)
Inductive Invocation : Type :=
| at_load                                                    (* line 35 *)
| at_read                                                    (* line 43 *)
| at_check (ball : Shader.Ball) (hit_x hit_y : bool)         (* line 82 *)
| at_add (ball : Shader.Ball) (hit_x hit_y : bool)           (* line 90 *)
| at_spawn (ball : Shader.Ball) (hit_x hit_y : bool) (new_idx : Z)
                                                             (* line 110 *)
| at_sub (ball : Shader.Ball)                                (* line 113 *)
| at_store (ball : Shader.Ball)                              (* line 122 *)
| returned.

(** The next access of the invocation with [global_id.x = idx], and the
    computation up to the access after it. *)
Definition step (config : Shader.Config) (idx : Z) (invocation : Invocation)
    (storage : Shader.Storage) : Invocation * Shader.Storage :=
  match invocation with
  | at_load =>
      let current_count := Shader.ball_count storage in
      if current_count <=? idx then (returned, storage)
      else (at_read, storage)
  | at_read =>
      let ball := Shader.balls storage idx in
      let was_just_split := Shader.just_split ball =? 1 in
      let '(px, vx, hit_x) := Shader.bounce_x config ball in
      let '(py, vy, hit_y) := Shader.bounce_y config ball in
      let ball := Shader.mkBall px py vx vy (Shader.radius ball)
                    (Shader.color ball) 0 (Shader.padding ball) in
      (* Split logic *)
      if (hit_x || hit_y) && negb was_just_split then
        let new_radius := (Shader.radius ball * Shader.split_ratio config)%num in
        if (new_radius >=? lit 1.0)%num then
          (at_check ball hit_x hit_y, storage)
        else
          (* Radius too small, keep current size *)
          (at_store
             (Shader.mkBall px py vx vy
                (nmax (Shader.radius ball) (lit 1.0))
                (Shader.color ball) 0 (Shader.padding ball)),
           storage)
      else (at_store ball, storage)
  | at_check ball hit_x hit_y =>
      let current_total := Shader.ball_count storage in
      if current_total <? Shader.max_balls config then
        let new_radius := (Shader.radius ball * Shader.split_ratio config)%num in
        (at_add
           (Shader.mkBall (Shader.pos_x ball) (Shader.pos_y ball)
              (Shader.vel_x ball) (Shader.vel_y ball) new_radius
              (Shader.color ball) 1 (Shader.padding ball))
           hit_x hit_y,
         storage)
      else (at_store ball, storage)
  | at_add ball hit_x hit_y =>
      (* atomicAdd returns the OLD value *)
      let new_idx := Shader.ball_count storage in
      let storage := Shader.mkStorage (Shader.balls storage)
                       (Shader.u32 (new_idx + 1)) in
      if Shader.u32 (new_idx + 1) <=? Shader.max_balls config
      then (at_spawn ball hit_x hit_y new_idx, storage)
      else (at_sub ball, storage)
  | at_spawn ball hit_x hit_y new_idx =>
      let new_ball := Shader.spawn (Shader.seed_of config idx) hit_x hit_y
                        ball in
      (at_store ball,
       Shader.mkStorage (Shader.store (Shader.balls storage) new_idx new_ball)
         (Shader.ball_count storage))
  | at_sub ball =>
      (* We exceeded the limit, decrement back *)
      (at_store ball,
       Shader.mkStorage (Shader.balls storage)
         (Shader.u32 (Shader.ball_count storage - 1)))
  | at_store ball =>
      (returned,
       Shader.mkStorage (Shader.store (Shader.balls storage) idx ball)
         (Shader.ball_count storage))
  | returned => (returned, storage)
  end.

(** The ball that an invocation holds in its variable [ball]. *)
Definition held (invocation : Invocation) : option Shader.Ball :=
  match invocation with
  | at_check ball _ _ | at_add ball _ _ | at_spawn ball _ _ _
  | at_sub ball | at_store ball => Some ball
  | at_load | at_read | returned => None
  end.

Definition is_at_sub (invocation : Invocation) : bool :=
  match invocation with at_sub _ => true | _ => false end.

Definition is_returned (invocation : Invocation) : bool :=
  match invocation with returned => true | _ => false end.

(** The invocations that have added one to the counter and are about to
    take it back. *)
Fixpoint pending (invocations : list Invocation) : Z :=
  match invocations with
  | [] => 0
  | invocation :: rest =>
      (if is_at_sub invocation then 1 else 0) + pending rest
  end.

Fixpoint set_nth {A : Type} (l : list A) (i : nat) (a : A) : list A :=
  match l, i with
  | [], _ => []
  | _ :: l', O => a :: l'
  | b :: l', S i' => b :: set_nth l' i' a
  end.

(** A dispatch under way: its invocations, by index, and the storage
    buffers. *)
Record Pass : Type := mkPass {
  invocations : list Invocation;
  memory : Shader.Storage
}.

(** Invocation [i] makes its next access. *)
Definition pick (config : Shader.Config) (pass : Pass) (i : nat) : Pass :=
  match nth_error (invocations pass) i with
  | Some invocation =>
      let '(invocation', storage') :=
        step config (Z.of_nat i) invocation (memory pass) in
      mkPass (set_nth (invocations pass) i invocation') storage'
  | None => pass
  end.

(** The accesses of a dispatch in the order of [schedule], which names
    the invocation of each access. *)
Definition run (config : Shader.Config) (schedule : list nat) (pass : Pass)
  : Pass :=
  fold_left (pick config) schedule pass.

(** [dispatchWorkgroups(workgroupCount)] of WebGPUBackend.update(): 64
    invocations per workgroup, all at their start. *)
Definition begin (ballCount : Z) (storage : Shader.Storage) : Pass :=
  mkPass (repeat at_load (Z.to_nat (64 * Shader.workgroupCount ballCount)))
         storage.

Definition finished (pass : Pass) : bool :=
  forallb is_returned (invocations pass).

(** One call of update() with the cached count [ballCount]. *)
Definition dispatch (config : Shader.Config) (ballCount : Z)
    (schedule : list nat) (storage : Shader.Storage) : Pass :=
  run config schedule (begin ballCount storage).

(** Calls of update() in a row, each with the count the host has cached
    then and with its own interleaving. *)
Fixpoint frames (config : Shader.Config) (calls : list (Z * list nat))
    (storage : Shader.Storage) : Shader.Storage :=
  match calls with
  | [] => storage
  | (ballCount, schedule) :: calls' =>
      frames config calls' (memory (dispatch config ballCount schedule storage))
  end.

(** Every dispatch of [calls] runs until all its invocations have
    returned. *)
Fixpoint complete (config : Shader.Config) (calls : list (Z * list nat))
    (storage : Shader.Storage) : bool :=
  match calls with
  | [] => true
  | (ballCount, schedule) :: calls' =>
      finished (dispatch config ballCount schedule storage)
      && complete config calls'
           (memory (dispatch config ballCount schedule storage))
  end.

(** What an invocation can make of the ball it has read: the ball after
    the move and the bounces (lines 44-73), the same after lines 86-87,
    and after line 118. *)
Definition moved (config : Shader.Config) (ball : Shader.Ball) : Shader.Ball :=
  Shader.mkBall (fst (fst (Shader.bounce_x config ball)))
                (fst (fst (Shader.bounce_y config ball)))
                (snd (fst (Shader.bounce_x config ball)))
                (snd (fst (Shader.bounce_y config ball)))
                (Shader.radius ball) (Shader.color ball) 0
                (Shader.padding ball).

Definition shrunk (config : Shader.Config) (ball : Shader.Ball) : Shader.Ball :=
  Shader.mkBall (Shader.pos_x ball) (Shader.pos_y ball)
                (Shader.vel_x ball) (Shader.vel_y ball)
                (Shader.radius ball * Shader.split_ratio config)%num
                (Shader.color ball) 1 (Shader.padding ball).

Definition clamped (ball : Shader.Ball) : Shader.Ball :=
  Shader.mkBall (Shader.pos_x ball) (Shader.pos_y ball)
                (Shader.vel_x ball) (Shader.vel_y ball)
                (nmax (Shader.radius ball) (lit 1.0))
                (Shader.color ball) 0 (Shader.padding ball).

(** A ball wanted to split: it hit a wall without the grace flag and its
    new radius is at least 1.0 (lines 76 and 81). *)
Definition eligible (config : Shader.Config) (ball : Shader.Ball) : bool :=
  (snd (Shader.bounce_x config ball) || snd (Shader.bounce_y config ball))
  && negb (Shader.just_split ball =? 1)
  && (Shader.radius ball * Shader.split_ratio config >=? lit 1.0)%num.

(** The ball that the invocation of [ball] stores at line 122. *)
Inductive outcome (config : Shader.Config) (ball : Shader.Ball)
  : Shader.Ball -> Prop :=
| outcome_moved : outcome config ball (moved config ball)
| outcome_shrunk :
    eligible config ball = true ->
    outcome config ball (shrunk config (moved config ball))
| outcome_clamped : outcome config ball (clamped (moved config ball)).

(** A ball as a dispatch leaves it, with respect to the radius [r0] it
    had when it was read: settled along both axes (the near tests of
    lines 54 and 65 compare with 0.0), its own radius being [r0],
    [r0 * split_ratio] or [max(r0, 1.0)]. *)
Definition settled_with (config : Shader.Config) (r0 : num)
    (ball : Shader.Ball) : Prop :=
  (Shader.radius ball = r0
   \/ Shader.radius ball = (r0 * Shader.split_ratio config)%num
   \/ Shader.radius ball = nmax r0 (lit 1.0))
  /\ settled_along (lit 0.0) (Shader.width config) r0 (Shader.pos_x ball)
  /\ settled_along (lit 0.0) (Shader.height config) r0 (Shader.pos_y ball).

Definition settled (config : Shader.Config) (ball : Shader.Ball) : Prop :=
  exists r0 : num, settled_with config r0 ball.



(** The same for the invocation of a ball that was live when the
    dispatch started, [ball0]: its slot is written by nobody else. *)
Definition holds_old (config : Shader.Config) (ball0 : Shader.Ball)
    (invocation : Invocation) (slot : Shader.Ball) : Prop :=
  match invocation with
  | at_load | at_read => slot = ball0
  | at_check ball _ _ =>
      slot = ball0 /\ ball = moved config ball0
      /\ eligible config ball0 = true
  | at_add ball _ _ | at_spawn ball _ _ _ | at_sub ball =>
      slot = ball0 /\ ball = shrunk config (moved config ball0)
      /\ eligible config ball0 = true
  | at_store ball => slot = ball0 /\ outcome config ball0 ball
  | returned => outcome config ball0 slot
  end.


(** The invariant of a dispatch of [n] invocations that started from
    [origin] with a count that cannot wrap around: the count less the
    additions about to be taken back lies between the count at the start
    and the cap; reserved slots lie past the count at the start; the
    slot of a ball that was live at the start is written by its own
    invocation only. *)
Record sound (config : Shader.Config) (origin : Shader.Storage) (n : nat)
    (pass : Pass) : Prop := mkSound {
  sound_length : length (invocations pass) = n;
  sound_low :
    Shader.ball_count origin + pending (invocations pass)
    <= Shader.ball_count (memory pass);
  sound_high :
    Shader.ball_count (memory pass) - pending (invocations pass)
    <= Z.max (Shader.ball_count origin) (Shader.max_balls config);
  sound_reserved :
    forall i ball hit_x hit_y new_idx,
      nth_error (invocations pass) i
      = Some (at_spawn ball hit_x hit_y new_idx) ->
      Shader.ball_count origin <= new_idx;
  sound_old :
    forall i invocation,
      nth_error (invocations pass) i = Some invocation ->
      Z.of_nat i < Shader.ball_count origin ->
      holds_old config (Shader.balls origin (Z.of_nat i)) invocation
        (Shader.balls (memory pass) (Z.of_nat i));
  sound_rest :
    forall j,
      j < Shader.ball_count origin -> j < 0 \/ Z.of_nat n <= j ->
      Shader.balls (memory pass) j = Shader.balls origin j
}.

(** [k] accesses in a row of one invocation. *)
Fixpoint accesses (config : Shader.Config) (idx : Z) (k : nat)
    (invocation : Invocation) (storage : Shader.Storage)
  : Invocation * Shader.Storage :=
  match k with
  | O => (invocation, storage)
  | S k' =>
      let '(invocation', storage') := step config idx invocation storage in
      accesses config idx k' invocation' storage'
  end.

(** The invocation with index [i] of a dispatch under way, and the slot
    that an invocation has reserved at line 90 and not yet written. *)
Definition invocation_of (pass : Pass) (i : nat) : Invocation :=
  nth i (invocations pass) returned.

Definition reserved (invocation : Invocation) : option Z :=
  match invocation with
  | at_spawn _ _ _ new_idx => Some new_idx
  | _ => None
  end.

(** The accesses of the invocations [ids], one invocation after the
    other: an invocation makes at most six accesses. *)
Definition one_by_one (ids : list nat) : list nat :=
  flat_map (fun i => repeat i 6) ids.

End Interleaved.

End Interleaved.

(** ** The vertex shader *)

(** [vertexShaderCode] (compute-shader.js, lines 127-181): one invocation
    for each of the six vertices of each instance. *)
Module Vertex.

Section Vertex.

Context {N : Number}.
Local Open Scope num_scope.

(** struct VertexOutput, lines 137-141. *)
Record VertexOutput : Type := mkVertexOutput {
  position : num * num * num * num;
  color : num * num * num;
  uv : num * num
}.

(** Lines 154-161: the two triangles of a quad. *)
Definition positions : list (num * num) :=
  [ (lit (-1.0), lit (-1.0));
    (lit 1.0, lit (-1.0));
    (lit (-1.0), lit 1.0);
    (lit (-1.0), lit 1.0);
    (lit 1.0, lit (-1.0));
    (lit 1.0, lit 1.0) ].

(** main, lines 146-180.  An index past the end of [positions] reads its
    last element; [draw(6, ...)] only makes the indices 0 to 5. *)
Definition main (balls : Z -> Shader.Ball) (resolution : num * num)
    (vertexIndex instanceIndex : Z) : VertexOutput :=
  let ball := balls instanceIndex in
  let pos := nth (Z.to_nat vertexIndex) positions (lit 1.0, lit 1.0) in
  let worldPos := (Shader.pos_x ball + fst pos * Shader.radius ball,
                   Shader.pos_y ball + snd pos * Shader.radius ball) in
  (* Convert to clip space *)
  let clipPos := (fst worldPos / fst resolution * lit 2.0 - lit 1.0,
                  snd worldPos / snd resolution * lit 2.0 - lit 1.0) in
  (* Extract RGB from u32 color *)
  let r := Shader.to_f32 (Z.land (Z.shiftr (Shader.color ball) 16) 0xFF)
           / lit 255.0 in
  let g := Shader.to_f32 (Z.land (Z.shiftr (Shader.color ball) 8) 0xFF)
           / lit 255.0 in
  let b := Shader.to_f32 (Z.land (Shader.color ball) 0xFF) / lit 255.0 in
  mkVertexOutput (fst clipPos, - snd clipPos, lit 0.0, lit 1.0) (r, g, b) pos.

End Vertex.

End Vertex.

(** ** WebGPUBackend at work *)

(** The methods of WebGPUBackend (webgpu-backend.js, lines 21-226) on the
    part of its state that the simulation depends on: the host object,
    the buffers on the device, and the counts that readBallCount() has
    copied and not yet delivered (the method is asynchronous: the host
    does not wait for it).  Host and device share one number system here,
    and the ball buffer has a slot for every index. *)
Section Host.

Context {N : Number}.

(** What init() asks of the browser: [navigator.gpu], the adapter, and
    whether a later call (requestDevice, configure, the pipelines) fails,
    with the message of the error. *)
Record Browser : Type := mkBrowser {
  navigator_gpu : bool;
  adapter : bool;
  later_error : option string
}.

Record Buffers : Type := mkBuffers {
  ballBuffer : Shader.Storage;      (* with ballCountBuffer *)
  configBuffer : Shader.Config;
  resolutionBuffer : num * num
}.

Record Running : Type := mkRunning {
  this : WebGPUBackend;
  buffers : Buffers;
  mapping : list Z
}.

(** updateConfig(), lines 148-163: [u32View[2] = this.maxBalls] stores
    the number modulo 2^32. *)
Definition updateConfig (this : WebGPUBackend) : Shader.Config :=
  Shader.mkConfig (width (gpu_canvas this)) (height (gpu_canvas this))
                  (Shader.u32 (gpu_maxBalls this)) (gpu_splitRatio this).

(** updateResolution(), lines 165-168. *)
Definition updateResolution (this : WebGPUBackend) : num * num :=
  (width (gpu_canvas this), height (gpu_canvas this)).

(** initBuffers(), lines 77-146. *)
Definition initBuffers (this : WebGPUBackend) : Buffers :=
  mkBuffers (Shader.initial (width (gpu_canvas this))
                            (height (gpu_canvas this)))
            (updateConfig this)
            (updateResolution this).

(** init(), lines 21-75. *)
Definition init (browser : Browser) (this : WebGPUBackend)
  : Completion Running :=
  if negb (navigator_gpu browser) then Throw "WebGPU not supported"
  else if negb (adapter browser) then Throw "No WebGPU adapter found"
  else match later_error browser with
       | Some message => Throw message
       | None => Normal (mkRunning this (initBuffers this) [])
       end.

(** update(), lines 170-183: one dispatch of [Math.ceil(this.ballCount /
    64)] workgroups, its invocations run in index order. *)
Definition gpu_update (r : Running) : Running :=
  mkRunning (this r)
    (mkBuffers (Shader.run (configBuffer (buffers r))
                           (Shader.in_order (ballCount (this r)))
                           (ballBuffer (buffers r)))
               (configBuffer (buffers r))
               (resolutionBuffer (buffers r)))
    (mapping r).

(** [draw(vertexCount, instanceCount, 0, 0)]: the pairs of a vertex index
    and an instance index. *)
Definition draw (vertexCount instanceCount : Z) : list (Z * Z) :=
  flat_map (fun instance =>
              map (fun vertex => (Z.of_nat vertex, Z.of_nat instance))
                  (seq 0 (Z.to_nat vertexCount)))
           (seq 0 (Z.to_nat instanceCount)).

(** render(), lines 185-204: what the vertex shader is run on and what
    it returns. *)
Definition gpu_render (r : Running) : list Vertex.VertexOutput :=
  map (fun '(vertex, instance) =>
         Vertex.main (Shader.balls (ballBuffer (buffers r)))
                     (resolutionBuffer (buffers r)) vertex instance)
      (draw 6 (ballCount (this r))).

(** readBallCount(), lines 206-222, up to the [await]: the count is
    copied out of the ball count buffer. *)
Definition readBallCount_copy (r : Running) : Running :=
  mkRunning (this r) (buffers r)
            (mapping r ++ [Shader.ball_count (ballBuffer (buffers r))]).

(** readBallCount() after the [await], for the pending copy number [j]:
    [this.ballCount = count; return count]. *)
Definition readBallCount_resume (r : Running) (j : nat)
  : Running * option Z :=
  match nth_error (mapping r) j with
  | Some count =>
      (mkRunning {| gpu_canvas := gpu_canvas (this r);
                    gpu_maxBalls := gpu_maxBalls (this r);
                    gpu_splitRatio := gpu_splitRatio (this r);
                    ballCount := count |}
                 (buffers r)
                 (firstn j (mapping r) ++ skipn (S j) (mapping r)),
       Some count)
  | None => (r, None)
  end.


(** resize() of the page (part_001, lines 30-36) while this backend is
    the current one: the canvas object, which the backend holds too, gets
    the new size, and updateResolution() is called. *)
Definition resize (r : Running) (innerWidth innerHeight : num) : Running :=
  let this' := {| gpu_canvas := mkCanvas innerWidth innerHeight;
                  gpu_maxBalls := gpu_maxBalls (this r);
                  gpu_splitRatio := gpu_splitRatio (this r);
                  ballCount := ballCount (this r) |} in
  mkRunning this'
            (mkBuffers (ballBuffer (buffers r)) (configBuffer (buffers r))
                       (updateResolution this'))
            (mapping r).

(** What happens to a running backend, one thing after the other. *)
Inductive Event : Type :=
| call_update
| call_render
| call_readBallCount
| resume_readBallCount (j : nat)
| window_resize (innerWidth innerHeight : num).

Definition step (r : Running) (e : Event) : Running :=
  match e with
  | call_update => gpu_update r
  | call_render => r
  | call_readBallCount => readBallCount_copy r
  | resume_readBallCount j => fst (readBallCount_resume r j)
  | window_resize w h => resize r w h
  end.

Definition steps (events : list Event) (r : Running) : Running :=
  fold_left step events r.


End Host.

(** ** The animation loop *)

(** [loop] of the page (part_001, lines 162-264) is the caller of
    update() and render().  Times are in milliseconds and in exact
    arithmetic.  [B] is the backend and [body] stands for lines 197-253,
    which call update() and render() of the current backend and refresh
    the displays.  Of the variables of the page the model keeps those
    that decide whether a frame is rendered, and the number of callbacks
    that requestAnimationFrame() has been given for the next frame. *)
Section Animation.

Variable B : Type.
Variable body : B -> Q -> B.

Record Animation : Type := mkAnimation {
  backend : B;
  lastRenderTime : Q;
  frameInterval : Q;
  requested : nat
}.

(** [a % b]: the remainder of the division truncated towards zero. *)
Definition js_rem (a b : Q) : Q :=
  let q := a / b in
  a - b * inject_Z (if Qltb q 0 then Qceiling q else Qfloor q).

(** [requestAnimationFrame(loop)] *)
Definition requestAnimationFrame (a : Animation) : Animation :=
  mkAnimation (backend a) (lastRenderTime a) (frameInterval a)
              (S (requested a)).

(** loop(currentTime), lines 171-256. *)
Definition loop (a : Animation) (currentTime : Q) : Animation :=
  let a := requestAnimationFrame a in
  (* FPS limiting *)
  let deltaTime := currentTime - lastRenderTime a in
  if Qltb deltaTime (frameInterval a) then a
  else
    let a := mkAnimation (backend a)
                         (currentTime - js_rem deltaTime (frameInterval a))
                         (frameInterval a) (requested a) in
    let a := mkAnimation (body (backend a) currentTime) (lastRenderTime a)
                         (frameInterval a) (requested a) in
    requestAnimationFrame a.

(** One frame of the browser: every callback requested so far is called
    with the time stamp of the frame; what they request is for the next
    frame. *)
Definition animation_frame (a : Animation) (currentTime : Q) : Animation :=
  Nat.iter (requested a) (fun a => loop a currentTime)
           (mkAnimation (backend a) (lastRenderTime a) (frameInterval a) 0).

Definition animation (timestamps : list Q) (a : Animation) : Animation :=
  fold_left animation_frame timestamps a.

End Animation.

Arguments mkAnimation {B} backend lastRenderTime frameInterval requested.
Arguments backend {B} a.
Arguments lastRenderTime {B} a.
Arguments frameInterval {B} a.
Arguments requested {B} a.
Arguments requestAnimationFrame {B} a.
Arguments loop {B} body a currentTime.
Arguments animation_frame {B} body a currentTime.
Arguments animation {B} body timestamps a.

(** ** Laws of arithmetic *)

(** What Math.max guarantees in every instance here: if [a >= b] then
    [Math.max(a, b) >= b]. *)
Class MaxLaw (N : Number) : Prop := {
  nmax_geb : forall a b : num, ngeb a b = true -> ngeb (nmax a b) b = true
}.

(** Math.abs forgets the sign and nothing else.  Both equations hold in
    every instance here. *)
Class AbsLaw (N : Number) : Prop := {
  nabs_nabs : forall a : num, nabs (nabs a) = nabs a;
  nabs_nneg : forall a : num, nabs (nneg a) = nabs a
}.

(** Math.max(a, 1.0) is [a] itself when [a >= 1.0]. *)
Class ClampLaw (N : Number) : Prop := {
  nmax_floor : forall a : num,
      ngeb a (lit 1.0) = true -> nmax a (lit 1.0) = a
}.

(** The state that [new JSBackend(canvas, maxBalls, splitRatio)] builds
    on a canvas of 800 by 600, in binary64: the start of the examples. *)
Definition started (maxBalls : Z) (splitRatio : Q) : @JSBackend binary64 :=
  let canvas := @mkCanvas binary64 (lit 800) (lit 600) in
  match constructor canvas maxBalls (lit splitRatio) with
  | Normal this => this
  | Throw _ => mkJSBackend canvas maxBalls (lit splitRatio) []
  end.

(** Math.random() returning 0.5 at every call. *)
Definition halves : @Random binary64 := fun _ => lit 0.5.

(** The distinct colors of a list, in the order of their first
    appearance. *)
Fixpoint first_colors (colors : list Z) : list Z :=
  match colors with
  | [] => []
  | c :: colors' =>
      c :: filter (fun c' => negb (c' =? c)%Z) (first_colors colors')
  end.

(** The balls of one color, in array order. *)
Definition of_color {N : Number} (c : Z) (balls : list Ball) : list Ball :=
  filter (fun ball => (color ball =? c)%Z) balls.

(** The color map that holds, for each color in order of first
    appearance, the balls of that color in array order. *)
Definition groups_of {N : Number} (balls : list Ball) : ColorMap :=
  map (fun c => (c, of_color c balls)) (first_colors (map color balls)).

(** *** The drawing as the specification words it *)

(** The color of a particle, a number 0xRRGGBB, as a fill style. *)
Definition own_color (color : Z) : FillStyle :=
  rgb ((color / 65536) mod 256) ((color / 256) mod 256) (color mod 256)%Z.

(** The square of side 2 * radius centred on the particle. *)
Definition bounding_square {N : Number} (ball : Ball) : Shape :=
  rectangle (x ball - radius ball)%num (y ball - radius ball)%num
            (radius ball * lit 2)%num (radius ball * lit 2)%num.

(** The circle at the particle's position with its radius: one arc from
    angle 0 to 2 pi. *)
Definition circle {N : Number} (ball : Ball) : Shape :=
  inside_path [(x ball, y ball, radius ball, lit 0, (Math_PI * lit 2)%num)].

(** draw(): the cleared background, then above 10000 particles the
    bounding squares, color group by color group, and otherwise one
    circle for each particle. *)
Definition draw_spec {N : Number} (this : JSBackend)
  : list (FillStyle * Shape) :=
  (css "#1a1a1a",
   rectangle (lit 0) (lit 0) (width (canvas this)) (height (canvas this)))
  :: (if (10000 <? Z.of_nat (length (balls this)))%Z
      then flat_map
             (fun c => map (fun ball => (own_color c, bounding_square ball))
                           (of_color c (balls this)))
             (first_colors (map color (balls this)))
      else map (fun ball => (own_color (color ball), circle ball))
               (balls this)).

(** * Properties *)

(** ** The instances and the laws *)

Lemma Qltb_lt (a b : Q) : Qltb a b = true <-> a < b.
Proof.
  unfold Qltb. rewrite Qlt_alt.
  destruct (a ?= b); split; congruence.
Qed.

Lemma SFcompare_refl (a : spec_float) :
  a <> S754_nan -> SFcompare a a = Some Eq.
Proof.
  destruct a as [s | s | | s m e]; simpl; intros H.
  - reflexivity.
  - now destruct s.
  - contradiction.
  - rewrite Z.compare_refl, Pos.compare_cont_refl. now destruct s.
Qed.

Lemma SFleb_not_nan (a b : spec_float) :
  SFleb a b = true -> a <> S754_nan /\ b <> S754_nan.
Proof.
  unfold SFleb. destruct a, b; simpl; intros H; split; congruence.
Qed.

Lemma IEEE_MaxLaw (prec emax : Z) : MaxLaw (IEEE.number prec emax).
Proof.
  constructor. simpl. intros a b H.
  destruct (SFleb_not_nan _ _ H) as [Hb Ha].
  assert (Hbb : SFleb b b = true)
    by (unfold SFleb; now rewrite SFcompare_refl).
  unfold IEEE.max.
  destruct a as [sa | sa | | sa ma ea]; try contradiction;
    destruct b as [sb | sb | | sb mb eb]; try contradiction;
    try reflexivity;
    match goal with
    | |- context [if ?c then _ else _] => destruct c; assumption
    end.
Qed.

#[export] Instance binary64_MaxLaw : MaxLaw binary64 := IEEE_MaxLaw 53 1024.

(** ** The loop body *)

Section LoopBody.

Context {N : Number}.
Local Open Scope num_scope.

Variable this : JSBackend.
Variable random : Random.

Ltac body_cases ball :=
  unfold loop_body, splits, bounced, hitX, hitY in *;
  destruct (bounceX this ball) as [[? ?] [|]];
  destruct (bounceY this ball) as [[? ?] [|]];
  destruct (justSplit ball);
  cbn [fst snd orb andb negb] in *;
  repeat match goal with
    | |- context [if ?c then _ else _] => destruct c eqn:?
    | H : context [if ?c then _ else _] |- _ => destruct c eqn:?
    end;
  cbn [fst snd orb andb negb] in *.

(** A ball that does not split is left as the bounce left it, except
    that after an ungraced hit its radius is clamped by Math.max. *)
Lemma loop_body_keep (newBalls : list Ball) (k : nat) (ball : Ball) :
  splits this newBalls ball = false ->
  exists r',
    loop_body this newBalls random k ball
    = ({| x := x (bounced this ball); y := y (bounced this ball);
          vx := vx (bounced this ball); vy := vy (bounced this ball);
          radius := r'; color := color ball; justSplit := false |},
       newBalls, k)
    /\ ((r' = radius ball
         /\ (hitX this ball || hitY this ball) && negb (justSplit ball) = false)
        \/ (r' = nmax (radius ball) (lit 1.0)
            /\ (hitX this ball || hitY this ball) && negb (justSplit ball) = true)).
Proof.
  intros H. body_cases ball; try discriminate H;
    eexists; (split; [reflexivity | auto]).
Qed.

(** A ball that splits shrinks to the new radius and takes the grace
    flag; one child is pushed, at the same position and with the same
    radius, with the grace flag, a speed scaled by [speedFactor] and a
    jitter on the other axis for each axis that was hit. *)
Lemma loop_body_split (newBalls : list Ball) (k : nat) (ball : Ball) :
  splits this newBalls ball = true ->
  let newRadius := radius ball * splitRatio this in
  let kx := if hitX this ball then S (S (S k)) else S (S k) in
  let k' := if hitY this ball then S kx else kx in
  loop_body this newBalls random k ball
  = ({| x := x (bounced this ball); y := y (bounced this ball);
        vx := vx (bounced this ball); vy := vy (bounced this ball);
        radius := newRadius; color := color ball; justSplit := true |},
     newBalls ++
     [ {| x := x (bounced this ball); y := y (bounced this ball);
          vx := if hitY this ball
                then vx (bounced this ball) * speedFactor random k
                     + jitter random kx
                else vx (bounced this ball) * speedFactor random k;
          vy := if hitX this ball
                then vy (bounced this ball) * speedFactor random k
                     + jitter random (S (S k))
                else vy (bounced this ball) * speedFactor random k;
          radius := newRadius;
          color := nfloor (random (S k) * lit 16777215);
          justSplit := true |} ],
     k').
Proof.
  intros H. body_cases ball; try discriminate H; reflexivity.
Qed.

Lemma pushes_splits (newBalls : list Ball) (k : nat) (ball : Ball) :
  pushes this newBalls random k ball = splits this newBalls ball.
Proof.
  unfold pushes. destruct (splits this newBalls ball) eqn:E.
  - rewrite (loop_body_split _ k _ E). cbn [fst snd].
    rewrite length_app. simpl. apply Nat.ltb_lt. lia.
  - destruct (loop_body_keep _ k _ E) as (r' & -> & _). cbn [fst snd].
    apply Nat.ltb_irrefl.
Qed.

(** The body never removes a pending child and respects the cap. *)
Lemma loop_body_pending (newBalls : list Ball) (k : nat) (ball : Ball) :
  let newBalls' := snd (fst (loop_body this newBalls random k ball)) in
  (length newBalls <= length newBalls')%nat
  /\ ((Z.of_nat (length (balls this) + length newBalls) <= maxBalls this)%Z ->
      (Z.of_nat (length (balls this) + length newBalls') <= maxBalls this)%Z).
Proof.
  destruct (splits this newBalls ball) eqn:E.
  - rewrite (loop_body_split _ k _ E). cbn [fst snd].
    rewrite length_app. simpl. split; [lia |].
    intros _. unfold splits in E.
    apply andb_prop in E. destruct E as [_ E]. apply Z.ltb_lt in E. lia.
  - destruct (loop_body_keep _ k _ E) as (r' & -> & _). cbn [fst snd].
    split; [lia | trivial].
Qed.

(** *** The loop *)

Lemma update_loop_length (rest newBalls : list Ball) (k : nat) :
  length (fst (fst (update_loop this random rest newBalls k))) = length rest.
Proof.
  revert newBalls k. induction rest as [| ball rest IH]; intros; simpl.
  - reflexivity.
  - destruct (loop_body this newBalls random k ball) as [[b' nb'] k'].
    specialize (IH nb' k').
    destruct (update_loop this random rest nb' k') as [[v nb''] k''].
    simpl in *. now rewrite IH.
Qed.

(** When the loop ends, [newBalls] and the draw count are those of
    [loop_state] past the last ball. *)
Lemma update_loop_final (rest newBalls : list Ball) (k : nat) :
  let '(_, newBalls', k') := update_loop this random rest newBalls k in
  loop_state this random rest newBalls k (length rest) = (newBalls', k').
Proof.
  revert newBalls k. induction rest as [| ball rest IH]; intros; simpl.
  - reflexivity.
  - destruct (loop_body this newBalls random k ball) as [[b' nb'] k'].
    specialize (IH nb' k').
    destruct (update_loop this random rest nb' k') as [[v nb''] k''].
    exact IH.
Qed.

(** Each ball is visited once, with [newBalls] and the draw count as
    [loop_state] gives them. *)
Lemma update_loop_nth (rest newBalls : list Ball) (k i : nat) (ball : Ball) :
  nth_error rest i = Some ball ->
  nth_error (fst (fst (update_loop this random rest newBalls k))) i
  = Some (fst (fst (loop_body this
                      (fst (loop_state this random rest newBalls k i))
                      random
                      (snd (loop_state this random rest newBalls k i))
                      ball))).
Proof.
  revert newBalls k i. induction rest as [| b rest IH]; intros nb k i H.
  - destruct i; discriminate H.
  - simpl. destruct i as [| i]; simpl in H.
    + injection H as ->. cbn [fst snd].
      destruct (loop_body this nb random k ball) as [[b' nb'] k'].
      destruct (update_loop this random rest nb' k') as [[v nb''] k''].
      reflexivity.
    + destruct (loop_body this nb random k b) as [[b' nb'] k'].
      specialize (IH nb' k' i H).
      destruct (update_loop this random rest nb' k') as [[v nb''] k''].
      exact IH.
Qed.

Lemma loop_state_succ (rest newBalls : list Ball) (k i : nat) (ball : Ball) :
  nth_error rest i = Some ball ->
  loop_state this random rest newBalls k (S i)
  = (snd (fst (loop_body this
                 (fst (loop_state this random rest newBalls k i))
                 random
                 (snd (loop_state this random rest newBalls k i))
                 ball)),
     snd (loop_body this
            (fst (loop_state this random rest newBalls k i))
            random
            (snd (loop_state this random rest newBalls k i))
            ball)).
Proof.
  revert newBalls k i. induction rest as [| b rest IH]; intros nb k i H.
  - destruct i; discriminate H.
  - destruct i as [| i]; simpl in H.
    + injection H as ->. cbn [loop_state fst snd].
      destruct (loop_body this nb random k ball) as [[b' nb'] k'].
      destruct rest; reflexivity.
    + change (loop_state this random (b :: rest) nb k (S (S i)))
        with (let '(_, nb', k') := loop_body this nb random k b in
              loop_state this random rest nb' k' (S i)).
      change (loop_state this random (b :: rest) nb k (S i))
        with (let '(_, nb', k') := loop_body this nb random k b in
              loop_state this random rest nb' k' i).
      destruct (loop_body this nb random k b) as [[b' nb'] k'].
      apply IH, H.
Qed.

Lemma loop_state_beyond (rest newBalls : list Ball) (k i : nat) :
  (length rest <= i)%nat ->
  loop_state this random rest newBalls k i
  = loop_state this random rest newBalls k (length rest).
Proof.
  revert newBalls k i. induction rest as [| b rest IH]; intros nb k i H.
  - destruct i; reflexivity.
  - destruct i as [| i]; simpl in H; [lia |]. simpl.
    destruct (loop_body this nb random k b) as [[b' nb'] k'].
    apply IH. lia.
Qed.

(** [newBalls] only grows along the loop, and stays under the cap. *)
Lemma loop_state_pending (rest newBalls : list Ball) (k i : nat) :
  let newBalls' := fst (loop_state this random rest newBalls k i) in
  (length newBalls <= length newBalls')%nat
  /\ ((Z.of_nat (length (balls this) + length newBalls) <= maxBalls this)%Z ->
      (Z.of_nat (length (balls this) + length newBalls') <= maxBalls this)%Z).
Proof.
  revert newBalls k i. induction rest as [| b rest IH]; intros nb k i.
  - destruct i; simpl; auto.
  - destruct i as [| i]; simpl; [auto |].
    pose proof (loop_body_pending nb k b) as [H1 H2].
    destruct (loop_body this nb random k b) as [[b' nb'] k'].
    cbn [fst snd] in H1, H2.
    destruct (IH nb' k' i) as [H3 H4]. split; [lia | auto].
Qed.

End LoopBody.

(** ** One call of update() *)

Section Update.

Context {N : Number}.
Local Open Scope num_scope.

Variable random : Random.

(** update() leaves the visited balls in place and appends the children
    the loop collected. *)
Lemma update_balls (this : JSBackend) (k : nat) :
  balls (fst (update this random k))
  = fst (fst (update_loop this random (balls this) [] k))
    ++ fst (loop_state this random (balls this) [] k (length (balls this))).
Proof.
  unfold update.
  pose proof (update_loop_final this random (balls this) [] k) as H.
  destruct (update_loop this random (balls this) [] k) as [[v nb] k'].
  rewrite H. reflexivity.
Qed.

Lemma update_config (this : JSBackend) (k : nat) :
  canvas (fst (update this random k)) = canvas this
  /\ maxBalls (fst (update this random k)) = maxBalls this
  /\ splitRatio (fst (update this random k)) = splitRatio this.
Proof.
  unfold update.
  destruct (update_loop this random (balls this) [] k) as [[v nb] k'].
  simpl. auto.
Qed.

Lemma update_count (this : JSBackend) (k : nat) :
  getBallCount (fst (update this random k))
  = (length (balls this)
     + length (fst (loop_state this random (balls this) [] k
                      (length (balls this)))))%nat.
Proof.
  unfold getBallCount. rewrite update_balls, length_app, update_loop_length.
  reflexivity.
Qed.

(** One tick never lowers the count, and keeps it under the cap if it
    was. *)
Lemma update_count_bounds (this : JSBackend) (k : nat) :
  (getBallCount this <= getBallCount (fst (update this random k)))%nat
  /\ ((Z.of_nat (getBallCount this) <= maxBalls this)%Z ->
      (Z.of_nat (getBallCount (fst (update this random k)))
       <= maxBalls this)%Z).
Proof.
  rewrite update_count. unfold getBallCount.
  destruct (loop_state_pending this random (balls this) [] k
              (length (balls this))) as [H1 H2].
  simpl in H1, H2. rewrite Nat.add_0_r in H2. split; [lia | exact H2].
Qed.

Lemma ticks_config (n : nat) (this : JSBackend) (k : nat) :
  canvas (fst (ticks n this random k)) = canvas this
  /\ maxBalls (fst (ticks n this random k)) = maxBalls this
  /\ splitRatio (fst (ticks n this random k)) = splitRatio this.
Proof.
  induction n as [| n IH]; simpl; [auto |].
  destruct (ticks n this random k) as [this' k']. simpl in IH.
  destruct (update_config this' k') as (H1 & H2 & H3).
  destruct IH as (I1 & I2 & I3).
  rewrite H1, H2, H3. auto.
Qed.

Lemma ticks_succ (n : nat) (this : JSBackend) (k : nat) :
  ticks (S n) this random k
  = update (fst (ticks n this random k)) random (snd (ticks n this random k)).
Proof.
  simpl. now destruct (ticks n this random k).
Qed.

Lemma ticks_count_capped (n : nat) (this : JSBackend) (k : nat) :
  (Z.of_nat (getBallCount this) <= maxBalls this)%Z ->
  (Z.of_nat (getBallCount (fst (ticks n this random k))) <= maxBalls this)%Z.
Proof.
  intros H. induction n as [| n IH]; [exact H |].
  rewrite ticks_succ.
  destruct (ticks_config n this k) as (_ & Hm & _).
  rewrite <- Hm in IH |- *.
  now apply update_count_bounds.
Qed.

(** An invariant of every ball carries over one tick if the loop body
    keeps it for the visited ball and for the pending children. *)
Lemma update_Forall (P : Ball -> Prop) (this : JSBackend) (k : nat) :
  (forall newBalls k0 ball,
      P ball -> Forall P newBalls ->
      P (fst (fst (loop_body this newBalls random k0 ball)))
      /\ Forall P (snd (fst (loop_body this newBalls random k0 ball)))) ->
  Forall P (balls this) ->
  Forall P (balls (fst (update this random k))).
Proof.
  intros Hbody Hall. unfold update.
  assert (G : forall rest newBalls k0,
             Forall P rest -> Forall P newBalls ->
             Forall P (fst (fst (update_loop this random rest newBalls k0)))
             /\ Forall P (snd (fst (update_loop this random rest newBalls k0)))).
  { induction rest as [| b rest IH]; intros nb k0 Hr Hn; simpl; [auto |].
    inversion Hr as [| ? ? Hb Hr']; subst.
    destruct (Hbody nb k0 b Hb Hn) as [H1 H2].
    destruct (loop_body this nb random k0 b) as [[b' nb'] k'].
    cbn [fst snd] in H1, H2.
    destruct (IH nb' k' Hr' H2) as [H3 H4].
    destruct (update_loop this random rest nb' k') as [[v nb''] k''].
    cbn [fst snd] in *. auto. }
  destruct (G (balls this) [] k Hall (Forall_nil P)) as [H1 H2].
  destruct (update_loop this random (balls this) [] k) as [[v nb] k'].
  cbn [fst snd balls] in *. apply Forall_app. auto.
Qed.

(** After update(), [this.balls[i]] is what the loop body made of it. *)
Lemma update_nth (this : JSBackend) (k i : nat) (ball : Ball) :
  nth_error (balls this) i = Some ball ->
  nth_error (balls (fst (update this random k))) i
  = Some (fst (fst (loop_body this
                      (fst (loop_state this random (balls this) [] k i))
                      random
                      (snd (loop_state this random (balls this) [] k i))
                      ball))).
Proof.
  intros H. rewrite update_balls, nth_error_app1.
  - now apply update_loop_nth.
  - rewrite update_loop_length. apply nth_error_Some. congruence.
Qed.

Lemma splits_at_spec (this : JSBackend) (k i : nat) (ball : Ball) :
  nth_error (balls this) i = Some ball ->
  splits_at this random k i
  = splits this (fst (loop_state this random (balls this) [] k i)) ball.
Proof.
  intros H. unfold splits_at. rewrite H.
  destruct (loop_state this random (balls this) [] k i) as [nb kk].
  apply pushes_splits.
Qed.

End Update.

(** ** The radius floor of JSBackend *)

(** X25.  JSBackend keeps the radius floor: if every ball has radius
    >= 1.0 when update() starts, every ball has radius >= 1.0 when it
    returns, children included.  A ball that
    splits takes radius * splitRatio, and only when that is itself
    >= 1.0; a ball that does not split keeps its radius or has it clamped
    to Math.max(radius, 1.0). *)
Theorem radius_floor_kept {N : Number} {L : MaxLaw N}
    (this : JSBackend) (random : Random) (k : nat) :
  Forall (fun ball => (radius ball >=? lit 1.0)%num = true) (balls this) ->
  Forall (fun ball => (radius ball >=? lit 1.0)%num = true)
         (balls (fst (update this random k)))
  /\ forall i ball ball',
       nth_error (balls this) i = Some ball ->
       nth_error (balls (fst (update this random k))) i = Some ball' ->
       (splits_at this random k i = true
        /\ radius ball' = (radius ball * splitRatio this)%num
        /\ (radius ball * splitRatio this >=? lit 1.0)%num = true)
       \/ (splits_at this random k i = false
           /\ (radius ball' = nmax (radius ball) (lit 1.0)
               \/ radius ball' = radius ball)).
Proof.
  intros Hall. split.
  - apply update_Forall; [| exact Hall].
    intros nb k0 ball Hb Hnb.
    destruct (splits this nb ball) eqn:E.
    + rewrite (loop_body_split this random nb k0 ball E). cbn [fst snd].
      assert (Hr : (radius ball * splitRatio this >=? lit 1.0)%num = true).
      { unfold splits in E. apply andb_prop in E. destruct E as [E _].
        apply andb_prop in E. now destruct E as [_ E]. }
      split; [exact Hr |].
      apply Forall_app. split; [exact Hnb |].
      constructor; [exact Hr | constructor].
    + destruct (loop_body_keep this random nb k0 ball E)
        as (r' & -> & [[-> _] | [-> _]]); cbn [fst snd];
        (split; [| exact Hnb]); cbn [radius].
      * exact Hb.
      * now apply nmax_geb.
  - intros i ball ball' Hi Hi'.
    rewrite (update_nth random this k i ball Hi) in Hi'.
    injection Hi' as <-.
    rewrite (splits_at_spec random this k i ball Hi).
    destruct (loop_state this random (balls this) [] k i) as [nb kk].
    cbn [fst snd].
    destruct (splits this nb ball) eqn:E.
    + left. rewrite (loop_body_split this random nb kk ball E).
      cbn [fst snd radius]. split; [reflexivity |]. split; [reflexivity |].
      unfold splits in E. apply andb_prop in E. destruct E as [E _].
      apply andb_prop in E. now destruct E as [_ E].
    + right. split; [reflexivity |].
      destruct (loop_body_keep this random nb kk ball E)
        as (r' & -> & [[-> _] | [-> _]]); cbn [fst snd radius]; auto.
Qed.

Lemma radius_floor_kept_witness :
  let this := mkJSBackend (@mkCanvas binary64 (lit 800) (lit 600)) 10 (lit 0.8)
                [mkBall (lit 400) (lit 54) (lit 8.0) (lit (-6.0)) (lit 60.0)
                   0xFF4444 false] in
  let random := fun _ : nat => @lit binary64 0.5 in
  Forall (fun ball => (radius ball >=? lit 1.0)%num = true) (balls this)
  /\ Forall (fun ball => (radius ball >=? lit 1.0)%num = true)
            (balls (fst (update this random 0)))
  /\ length (balls (fst (update this random 0))) = 2%nat.
Proof.
  intros this random.
  assert (H : Forall (fun ball => (radius ball >=? lit 1.0)%num = true)
                     (balls this))
    by (constructor; [vm_compute; reflexivity | constructor]).
  split; [exact H |].
  split; [| vm_compute; reflexivity].
  exact (proj1 (radius_floor_kept this random 0 H)).
Defined.

(** ** The grace flag (C3) *)

Section Grace.

Context {N : Number}.
Variable random : Random.

Lemma splits_graced (this : JSBackend) (newBalls : list Ball) (ball : Ball) :
  justSplit ball = true -> splits this newBalls ball = false.
Proof.
  intros H. unfold splits. rewrite H.
  now rewrite andb_false_r.
Qed.

(** The flag the body leaves on the visited ball says whether it split. *)
Lemma loop_body_flag (this : JSBackend) (newBalls : list Ball) (k : nat)
    (ball : Ball) :
  justSplit (fst (fst (loop_body this newBalls random k ball)))
  = splits this newBalls ball.
Proof.
  destruct (splits this newBalls ball) eqn:E.
  - now rewrite (loop_body_split this random newBalls k ball E).
  - now destruct (loop_body_keep this random newBalls k ball E)
      as (r' & -> & _).
Qed.

Lemma loop_body_children_graced (this : JSBackend) (newBalls : list Ball)
    (k : nat) (ball : Ball) :
  Forall (fun b => justSplit b = true) newBalls ->
  Forall (fun b => justSplit b = true)
         (snd (fst (loop_body this newBalls random k ball))).
Proof.
  intros H. destruct (splits this newBalls ball) eqn:E.
  - rewrite (loop_body_split this random newBalls k ball E). cbn [fst snd].
    apply Forall_app. split; [exact H |]. now repeat constructor.
  - now destruct (loop_body_keep this random newBalls k ball E)
      as (r' & -> & _).
Qed.

Lemma loop_state_children_graced (this : JSBackend) (rest newBalls : list Ball)
    (k i : nat) :
  Forall (fun b => justSplit b = true) newBalls ->
  Forall (fun b => justSplit b = true)
         (fst (loop_state this random rest newBalls k i)).
Proof.
  revert newBalls k i. induction rest as [| b rest IH]; intros nb k i H.
  - now destruct i.
  - destruct i as [| i]; [exact H |]. simpl.
    pose proof (loop_body_children_graced this nb k b H) as H'.
    destruct (loop_body this nb random k b) as [[b' nb'] k'].
    now apply IH.
Qed.

(** After update(), a ball carries the flag exactly if it split in this
    call or was created by it. *)
Lemma update_flag (this : JSBackend) (k i : nat) (ball1 : Ball) :
  nth_error (balls (fst (update this random k))) i = Some ball1 ->
  justSplit ball1 = true
  <-> (splits_at this random k i = true \/ (length (balls this) <= i)%nat).
Proof.
  intros H1. destruct (nth_error (balls this) i) as [ball |] eqn:Hi.
  - rewrite (update_nth random this k i ball Hi) in H1. injection H1 as <-.
    rewrite loop_body_flag, (splits_at_spec random this k i ball Hi).
    assert (i < length (balls this))%nat
      by (apply nth_error_Some; congruence).
    split; [auto | intros [? | ?]; [assumption | lia]].
  - apply nth_error_None in Hi. split; [auto | intros _].
    rewrite update_balls, nth_error_app2 in H1
      by (rewrite update_loop_length; exact Hi).
    apply nth_error_In in H1.
    pose proof (loop_state_children_graced this (balls this) [] k
                  (length (balls this)) (Forall_nil _)) as F.
    rewrite Forall_forall in F. now apply F.
Qed.

End Grace.

(** X20.  JSBackend.update keeps the grace rule: a ball that splits during one
    update() call, or is created by it, does not split during the next
    call, whatever it hits there.  The flag is cleared for every ball the
    loop visits and is set again only on the two balls of a split of that
    same call, so after a call a ball carries the flag exactly if it
    split or was created in that call. *)
Theorem grace_blocks_next_split {N : Number}
    (this : JSBackend) (random : Random) (k : nat) :
  let this1 := fst (update this random k) in
  let k1 := snd (update this random k) in
  let this2 := fst (update this1 random k1) in
  (forall i ball1,
      nth_error (balls this1) i = Some ball1 ->
      justSplit ball1 = true
      <-> (splits_at this random k i = true
           \/ (length (balls this) <= i)%nat))
  /\ (forall i ball1,
        nth_error (balls this1) i = Some ball1 ->
        splits_at this random k i = true \/ (length (balls this) <= i)%nat ->
        splits_at this1 random k1 i = false
        /\ exists ball2,
             nth_error (balls this2) i = Some ball2
             /\ justSplit ball2 = false
             /\ radius ball2 = radius ball1).
Proof.
  intros this1 k1 this2. split.
  - intros i ball1 H. now apply update_flag.
  - intros i ball1 H Hs.
    apply (update_flag random this k i ball1 H) in Hs.
    rewrite (splits_at_spec random this1 k1 i ball1 H).
    set (nb := fst (loop_state this1 random (balls this1) [] k1 i)).
    pose proof (splits_graced this1 nb ball1 Hs) as E.
    split; [exact E |].
    eexists. split; [apply (update_nth random this1 k1 i ball1 H) |].
    fold nb.
    destruct (loop_body_keep this1 random nb
                (snd (loop_state this1 random (balls this1) [] k1 i))
                ball1 E) as (r' & -> & [[-> _] | [_ C]]); cbn [fst snd].
    + auto.
    + rewrite Hs, andb_false_r in C. discriminate C.
Qed.

(** ** A corner hit (C5) *)

(** C5: the loop body tests the two hit flags together, once.  Whatever
    was hit, at most one child is pushed for a ball; and an eligible ball
    that breaches both an x and a y wall in the same tick pushes exactly
    one child, whose vx and vy both get a jitter, each from a draw of its
    own. *)
Theorem corner_hit_one_split {N : Number}
    (this : JSBackend) (newBalls : list Ball) (random : Random) (k : nat)
    (ball : Ball) :
  let result := loop_body this newBalls random k ball in
  (length (snd (fst result)) <= S (length newBalls))%nat
  /\ (hitX this ball = true -> hitY this ball = true ->
      splits this newBalls ball = true ->
      exists child,
        snd (fst result) = newBalls ++ [child]
        /\ vx child
           = (vx (fst (fst result)) * speedFactor random k
              + jitter random (S (S (S k))))%num
        /\ vy child
           = (vy (fst (fst result)) * speedFactor random k
              + jitter random (S (S k)))%num
        /\ snd result = S (S (S (S k)))).
Proof.
  cbv zeta. split.
  - destruct (splits this newBalls ball) eqn:E.
    + rewrite (loop_body_split this random newBalls k ball E). cbn [fst snd].
      rewrite length_app. simpl. lia.
    + destruct (loop_body_keep this random newBalls k ball E)
        as (r' & -> & _). cbn [fst snd]. lia.
  - intros HX HY E.
    rewrite (loop_body_split this random newBalls k ball E).
    rewrite HX, HY. cbn [fst snd vx vy].
    eexists. repeat split.
Qed.

Lemma corner_hit_one_split_witness :
  let this := mkJSBackend (@mkCanvas binary64 (lit 800) (lit 600)) 10 (lit 0.8)
                [mkBall (lit 66) (lit 64) (lit (-8.0)) (lit (-6.0)) (lit 60.0)
                   0xFF4444 false] in
  let ball := mkBall (lit 66) (lit 64) (lit (-8.0)) (lit (-6.0)) (lit 60.0)
                0xFF4444 false in
  let random := fun _ : nat => @lit binary64 0.5 in
  hitX this ball = true /\ hitY this ball = true
  /\ splits this [] ball = true
  /\ exists child,
       snd (fst (loop_body this [] random 0 ball)) = [] ++ [child]
       /\ vx child
          = (vx (fst (fst (loop_body this [] random 0 ball)))
             * speedFactor random 0 + jitter random 3)%num
       /\ vy child
          = (vy (fst (fst (loop_body this [] random 0 ball)))
             * speedFactor random 0 + jitter random 2)%num
       /\ snd (loop_body this [] random 0 ball) = 4%nat.
Proof.
  intros this ball random.
  assert (HX : hitX this ball = true) by (vm_compute; reflexivity).
  assert (HY : hitY this ball = true) by (vm_compute; reflexivity).
  assert (HS : splits this [] ball = true) by (vm_compute; reflexivity).
  repeat (split; [assumption |]).
  exact (proj2 (corner_hit_one_split this [] random 0 ball) HX HY HS).
Defined.

(** ** Where the children go (C6) *)

Section Children.

Context {N : Number}.
Variable this : JSBackend.
Variable random : Random.
Variable k : nat.

Let pending (i : nat) : list Ball :=
  fst (loop_state this random (balls this) [] k i).

Let draws (i : nat) : nat :=
  snd (loop_state this random (balls this) [] k i).

(** From one position of the loop to the next, [newBalls] gains the
    child of the ball visited, if that ball splits, and nothing else. *)
Lemma pending_succ (i : nat) (ball : Ball) :
  nth_error (balls this) i = Some ball ->
  pending (S i) = snd (fst (loop_body this (pending i) random (draws i) ball))
  /\ ((splits_at this random k i = true
       /\ exists child, pending (S i) = pending i ++ [child])
      \/ (splits_at this random k i = false /\ pending (S i) = pending i)).
Proof.
  intros H. unfold pending, draws.
  rewrite (loop_state_succ this random (balls this) [] k i ball H).
  cbn [fst]. split; [reflexivity |].
  rewrite (splits_at_spec random this k i ball H).
  destruct (splits this (fst (loop_state this random (balls this) [] k i))
              ball) eqn:E.
  - left. split; [reflexivity |].
    rewrite (loop_body_split this random _ _ ball E). cbn [fst snd].
    eexists. reflexivity.
  - right. split; [reflexivity |].
    now destruct (loop_body_keep this random _
                    (snd (loop_state this random (balls this) [] k i))
                    ball E) as (r' & -> & _).
Qed.

Lemma pending_beyond (i : nat) :
  (length (balls this) <= i)%nat -> pending i = pending (length (balls this)).
Proof.
  intros H. unfold pending. now rewrite loop_state_beyond.
Qed.

Lemma pending_prefix (i j : nat) :
  (i <= j)%nat -> exists suffix, pending j = pending i ++ suffix.
Proof.
  induction 1 as [| j Hle [suffix IH]].
  - exists []. now rewrite app_nil_r.
  - destruct (nth_error (balls this) j) as [ball |] eqn:Hj.
    + destruct (pending_succ j ball Hj) as [_ [[_ [c Hc]] | [_ Hc]]];
        rewrite Hc, IH.
      * exists (suffix ++ [c]). now rewrite app_assoc.
      * now exists suffix.
    + apply nth_error_None in Hj.
      rewrite (pending_beyond (S j)), <- (pending_beyond j) by lia.
      now exists suffix.
Qed.

(** The child a splitting ball pushes stays where it was pushed. *)
Lemma pending_child (i : nat) (child : Ball) :
  pending (S i) = pending i ++ [child] ->
  nth_error (pending (length (balls this))) (length (pending i)) = Some child.
Proof.
  intros H.
  destruct (Nat.le_gt_cases (S i) (length (balls this))) as [Hle | Hgt].
  - destruct (pending_prefix (S i) (length (balls this)) Hle) as [suffix ->].
    rewrite H, <- app_assoc. simpl.
    now rewrite nth_error_app2, Nat.sub_diag by lia.
  - rewrite (pending_beyond (S i)), (pending_beyond i) in H by lia.
    apply (f_equal (@length Ball)) in H. rewrite length_app in H.
    simpl in H. lia.
Qed.

(** Every pending child was pushed by a ball that split. *)
Lemma pending_origin (j m : nat) :
  (m < length (pending j))%nat ->
  exists i, (i < j)%nat /\ (i < length (balls this))%nat
            /\ splits_at this random k i = true
            /\ length (pending i) = m.
Proof.
  induction j as [| j IH]; intros Hm.
  - unfold pending in Hm. destruct (balls this); simpl in Hm; lia.
  - destruct (nth_error (balls this) j) as [ball |] eqn:Hj.
    + assert (Hlt : (j < length (balls this))%nat)
        by (apply nth_error_Some; congruence).
      destruct (pending_succ j ball Hj) as [_ [[Hs [c Hc]] | [_ Hc]]].
      * rewrite Hc, length_app in Hm. simpl in Hm.
        destruct (Nat.eq_dec m (length (pending j))) as [-> | Hne].
        -- exists j. auto.
        -- destruct IH as (i & ? & ? & ? & ?); [lia |].
           exists i. auto.
      * rewrite Hc in Hm. destruct (IH Hm) as (i & ? & ? & ? & ?).
        exists i. auto.
    + apply nth_error_None in Hj.
      rewrite (pending_beyond (S j)), <- (pending_beyond j) in Hm by lia.
      destruct (IH Hm) as (i & ? & ? & ? & ?). exists i. auto.
Qed.

End Children.

(** X21.  JSBackend.update and its children: with n the count when update()
    starts,
    - the balls at indices below n after the call are the balls that
      were there, each visited once by the loop body;
    - a ball that splits has its child at index [child_slot], which is
      at least n, and the ball found there after the call is the child
      exactly as the loop body pushed it: the loop never visits it;
    - two balls that split have different slots;
    - every index from n on holds the child of some ball that split. *)
Theorem children_appended_unvisited {N : Number}
    (this : JSBackend) (random : Random) (k : nat) :
  let n := length (balls this) in
  let this1 := fst (update this random k) in
  (forall i ball,
      nth_error (balls this) i = Some ball ->
      exists result,
        visit this random k i = Some result
        /\ nth_error (balls this1) i = Some (fst (fst result)))
  /\ (forall i,
        splits_at this random k i = true ->
        exists ball result child,
          nth_error (balls this) i = Some ball
          /\ visit this random k i = Some result
          /\ snd (fst result)
             = fst (loop_state this random (balls this) [] k i) ++ [child]
          /\ (n <= child_slot this random k i)%nat
          /\ nth_error (balls this1) (child_slot this random k i)
             = Some child)
  /\ (forall i j,
        (i < j)%nat ->
        splits_at this random k i = true ->
        splits_at this random k j = true ->
        (child_slot this random k i < child_slot this random k j)%nat)
  /\ (forall s,
        (n <= s < length (balls this1))%nat ->
        exists i, (i < n)%nat /\ splits_at this random k i = true
                  /\ child_slot this random k i = s).
Proof.
  intros n this1. repeat split.
  - intros i ball Hi. unfold visit. rewrite Hi.
    destruct (loop_state this random (balls this) [] k i) as [nb kk] eqn:E.
    eexists. split; [reflexivity |].
    unfold this1. rewrite (update_nth random this k i ball Hi), E.
    reflexivity.
  - intros i Hs.
    destruct (nth_error (balls this) i) as [ball |] eqn:Hi;
      [| unfold splits_at in Hs; rewrite Hi in Hs; discriminate Hs].
    destruct (pending_succ this random k i ball Hi) as [Hp [[_ [c Hc]] | [C _]]];
      [| congruence].
    exists ball, (loop_body this
                    (fst (loop_state this random (balls this) [] k i)) random
                    (snd (loop_state this random (balls this) [] k i)) ball), c.
    split; [reflexivity |]. split.
    { unfold visit. rewrite Hi.
      now destruct (loop_state this random (balls this) [] k i). }
    split; [now rewrite <- Hp |].
    split; [unfold child_slot, n; lia |].
    unfold this1, child_slot. rewrite update_balls, nth_error_app2;
      rewrite update_loop_length; [| lia].
    replace (length (balls this)
             + length (fst (loop_state this random (balls this) [] k i))
             - length (balls this))%nat
      with (length (fst (loop_state this random (balls this) [] k i))) by lia.
    now apply (pending_child this random k i c).
  - intros i j Hij Hi Hj. unfold child_slot.
    destruct (nth_error (balls this) i) as [ball |] eqn:Ei;
      [| unfold splits_at in Hi; rewrite Ei in Hi; discriminate Hi].
    destruct (pending_succ this random k i ball Ei) as [_ [[_ [c Hc]] | [C _]]];
      [| congruence].
    destruct (pending_prefix this random k (S i) j Hij) as [suffix Hsuf].
    rewrite Hsuf, Hc, !length_app. simpl. lia.
  - intros s [Hs1 Hs2]. unfold this1 in Hs2. unfold n in *.
    fold (getBallCount (fst (update this random k))) in Hs2.
    rewrite update_count in Hs2.
    destruct (pending_origin this random k (length (balls this))
                (s - length (balls this)))
      as (i & _ & Hi & Hsp & Hl); [lia |].
    exists i. repeat split; [exact Hi | exact Hsp |].
    unfold child_slot. lia.
Qed.

(** ** The arena test *)




(** ** Construction (C8) *)

(** C8, as the code has it: neither constructor validates anything.
    Whatever the canvas, the cap and the split ratio, construction
    returns normally with the arguments stored as given; JSBackend seeds
    one ball at the centre of the canvas with velocity (8, -6), radius 60,
    color 0xFF4444 and no grace flag, WebGPUBackend sets its cached count
    to 1.  The initial radius and velocity are constants of the code. *)
Theorem constructor_accepts_everything {N : Number}
    (c : Canvas) (cap : Z) (ratio : num) :
  (exists this,
      constructor c cap ratio = Normal this
      /\ canvas this = c
      /\ maxBalls this = cap
      /\ splitRatio this = ratio
      /\ balls this
         = [ mkBall (width c / lit 2)%num (height c / lit 2)%num
               (lit 8.0) (lit (-6.0)) (lit 60.0) 0xFF4444 false ]
      /\ getBallCount this = 1%nat)
  /\ (exists gpu,
        WebGPUBackend_constructor c cap ratio = Normal gpu
        /\ gpu_canvas gpu = c
        /\ gpu_maxBalls gpu = cap
        /\ gpu_splitRatio gpu = ratio
        /\ ballCount gpu = 1%Z).
Proof.
  split; eexists; (split; [reflexivity |]); simpl; auto.
Qed.

(** C8 as stated fails: with a cap of 0 and a split ratio of 2, which is
    not strictly between 0 and 1, both constructors return normally. *)
Lemma constructor_accepts_cap_0_ratio_2 :
  let canvas := @mkCanvas binary64 (lit 800) (lit 600) in
  (0 < 1)%Z
  /\ (@lit binary64 2 <? lit 1)%num = false
  /\ (exists this, constructor canvas 0 (lit 2) = Normal this)
  /\ (forall message, constructor canvas 0 (lit 2) <> Throw message)
  /\ (exists gpu, WebGPUBackend_constructor canvas 0 (lit 2) = Normal gpu)
  /\ (forall message,
         WebGPUBackend_constructor canvas 0 (lit 2) <> Throw message).
Proof.
  cbv zeta. split; [lia |]. split; [vm_compute; reflexivity |].
  split; [eexists; reflexivity |]. split; [discriminate |].
  split; [eexists; reflexivity | discriminate].
Qed.

(** ** Rendering (C9) *)

Section Rendering.

Context {N : Number}.

Lemma Map_has_In (m : ColorMap) (key : Z) :
  Map_has m key = true <-> In key (map fst m).
Proof.
  induction m as [| [key' value'] m IH]; simpl.
  - split; [discriminate | contradiction].
  - rewrite orb_true_iff, Z.eqb_eq, IH. intuition congruence.
Qed.

Lemma Map_set_absent (m : ColorMap) (key : Z) (value : list Ball) :
  Map_has m key = false -> Map_set m key value = m ++ [(key, value)].
Proof.
  induction m as [| [key' value'] m IH]; simpl; intros H.
  - reflexivity.
  - apply orb_false_elim in H. destruct H as [H1 H2].
    rewrite H1, (IH H2). reflexivity.
Qed.

Lemma Map_get_push_last (m : ColorMap) (key : Z) (value : list Ball)
    (ball : Ball) :
  Map_has m key = false ->
  Map_get_push (m ++ [(key, value)]) key ball = m ++ [(key, value ++ [ball])].
Proof.
  induction m as [| [key' value'] m IH]; simpl; intros H.
  - now rewrite Z.eqb_refl.
  - apply orb_false_elim in H. destruct H as [H1 H2].
    rewrite H1, (IH H2). reflexivity.
Qed.

(** The first ball of a color opens a group at the end of the map. *)
Lemma group_step_new (m : ColorMap) (ball : Ball) :
  Map_has m (color ball) = false ->
  group_step m ball = m ++ [(color ball, [ball])].
Proof.
  intros H. unfold group_step. rewrite H. simpl.
  rewrite (Map_set_absent m _ [] H).
  now rewrite (Map_get_push_last m _ [] ball H).
Qed.

(** A ball of a color already seen joins its group, and nothing else
    changes. *)
Lemma Map_get_push_present (m : ColorMap) (ball : Ball) :
  Map_has m (color ball) = true ->
  well_grouped m ->
  map fst (Map_get_push m (color ball) ball) = map fst m
  /\ well_grouped (Map_get_push m (color ball) ball)
  /\ Permutation (concat (map snd (Map_get_push m (color ball) ball)))
                 (ball :: concat (map snd m)).
Proof.
  induction m as [| [key' value'] m IH]; simpl; intros H W.
  - discriminate H.
  - inversion W as [| ? ? [W1 W2] W']; subst. simpl in W1, W2.
    destruct (color ball =? key')%Z eqn:Ek.
    + apply Z.eqb_eq in Ek. simpl. split; [reflexivity |]. split.
      * constructor; [| exact W']. simpl. split.
        -- intros C. now apply app_eq_nil in C as [_ C].
        -- apply Forall_app. split; [exact W2 |]. now repeat constructor.
      * change (ball :: value' ++ concat (map snd m))
          with ((ball :: value') ++ concat (map snd m)).
        apply Permutation_app_tail, Permutation_sym, Permutation_cons_append.
    + simpl in H. destruct (IH H W') as (I1 & I2 & I3).
      simpl. split; [now rewrite I1 |]. split.
      * constructor; [| exact I2]. simpl. auto.
      * rewrite I3. apply Permutation_sym, Permutation_middle.
Qed.

Lemma group_step_spec (m : ColorMap) (ball : Ball) :
  NoDup (map fst m) -> well_grouped m ->
  NoDup (map fst (group_step m ball))
  /\ well_grouped (group_step m ball)
  /\ Permutation (concat (map snd (group_step m ball)))
                 (concat (map snd m) ++ [ball]).
Proof.
  intros ND W. destruct (Map_has m (color ball)) eqn:H.
  - unfold group_step. rewrite H. simpl.
    destruct (Map_get_push_present m ball H W) as (I1 & I2 & I3).
    split; [now rewrite I1 |]. split; [exact I2 |].
    rewrite I3. apply Permutation_cons_append.
  - rewrite (group_step_new m ball H).
    rewrite !map_app, concat_app. simpl.
    split; [| split].
    + apply NoDup_app; [exact ND | repeat constructor; intros [] |].
      intros key Hin [<- | []].
      apply Map_has_In in Hin. congruence.
    + apply Forall_app. split; [exact W |].
      repeat constructor. discriminate.
    + reflexivity.
Qed.

(** The color groups partition the balls: one group per distinct color,
    none empty, every ball under its own color and in exactly one
    group. *)
Lemma group_by_color_partition (balls : list Ball) :
  NoDup (map fst (group_by_color balls))
  /\ well_grouped (group_by_color balls)
  /\ Permutation (concat (map snd (group_by_color balls))) balls.
Proof.
  unfold group_by_color.
  assert (G : forall m done,
             NoDup (map fst m) -> well_grouped m ->
             Permutation (concat (map snd m)) done ->
             NoDup (map fst (fold_left group_step balls m))
             /\ well_grouped (fold_left group_step balls m)
             /\ Permutation (concat (map snd (fold_left group_step balls m)))
                            (done ++ balls)).
  { induction balls as [| b balls IH]; intros m done ND W P; simpl.
    - rewrite app_nil_r. auto.
    - destruct (group_step_spec m b ND W) as (S1 & S2 & S3).
      destruct (IH (group_step m b) (done ++ [b]) S1 S2) as (I1 & I2 & I3).
      + rewrite S3. now apply Permutation_app_tail.
      + rewrite <- app_assoc in I3. auto. }
  apply (G [] []); simpl; constructor.
Qed.

End Rendering.

(** ** The shader's random() and spawn *)


Section ShaderSplit.

Context {N : Number}.


End ShaderSplit.

(** ** The shader visits new balls (C6 and C3 on the GPU path) *)

(** C6 on the GPU path.  Every invocation reads the counter for itself
    (line 35), so an invocation that runs after a split sees the raised
    count and works on the new ball.  On an 800 x 600 canvas with cap 10
    and split ratio 0.8, with the invocations run in index order: the
    41st dispatch starts with one ball; invocation 0 splits it and writes
    the new ball, with the grace flag, at index 1; invocation 1 of the
    same dispatch then finds 1 < 2, moves that ball by its velocity and
    clears its flag. *)
Theorem shader_visits_child_in_same_dispatch :
  let config := @Shader.mkConfig binary32 (lit 800) (lit 600) 10 (lit 0.8) in
  let before := Shader.frames config 1 40 (Shader.initial (lit 800) (lit 600)) in
  let after0 := Shader.main config 0 before in
  let after1 := Shader.main config 1 after0 in
  let after := Shader.run config (Shader.in_order 1) before in
  Shader.ball_count before = 1%Z
  /\ Shader.ball_count after0 = 2%Z
  /\ Shader.just_split (Shader.balls after0 0) = 1%Z
  /\ Shader.just_split (Shader.balls after0 1) = 1%Z
  /\ Shader.pos_x (Shader.balls after0 1) = Shader.pos_x (Shader.balls after0 0)
  /\ Shader.pos_y (Shader.balls after0 1) = Shader.pos_y (Shader.balls after0 0)
  /\ Shader.just_split (Shader.balls after1 1) = 0%Z
  /\ Shader.pos_x (Shader.balls after1 1)
     = (Shader.pos_x (Shader.balls after0 1)
        + Shader.vel_x (Shader.balls after0 1))%num
  /\ Shader.pos_y (Shader.balls after1 1)
     = (Shader.pos_y (Shader.balls after0 1)
        + Shader.vel_y (Shader.balls after0 1))%num
  /\ Shader.ball_count after = 2%Z
  /\ Shader.pos_x (Shader.balls after 1) = Shader.pos_x (Shader.balls after1 1)
  /\ Shader.pos_y (Shader.balls after 1) = Shader.pos_y (Shader.balls after1 1)
  /\ Shader.just_split (Shader.balls after 1) = 0%Z.
Proof.
  cbv zeta. repeat apply conj; vm_compute; reflexivity.
Qed.

(** C3 on the GPU path, from the same defect.  On a 1024 x 768 canvas
    with cap 100 and split ratio 0.8, with the invocations run in index
    order from the initial buffers: dispatch 294 starts with 43 balls and
    creates the balls 43 and 44; ball 43 is visited in that same dispatch
    and leaves it without the grace flag; in dispatch 295, invocation 43
    hits a wall and splits, one tick after ball 43 was created, writing
    its own new ball at index 46. *)
Theorem shader_child_splits_next_dispatch :
  let config := @Shader.mkConfig binary32 (lit 1024) (lit 768) 100 (lit 0.8) in
  let start := Shader.initial (lit 1024) (lit 768) in
  let s293 := Shader.frames config 1 293 start in
  let s294 := Shader.frames config 1 294 start in
  let before43 :=
    Shader.run config (map Z.of_nat (seq 0 43)) s294 in
  let after43 := Shader.main config 43 before43 in
  Shader.ball_count s293 = 43%Z
  /\ Shader.ball_count s294 = 45%Z
  /\ Shader.just_split (Shader.balls s294 43) = 0%Z
  /\ Shader.ball_count before43 = 46%Z
  /\ (snd (Shader.bounce_x config (Shader.balls before43 43))
      || snd (Shader.bounce_y config (Shader.balls before43 43))) = true
  /\ Shader.ball_count after43 = 47%Z
  /\ Shader.just_split (Shader.balls after43 43) = 1%Z
  /\ Shader.radius (Shader.balls after43 43)
     = (Shader.radius (Shader.balls s294 43) * lit 0.8)%num
  /\ Shader.just_split (Shader.balls after43 46) = 1%Z
  /\ Shader.pos_x (Shader.balls after43 46)
     = Shader.pos_x (Shader.balls after43 43).
Proof.
  cbv zeta. repeat apply conj; vm_compute; reflexivity.
Qed.

(** ** Scenario A (C7) *)

Section Seed.

Context {N : Number}.
Variable random : Random.

(** The ball the loop body leaves, and whether it splits, depend on the
    backend only through the canvas, the split ratio and whether there is
    room under the cap; they do not depend on Math.random(). *)
Lemma visited_congr (this this' : JSBackend) (newBalls newBalls' : list Ball)
    (random' : Random) (k k' : nat) (ball : Ball) :
  canvas this = canvas this' ->
  splitRatio this = splitRatio this' ->
  (Z.of_nat (length (balls this) + length newBalls) <? maxBalls this)%Z
  = (Z.of_nat (length (balls this') + length newBalls') <? maxBalls this')%Z ->
  splits this newBalls ball = splits this' newBalls' ball
  /\ fst (fst (loop_body this newBalls random k ball))
     = fst (fst (loop_body this' newBalls' random' k' ball)).
Proof.
  intros Hc Hs Hroom.
  assert (HX : bounceX this ball = bounceX this' ball)
    by (unfold bounceX; now rewrite Hc).
  assert (HY : bounceY this ball = bounceY this' ball)
    by (unfold bounceY; now rewrite Hc).
  assert (Hsp : splits this newBalls ball = splits this' newBalls' ball)
    by (unfold splits, hitX, hitY; now rewrite HX, HY, Hs, Hroom).
  split; [exact Hsp |].
  assert (Hb : bounced this ball = bounced this' ball)
    by (unfold bounced; now rewrite HX, HY).
  destruct (splits this newBalls ball) eqn:E; symmetry in Hsp.
  - rewrite (loop_body_split this random newBalls k ball E).
    rewrite (loop_body_split this' random' newBalls' k' ball Hsp).
    cbn [fst snd]. now rewrite Hb, Hs.
  - destruct (loop_body_keep this random newBalls k ball E)
      as (r1 & -> & [[-> C1] | [-> C1]]);
      destruct (loop_body_keep this' random' newBalls' k' ball Hsp)
        as (r2 & -> & [[-> C2] | [-> C2]]);
      cbn [fst snd]; rewrite ?Hb; try reflexivity;
      unfold hitX, hitY in C1, C2; rewrite HX, HY in C1; congruence.
Qed.

(** The count grows only in a tick in which some ball hits a wall. *)
Lemma growth_needs_hit (this : JSBackend) (k : nat) :
  (getBallCount this < getBallCount (fst (update this random k)))%nat ->
  exists ball, In ball (balls this)
               /\ (hitX this ball || hitY this ball) = true.
Proof.
  rewrite update_count. unfold getBallCount. intros H.
  destruct (pending_origin this random k (length (balls this)) 0)
    as (i & _ & Hi & Hs & _); [lia |].
  destruct (nth_error (balls this) i) as [ball |] eqn:Ei;
    [| apply nth_error_None in Ei; lia].
  exists ball. split; [eapply nth_error_In; eassumption |].
  rewrite (splits_at_spec random this k i ball Ei) in Hs.
  unfold splits in Hs. apply andb_prop in Hs. destruct Hs as [Hs _].
  apply andb_prop in Hs. destruct Hs as [Hs _].
  apply andb_prop in Hs. now destruct Hs as [Hs _].
Qed.

(** At the cap no ball splits: a ball that hits a wall without the grace
    flag has its radius clamped by Math.max, and nothing is pushed. *)
Lemma saturated_no_split (this : JSBackend) (k i : nat) (ball : Ball) :
  (maxBalls this <= Z.of_nat (getBallCount this))%Z ->
  nth_error (balls this) i = Some ball ->
  splits_at this random k i = false
  /\ exists ball',
       nth_error (balls (fst (update this random k))) i = Some ball'
       /\ radius ball'
          = (if (hitX this ball || hitY this ball) && negb (justSplit ball)
             then nmax (radius ball) (lit 1.0)
             else radius ball).
Proof.
  intros Hcap Hi.
  rewrite (splits_at_spec random this k i ball Hi).
  set (nb := fst (loop_state this random (balls this) [] k i)).
  assert (E : splits this nb ball = false).
  { unfold splits. replace (_ <? _)%Z with false; [apply andb_false_r |].
    symmetry. apply Z.ltb_ge. unfold getBallCount in Hcap. lia. }
  split; [exact E |].
  eexists. split; [apply (update_nth random this k i ball Hi) |].
  fold nb.
  destruct (loop_body_keep this random nb
              (snd (loop_state this random (balls this) [] k i)) ball E)
    as (r' & -> & [[-> C] | [-> C]]); cbn [fst snd radius]; now rewrite C.
Qed.

Lemma seed_path_succ (this : JSBackend) (ball : Ball) (n : nat) :
  seed_path this ball (S n) = seed_step this (seed_path this ball n).
Proof.
  unfold seed_path. simpl. now destruct (seed_run this ball n).
Qed.

Lemma seed_split_count_succ (this : JSBackend) (ball : Ball) (n : nat) :
  seed_split_count this ball (S n)
  = (seed_split_count this ball n
     + (if seed_splits this (seed_path this ball n) then 1 else 0))%nat.
Proof.
  unfold seed_split_count, seed_path. simpl.
  now destruct (seed_run this ball n).
Qed.

(** While there is room under the cap, the first ball follows
    [seed_path], whatever the other balls and Math.random() do, and each
    of its splits raises the count. *)
Lemma seed_follows_path (this0 : JSBackend) (ball0 : Ball) (k0 t : nat) :
  balls this0 = [ball0] ->
  (1 < maxBalls this0)%Z ->
  let this := fst (ticks t this0 random k0) in
  (maxBalls this0 <= Z.of_nat (getBallCount this))%Z
  \/ (nth_error (balls this) 0 = Some (seed_path this0 ball0 t)
      /\ (1 + seed_split_count this0 ball0 t <= getBallCount this)%nat).
Proof.
  intros Hb Hcap. induction t as [| t IH].
  - right. unfold seed_path, seed_split_count, getBallCount. simpl.
    rewrite Hb. simpl. split; [reflexivity | lia].
  - rewrite ticks_succ. cbv zeta in IH.
    destruct (ticks_config random t this0 k0) as (Hc & Hm & Hs).
    set (this := fst (ticks t this0 random k0)) in *.
    set (k := snd (ticks t this0 random k0)).
    destruct (update_count_bounds random this k) as [Hmono _].
    destruct IH as [IH | [IH1 IH2]]; [left; lia |].
    destruct (Z_le_gt_dec (maxBalls this0) (Z.of_nat (getBallCount this)))
      as [Hfull | Hroom]; [left; lia |].
    right.
    set (ball := seed_path this0 ball0 t) in *.
    assert (Hroom1 : (Z.of_nat (length (balls this) + length (@nil Ball))
                      <? maxBalls this)%Z = true).
    { apply Z.ltb_lt. unfold getBallCount in Hroom. simpl. lia. }
    assert (Hroom2 : (Z.of_nat (length (balls (alone this0 ball))
                                + length (@nil Ball))
                      <? maxBalls (alone this0 ball))%Z = true).
    { apply Z.ltb_lt. simpl. lia. }
    destruct (visited_congr this (alone this0 ball) [] [] (fun _ => lit 0)
                k 0 ball Hc Hs (eq_trans Hroom1 (eq_sym Hroom2)))
      as [Hsp Hv].
    rewrite seed_path_succ, seed_split_count_succ. fold ball.
    split.
    + rewrite (update_nth random this k 0 ball IH1).
      destruct (balls this); [discriminate IH1 |]. simpl. f_equal.
      exact Hv.
    + rewrite update_count. unfold seed_splits. rewrite <- Hsp.
      destruct (splits this [] ball) eqn:E.
      * destruct (pending_succ this random k 0 ball IH1)
          as [_ [[_ [c Hc1]] | [C _]]].
        -- destruct (pending_prefix this random k 1 (length (balls this)))
             as [suffix Hsuf].
           { destruct (balls this); [discriminate IH1 | simpl; lia]. }
           rewrite Hsuf, Hc1, !length_app. simpl.
           unfold getBallCount in IH2. lia.
        -- rewrite (splits_at_spec random this k 0 ball IH1) in C.
           destruct (balls this); [discriminate IH1 |]. simpl in C.
           congruence.
      * unfold getBallCount in IH2. lia.
Qed.

End Seed.

Lemma ticks_count_mono {N : Number} (random : Random) (this : JSBackend)
    (k t1 t2 : nat) :
  (t1 <= t2)%nat ->
  (getBallCount (fst (ticks t1 this random k))
   <= getBallCount (fst (ticks t2 this random k)))%nat.
Proof.
  induction 1 as [| t2 Hle IH]; [lia |].
  rewrite ticks_succ.
  pose proof (proj1 (update_count_bounds random
                       (fst (ticks t2 this random k))
                       (snd (ticks t2 this random k)))). lia.
Qed.

(** C7, on the doubles of the source and for every sequence of values of
    Math.random(): in an 800 x 600 arena with cap 10 and split ratio 0.8,
    the seeded ball (centre, radius 60, velocity (8, -6)) hits no wall in
    the first 40 ticks and the count stays 1; on tick 41 it hits the top
    wall and there are two balls, both of radius 48.0; the count never
    decreases, rises only in a tick in which some ball hits a wall, and
    is 10 from tick 405 on at the latest; once it is 10, no ball splits
    any more, and a ball that hits a wall without the grace flag only has
    its radius clamped by Math.max(radius, 1.0). *)
Theorem scenario_A (random : @Random binary64) :
  let canvas := @mkCanvas binary64 (lit 800) (lit 600) in
  let seed := mkBall (lit 800 / lit 2)%num (lit 600 / lit 2)%num
                (lit 8.0) (lit (-6.0)) (lit 60.0) 0xFF4444 false in
  let this0 := mkJSBackend canvas 10 (lit 0.8) [seed] in
  let after t := fst (ticks t this0 random 0%nat) in
  let drawn t := snd (ticks t this0 random 0%nat) in
  constructor canvas 10 (lit 0.8) = Normal this0
  /\ (forall t, (t < 40)%nat ->
        getBallCount (after t) = 1%nat
        /\ forall ball, In ball (balls (after t)) ->
             hitX (after t) ball || hitY (after t) ball = false)
  /\ getBallCount (after 40%nat) = 1%nat
  /\ map (hitY (after 40%nat)) (balls (after 40%nat)) = [true]
  /\ map radius (balls (after 41%nat)) = [lit 48.0; lit 48.0]
  /\ (forall t,
        (getBallCount (after t) <= getBallCount (after (S t)) <= 10)%nat)
  /\ (forall t,
        (getBallCount (after t) < getBallCount (after (S t)))%nat ->
        exists ball, In ball (balls (after t))
                     /\ hitX (after t) ball || hitY (after t) ball = true)
  /\ (forall t, (405 <= t)%nat -> getBallCount (after t) = 10%nat)
  /\ (forall t i ball,
        getBallCount (after t) = 10%nat ->
        nth_error (balls (after t)) i = Some ball ->
        splits_at (after t) random (drawn t) i = false
        /\ getBallCount (after (S t)) = 10%nat
        /\ exists ball',
             nth_error (balls (after (S t))) i = Some ball'
             /\ radius ball'
                = (if (hitX (after t) ball || hitY (after t) ball)
                      && negb (justSplit ball)
                   then nmax (radius ball) (lit 1.0)
                   else radius ball)).
Proof.
  intros canvas seed this0 after drawn.
  assert (Hcap : forall t, (getBallCount (after t) <= 10)%nat).
  { intros t.
    pose proof (ticks_count_capped random t this0 0%nat) as H.
    simpl in H. unfold after. lia. }
  assert (Hmax : forall t, maxBalls (after t) = 10%Z).
  { intros t. apply (ticks_config random t this0 0%nat). }
  split; [reflexivity |].
  split.
  { assert (Q : forallb
                  (fun t =>
                     (getBallCount (after t) =? 1)%nat
                     && forallb (fun ball =>
                                   negb (hitX (after t) ball
                                         || hitY (after t) ball))
                                (balls (after t)))
                  (seq 0%nat 40%nat) = true)
      by (vm_compute; reflexivity).
    intros t Ht. rewrite forallb_forall in Q.
    specialize (Q t). rewrite in_seq in Q.
    destruct (andb_prop _ _ (Q ltac:(lia))) as [Q1 Q2].
    apply Nat.eqb_eq in Q1. split; [exact Q1 |].
    intros ball Hin. rewrite forallb_forall in Q2.
    apply negb_true_iff. now apply Q2. }
  split; [vm_compute; reflexivity |].
  split; [vm_compute; reflexivity |].
  split; [vm_compute; reflexivity |].
  split.
  { intros t. split; [| apply Hcap].
    unfold after. rewrite ticks_succ. apply update_count_bounds. }
  split.
  { intros t. unfold after. rewrite ticks_succ. apply growth_needs_hit. }
  assert (H405 : forall t, (405 <= t)%nat -> getBallCount (after t) = 10%nat).
  { intros t Ht.
    assert (H : (10 <= getBallCount (after 405%nat))%nat).
    { assert (C : seed_split_count this0 seed 405%nat = 9%nat)
        by (vm_compute; reflexivity).
      destruct (seed_follows_path random this0 seed 0%nat 405%nat eq_refl)
        as [H | [_ H]]; [reflexivity | |].
      - change (maxBalls this0) with 10%Z in H.
        fold (after 405%nat) in H. lia.
      - rewrite C in H. exact H. }
    pose proof (ticks_count_mono random this0 0%nat 405%nat t Ht) as Hm.
    fold (after 405%nat) (after t) in Hm. specialize (Hcap t). lia. }
  split; [exact H405 |].
  intros t i ball Hfull Hi.
  destruct (saturated_no_split random (after t) (drawn t) i ball) as [S1 S2].
  { rewrite Hmax, Hfull. reflexivity. }
  { exact Hi. }
  split; [exact S1 |].
  assert (Hnext : after (S t) = fst (update (after t) random (drawn t)))
    by (unfold after, drawn; now rewrite ticks_succ).
  rewrite Hnext. split; [| exact S2].
  pose proof (proj1 (update_count_bounds random (after t) (drawn t))) as Hm.
  specialize (Hcap (S t)). rewrite Hnext in Hcap. lia.
Qed.

(** * Further properties of the code *)

(** ** More laws of the instances *)

Lemma IEEE_AbsLaw (prec emax : Z) : AbsLaw (IEEE.number prec emax).
Proof.
  constructor; simpl; intros [s | s | | s m e]; reflexivity.
Qed.

#[export] Instance binary64_AbsLaw : AbsLaw binary64 := IEEE_AbsLaw 53 1024.

Lemma SFcompare_antisym (a b : spec_float) (c : comparison) :
  SFcompare a b = Some c -> SFcompare b a = Some (CompOpp c).
Proof.
  destruct a as [sa | sa | | sa ma ea], b as [sb | sb | | sb mb eb];
    simpl; try discriminate;
    try (intros H; injection H as <-; destruct sa; try destruct sb;
         reflexivity).
  intros H. injection H as <-. f_equal.
  pose proof (Pos.compare_cont_antisym ma mb Eq) as P. simpl in P.
  destruct sa, sb; simpl; try reflexivity;
    rewrite (Z.compare_antisym ea eb); destruct (ea ?= eb)%Z; simpl;
    try reflexivity; rewrite P; now rewrite ?CompOpp_involutive.
Qed.

Lemma SFleb_not_ltb (a b : spec_float) :
  SFleb b a = true -> SFltb a b = false.
Proof.
  unfold SFleb, SFltb. destruct (SFcompare b a) as [c |] eqn:E;
    [| discriminate].
  rewrite (SFcompare_antisym b a c E). now destruct c.
Qed.

Lemma IEEE_max_keeps (a b : spec_float) :
  (forall s, b <> S754_zero s) ->
  SFleb b a = true -> IEEE.max a b = a.
Proof.
  intros Hb H. pose proof (SFleb_not_ltb a b H) as L.
  destruct (SFleb_not_nan _ _ H) as [Nb Na].
  unfold IEEE.max.
  destruct a as [sa | sa | | sa ma ea]; try contradiction;
    destruct b as [sb | sb | | sb mb eb]; try contradiction;
    try (now rewrite L); now elim (Hb sb).
Qed.

#[export] Instance binary64_ClampLaw : ClampLaw binary64.
Proof.
  constructor. intros a H. apply IEEE_max_keeps; [| exact H].
  intros s. vm_compute. discriminate.
Qed.
(** ** update(): what a ball keeps, and the random draws *)

Section MoreUpdate.

Context {N : Number}.
Variable random : Random.

Lemma visited_fields (this : JSBackend) (newBalls : list Ball) (k : nat)
    (ball : Ball) :
  let ball' := fst (fst (loop_body this newBalls random k ball)) in
  x ball' = x (bounced this ball) /\ y ball' = y (bounced this ball) /\
  vx ball' = vx (bounced this ball) /\ vy ball' = vy (bounced this ball) /\
  color ball' = color ball.
Proof.
  destruct (splits this newBalls ball) eqn:E.
  - rewrite (loop_body_split this random newBalls k ball E). simpl. tauto.
  - destruct (loop_body_keep this random newBalls k ball E) as (r' & -> & _).
    simpl. tauto.
Qed.

Lemma bounced_speed `{!AbsLaw N} (this : JSBackend) (ball : Ball) :
  nabs (vx (bounced this ball)) = nabs (vx ball) /\
  nabs (vy (bounced this ball)) = nabs (vy ball).
Proof.
  unfold bounced, bounceX, bounceY. cbn [vx vy].
  split.
  - destruct (_ <? _)%num; [| destruct (_ >? _)%num]; cbn [fst snd];
      rewrite ?nabs_nneg, ?nabs_nabs; reflexivity.
  - destruct (_ <? _)%num; [| destruct (_ >? _)%num]; cbn [fst snd];
      rewrite ?nabs_nneg, ?nabs_nabs; reflexivity.
Qed.

(** The loop body draws nothing when it does not split, and three or
    four numbers when it does. *)
Lemma loop_body_draws (this : JSBackend) (newBalls : list Ball) (k : nat)
    (ball : Ball) :
  let r := loop_body this newBalls random k ball in
  (snd (fst r) = newBalls /\ snd r = k) \/
  (length (snd (fst r)) = S (length newBalls) /\
   k + 3 <= snd r <= k + 4)%nat.
Proof.
  destruct (splits this newBalls ball) eqn:E.
  - right. rewrite (loop_body_split this random newBalls k ball E).
    cbn [fst snd]. rewrite length_app. cbn [length]. split; [lia |].
    unfold splits in E. rewrite !andb_true_iff in E.
    destruct E as [[[H _] _] _].
    destruct (hitX this ball), (hitY this ball); try discriminate H; lia.
  - left. destruct (loop_body_keep this random newBalls k ball E)
      as (r' & -> & _). now cbn.
Qed.

Lemma loop_state_draws (this : JSBackend) (rest newBalls : list Ball)
    (k i : nat) :
  let s := loop_state this random rest newBalls k i in
  (length newBalls <= length (fst s) /\
   k + 3 * (length (fst s) - length newBalls) <= snd s /\
   snd s <= k + 4 * (length (fst s) - length newBalls))%nat.
Proof.
  revert newBalls k i.
  induction rest as [| ball rest IH]; intros newBalls k [| i];
    cbn [loop_state fst snd]; try lia.
  pose proof (loop_body_draws this newBalls k ball) as D.
  destruct (loop_body this newBalls random k ball) as [[b' nb'] k'].
  cbn [fst snd] in D. specialize (IH nb' k' i). cbn zeta in IH.
  destruct D as [[-> ->] | [L D]]; [exact IH | lia].
Qed.

Lemma update_draws_state (this : JSBackend) (k : nat) :
  snd (update this random k) =
  snd (loop_state this random (balls this) [] k (length (balls this))).
Proof.
  unfold update.
  pose proof (update_loop_final this random (balls this) [] k) as F.
  destruct (update_loop this random (balls this) [] k) as [[v nb] k'].
  now rewrite F.
Qed.

(** Nothing splits: the loop leaves the pending list and the draw counter
    alone. *)
Lemma update_loop_quiet (this : JSBackend) (rest newBalls : list Ball)
    (k : nat) :
  (forall ball, In ball rest -> splits this newBalls ball = false) ->
  update_loop this random rest newBalls k =
  (map (fun ball => fst (fst (loop_body this newBalls random k ball))) rest,
   newBalls, k).
Proof.
  induction rest as [| ball rest IH]; intros Q; [reflexivity |].
  cbn [update_loop map].
  destruct (loop_body_keep this random newBalls k ball
              (Q ball (or_introl eq_refl))) as (r' & E & _).
  rewrite E. cbn [fst snd]. rewrite IH; [reflexivity |].
  intros b Hb. apply Q. now right.
Qed.

Lemma update_quiet (this : JSBackend) (k : nat) :
  (forall ball, In ball (balls this) -> splits this [] ball = false) ->
  update this random k =
  (mkJSBackend (canvas this) (maxBalls this) (splitRatio this)
     (map (fun ball => fst (fst (loop_body this [] random k ball)))
        (balls this)), k).
Proof.
  intros Q. unfold update. rewrite (update_loop_quiet this _ [] k Q).
  now rewrite app_nil_r.
Qed.

Lemma saturated_quiet (this : JSBackend) (ball : Ball) :
  (maxBalls this <= Z.of_nat (getBallCount this))%Z ->
  splits this [] ball = false.
Proof.
  intros H. unfold splits. unfold getBallCount in H.
  replace (Z.of_nat (length (balls this) + length (@nil Ball))
             <? maxBalls this)%Z with false.
  - now rewrite andb_false_r.
  - symmetry. apply Z.ltb_ge. cbn [length]. lia.
Qed.

End MoreUpdate.

(** X1.  A ball is never removed and never moved to another index, and
    it keeps its colour and the magnitude of both velocity components
    through any number of calls of update(): reflection only changes the
    sign of a component, and a split changes the parent's radius and
    flag only. *)
Theorem ball_keeps_index_color_speed {N : Number} `{!AbsLaw N}
    (random : Random) (this : JSBackend) (k n i : nat) (ball : Ball) :
  nth_error (balls this) i = Some ball ->
  exists ball',
    nth_error (balls (fst (ticks n this random k))) i = Some ball' /\
    color ball' = color ball /\
    nabs (vx ball') = nabs (vx ball) /\
    nabs (vy ball') = nabs (vy ball).
Proof.
  intros H. induction n as [| n IH].
  - exists ball. cbn. auto.
  - destruct IH as (b & Hb & C & VX & VY).
    rewrite ticks_succ.
    eexists. split; [apply (update_nth random _ _ i b Hb) |].
    match goal with
    | |- context [loop_body ?t ?nb random ?k0 b] =>
        destruct (visited_fields random t nb k0 b)
          as (_ & _ & EX & EY & EC);
        destruct (bounced_speed t b) as [BX BY]
    end.
    rewrite EC, EX, EY, BX, BY. auto.
Qed.

Lemma ball_keeps_index_color_speed_witness :
  exists ball',
    nth_error (balls (fst (ticks 50 (started 10 0.8) halves 0))) 0
      = Some ball' /\
    color ball' = 0xFF4444%Z /\
    nabs (vx ball') = nabs (@lit binary64 8.0) /\
    nabs (vy ball') = nabs (@lit binary64 (-6.0)).
Proof.
  exact (ball_keeps_index_color_speed halves (started 10 0.8) 0 50 0 _
           eq_refl).
Defined.

(** X2.  One call of update() draws three or four random numbers for each
    ball it creates and none otherwise: with [born] new balls, between
    [3 * born] and [4 * born] draws. *)
Theorem update_random_draws {N : Number} (random : Random)
    (this : JSBackend) (k : nat) :
  let born :=
    (getBallCount (fst (update this random k)) - getBallCount this)%nat in
  (k + 3 * born <= snd (update this random k) <= k + 4 * born)%nat.
Proof.
  cbn zeta. rewrite update_count, update_draws_state.
  pose proof (loop_state_draws random this (balls this) [] k
                (length (balls this))) as D.
  cbn zeta in D. cbn [length] in D. unfold getBallCount. lia.
Qed.

(** X3.  Once the count has reached the cap, update() never adds a ball
    again and never calls Math.random() again, whatever the number of
    ticks. *)
Theorem saturated_forever {N : Number} (random : Random)
    (this : JSBackend) (k : nat) :
  (maxBalls this <= Z.of_nat (getBallCount this))%Z ->
  forall n,
    getBallCount (fst (ticks n this random k)) = getBallCount this /\
    snd (ticks n this random k) = k.
Proof.
  intros H n. induction n as [| n [IHc IHk]]; [now cbn |].
  rewrite ticks_succ.
  destruct (ticks_config random n this k) as (_ & M & _).
  set (t := fst (ticks n this random k)) in *.
  rewrite update_quiet.
  - cbn [fst snd]. unfold getBallCount in *. cbn [balls].
    now rewrite length_map.
  - intros b _. apply saturated_quiet. rewrite M, IHc. exact H.
Qed.

Lemma saturated_forever_witness :
  getBallCount (fst (ticks 100 (started 1 0.8) halves 7)) = 1%nat /\
  snd (ticks 100 (started 1 0.8) halves 7) = 7%nat.
Proof.
  apply (saturated_forever halves (started 1 0.8) 7).
  vm_compute. discriminate.
Defined.

(** ** update(): the radius *)

Section MoreRadius.

Context {N : Number}.
Variable random : Random.
Local Open Scope num_scope.

(** A ball whose candidate radius is below 1.0 cannot split. *)
Lemma small_candidate_quiet (this : JSBackend) (newBalls : list Ball)
    (ball : Ball) :
  (radius ball * splitRatio this >=? lit 1.0) = false ->
  splits this newBalls ball = false.
Proof.
  intros H. unfold splits. rewrite H.
  now rewrite andb_false_r.
Qed.

Lemma kept_radius `{!ClampLaw N} (this : JSBackend) (newBalls : list Ball)
    (k : nat) (ball : Ball) :
  splits this newBalls ball = false ->
  (radius ball >=? lit 1.0) = true ->
  radius (fst (fst (loop_body this newBalls random k ball))) = radius ball.
Proof.
  intros S R.
  destruct (loop_body_keep this random newBalls k ball S)
    as (r' & -> & [[-> _] | [-> _]]); cbn [fst radius];
    [reflexivity | now apply nmax_floor].
Qed.

End MoreRadius.

(** X4.  When no ball can pass the radius test (every radius is at least
    1.0 and every candidate radius, radius * splitRatio, is below 1.0),
    update() is pure motion for ever: no ball is added, no radius
    changes and Math.random() is never called. *)
Theorem small_ratio_never_splits {N : Number} `{!ClampLaw N}
    (random : Random) (this : JSBackend) (k : nat) :
  Forall (fun ball =>
            (radius ball >=? lit 1.0)%num = true /\
            (radius ball * splitRatio this >=? lit 1.0)%num = false)
         (balls this) ->
  forall n,
    map radius (balls (fst (ticks n this random k))) = map radius (balls this)
    /\ snd (ticks n this random k) = k.
Proof.
  intros H n. induction n as [| n [IHr IHk]]; [now cbn |].
  rewrite ticks_succ.
  destruct (ticks_config random n this k) as (_ & _ & R).
  set (t := fst (ticks n this random k)) in *.
  assert (Ht : Forall (fun ball =>
                 (radius ball >=? lit 1.0)%num = true /\
                 (radius ball * splitRatio t >=? lit 1.0)%num = false)
               (balls t)).
  { rewrite R.
    apply (Forall_map radius
             (fun r => (r >=? lit 1.0)%num = true /\
                       (r * splitRatio this >=? lit 1.0)%num = false)).
    rewrite IHr. now apply Forall_map. }
  rewrite Forall_forall in Ht.
  rewrite update_quiet.
  - cbn [fst snd balls]. split; [| exact IHk].
    rewrite <- IHr, map_map. apply map_ext_in. intros b Hb.
    destruct (Ht b Hb) as [R1 R2].
    apply (kept_radius random); [now apply small_candidate_quiet | exact R1].
  - intros b Hb. apply small_candidate_quiet. now apply Ht.
Qed.

Lemma small_ratio_never_splits_witness :
  map radius (balls (fst (ticks 100 (started 10 0.01) halves 0)))
    = [@lit binary64 60.0]
  /\ snd (ticks 100 (started 10 0.01) halves 0) = 0%nat.
Proof.
  apply (small_ratio_never_splits halves (started 10 0.01) 0).
  constructor; [| constructor].
  split; vm_compute; reflexivity.
Defined.

(** ** render(): the order of the drawing *)

Section MoreRendering.

Context {N : Number}.

Lemma first_colors_In (c : Z) (colors : list Z) :
  In c (first_colors colors) <-> In c colors.
Proof.
  induction colors as [| a colors IH]; [reflexivity |].
  cbn [first_colors In]. rewrite filter_In, IH, negb_true_iff, Z.eqb_neq.
  destruct (Z.eq_dec a c) as [-> | D]; [tauto |].
  split; [tauto |]. intros [E | I]; [tauto |]. right. split; congruence.
Qed.

Lemma first_colors_NoDup (colors : list Z) : NoDup (first_colors colors).
Proof.
  induction colors as [| a colors IH]; cbn [first_colors]; constructor.
  - rewrite filter_In, negb_true_iff, Z.eqb_neq. tauto.
  - now apply NoDup_filter.
Qed.

Lemma first_colors_snoc (colors : list Z) (c : Z) :
  first_colors (colors ++ [c]) =
  if existsb (Z.eqb c) colors then first_colors colors
  else first_colors colors ++ [c].
Proof.
  induction colors as [| a colors IH]; [reflexivity |].
  cbn [app first_colors existsb]. rewrite IH.
  destruct (Z.eqb_spec c a) as [-> | D]; cbn [orb].
  - destruct (existsb (Z.eqb a) colors); [reflexivity |].
    rewrite filter_app. cbn [filter]. rewrite Z.eqb_refl. cbn [negb].
    now rewrite app_nil_r.
  - destruct (existsb (Z.eqb c) colors); [reflexivity |].
    rewrite filter_app. cbn [filter].
    destruct (Z.eqb_spec c a) as [E | _]; [contradiction | reflexivity].
Qed.

Lemma Map_has_existsb (balls : list Ball) (c : Z) :
  Map_has (groups_of balls) c = existsb (Z.eqb c) (map color balls).
Proof.
  apply eq_true_iff_eq. rewrite Map_has_In, existsb_exists.
  unfold groups_of. rewrite map_map. cbn [fst]. rewrite map_id.
  rewrite first_colors_In. split.
  - intros I. exists c. now rewrite Z.eqb_refl.
  - intros (c' & I & E). apply Z.eqb_eq in E. now subst.
Qed.

Lemma Map_get_push_map (keys : list Z) (balls : list Ball) (ball : Ball) :
  NoDup keys ->
  Map_get_push (map (fun c => (c, of_color c balls)) keys) (color ball) ball =
  map (fun c => (c, of_color c (balls ++ [ball]))) keys.
Proof.
  assert (Other : forall c, c <> color ball ->
            of_color c (balls ++ [ball]) = of_color c balls).
  { intros c D. unfold of_color. rewrite filter_app. cbn [filter].
    destruct (Z.eqb_spec (color ball) c) as [E | _]; [now elim D |].
    apply app_nil_r. }
  induction keys as [| key keys IH]; intros ND; [reflexivity |].
  inversion ND as [| ? ? NI ND']; subst.
  cbn [map Map_get_push].
  destruct (Z.eqb_spec (color ball) key) as [<- | D].
  - f_equal.
    + unfold of_color. rewrite filter_app. cbn [filter].
      now rewrite Z.eqb_refl.
    + apply map_ext_in. intros c I. rewrite Other; [reflexivity |].
      intros ->. contradiction.
  - f_equal; [| now apply IH]. rewrite Other; [reflexivity |]. congruence.
Qed.

Lemma group_step_groups_of (balls : list Ball) (ball : Ball) :
  group_step (groups_of balls) ball = groups_of (balls ++ [ball]).
Proof.
  destruct (Map_has (groups_of balls) (color ball)) eqn:H.
  - unfold group_step. rewrite H. cbn [negb].
    unfold groups_of at 1.
    rewrite Map_get_push_map by apply first_colors_NoDup.
    unfold groups_of. rewrite map_app. cbn [map].
    rewrite first_colors_snoc, <- Map_has_existsb, H. reflexivity.
  - rewrite (group_step_new _ _ H).
    unfold groups_of. rewrite (map_app color). cbn [map].
    rewrite first_colors_snoc, <- Map_has_existsb, H, map_app. cbn [map].
    assert (None : of_color (color ball) balls = []).
    { rewrite Map_has_existsb in H. unfold of_color.
      induction balls as [| b balls IH]; [reflexivity |].
      cbn [map existsb] in H. apply orb_false_iff in H. destruct H as [H1 H2].
      cbn [filter]. rewrite Z.eqb_sym, H1. now apply IH. }
    f_equal.
    + apply map_ext_in. intros c I. f_equal.
      unfold of_color. rewrite filter_app. cbn [filter].
      destruct (Z.eqb_spec (color ball) c) as [E | _];
        [| symmetry; apply app_nil_r].
      exfalso. subst c. rewrite first_colors_In in I.
      rewrite Map_has_existsb in H.
      assert (T : existsb (Z.eqb (color ball)) (map color balls) = true)
        by (apply existsb_exists; exists (color ball);
            split; [exact I | apply Z.eqb_refl]).
      congruence.
    + unfold of_color in *. rewrite filter_app, None. cbn [filter app].
      now rewrite Z.eqb_refl.
Qed.

Lemma fold_group_step (todo done : list Ball) :
  fold_left group_step todo (groups_of done) = groups_of (done ++ todo).
Proof.
  revert done. induction todo as [| ball todo IH]; intros done.
  - now rewrite app_nil_r.
  - cbn [fold_left]. rewrite group_step_groups_of, IH, <- app_assoc.
    reflexivity.
Qed.

End MoreRendering.

(** X6.  The grouping loop of render() builds the color map whose keys
    are the distinct colors in the order of their first appearance in
    the ball array, each with the balls of that color in array order. *)
Theorem group_by_color_order {N : Number} (balls : list Ball) :
  group_by_color balls =
  map (fun c => (c, of_color c balls)) (first_colors (map color balls)).
Proof.
  unfold group_by_color. exact (fold_group_step balls []).
Qed.

(** X7.  The number of canvas calls of render(): above 10000 balls, the
    two clearing calls, one fillStyle assignment for each distinct color
    and one fillRect for each ball, so at most 2 + 2n; otherwise the two
    clearing calls and five calls for each ball. *)
Theorem render_call_count {N : Number} (this : JSBackend) :
  let n := length (balls this) in
  let d := length (first_colors (map color (balls this))) in
  (d <= n)%nat /\
  length (render this) =
  if (10000 <? Z.of_nat n)%Z then (2 + d + n)%nat else (2 + 5 * n)%nat.
Proof.
  cbn zeta. split.
  - rewrite <- (length_map color (balls this)).
    induction (map color (balls this)) as [| c l IH]; [apply le_n |].
    cbn [first_colors length]. apply le_n_S.
    eapply Nat.le_trans; [apply filter_length_le | exact IH].
  - unfold render. rewrite length_app. cbn [clear_canvas length].
    destruct (10000 <? Z.of_nat (length (balls this)))%Z.
    + assert (G : forall m : ColorMap,
                 length (flat_map draw_group m) =
                 (length m + length (concat (map snd m)))%nat).
      { induction m as [| [c g] m IH]; [reflexivity |].
        cbn [flat_map map concat draw_group fst snd app length].
        rewrite !length_app, length_map, IH. lia. }
      rewrite G.
      destruct (group_by_color_partition (balls this)) as (_ & _ & P).
      rewrite (Permutation_length P), group_by_color_order, length_map.
      lia.
    + assert (C : forall l : list Ball,
                 length (flat_map draw_circle l) = (5 * length l)%nat).
      { induction l as [| b l IH]; [reflexivity |].
        cbn [flat_map draw_circle app length]. rewrite IH. lia. }
      rewrite C. lia.
Qed.

(** X8.  The fill style that render() builds from a color has its three
    components between 0 and 255, and they are the three low bytes of the
    color: for a 24-bit color nothing is lost. *)
Theorem rgb_of_bytes (c : Z) :
  exists r g b,
    rgb_of c = rgb r g b /\
    (0 <= r <= 255)%Z /\ (0 <= g <= 255)%Z /\ (0 <= b <= 255)%Z /\
    (r * 65536 + g * 256 + b = c mod 16777216)%Z.
Proof.
  unfold rgb_of. do 3 eexists. split; [reflexivity |].
  change 255%Z with (Z.ones 8).
  rewrite !Z.land_ones, !Z.shiftr_div_pow2 by lia.
  change (2 ^ 8)%Z with 256%Z. change (2 ^ 16)%Z with (256 * 256)%Z.
  rewrite <- Z.div_div by lia.
  assert (E : (c mod 16777216 = c - 16777216 * (c / 256 / 256 / 256))%Z).
  { rewrite !Z.div_div by lia. change (256 * (256 * 256))%Z with 16777216%Z.
    pose proof (Z.div_mod c 16777216 ltac:(lia)). lia. }
  rewrite E.
  pose proof (Z.div_mod c 256 ltac:(lia)) as D1.
  pose proof (Z.div_mod (c / 256) 256 ltac:(lia)) as D2.
  pose proof (Z.div_mod (c / 256 / 256) 256 ltac:(lia)) as D3.
  pose proof (Z.mod_pos_bound c 256 ltac:(lia)) as B1.
  pose proof (Z.mod_pos_bound (c / 256) 256 ltac:(lia)) as B2.
  pose proof (Z.mod_pos_bound (c / 256 / 256) 256 ltac:(lia)) as B3.
  generalize dependent (c / 256 / 256 / 256)%Z.
  generalize dependent ((c / 256 / 256) mod 256)%Z.
  generalize dependent (c / 256 / 256)%Z.
  generalize dependent ((c / 256) mod 256)%Z.
  generalize dependent (c / 256)%Z.
  generalize dependent (c mod 256)%Z.
  intros. change (Z.ones 8) with 255%Z. lia.
Qed.

(** ** render(): what is painted (C9) *)

Section Painting.

Context {N : Number}.
Local Open Scope num_scope.

Lemma rgb_of_own_color (c : Z) : rgb_of c = own_color c.
Proof.
  unfold rgb_of, own_color.
  change 255%Z with (Z.ones 8).
  rewrite !Z.land_ones, !Z.shiftr_div_pow2 by lia.
  reflexivity.
Qed.

Lemma fold_call_app (ctx : Context2D) (l1 l2 : list Draw) :
  fold_left call (l1 ++ l2) ctx = fold_left call l2 (fold_left call l1 ctx).
Proof. apply fold_left_app. Qed.

(** The squares of one group, painted in the style of the group. *)
Lemma paint_squares (style : FillStyle) (group : list Ball)
    (path : list (num * num * num * num * num))
    (done : list (FillStyle * Shape)) :
  fold_left call (map draw_square group) (mkContext2D style path done)
  = mkContext2D style path
      (done ++ map (fun ball => (style, bounding_square ball)) group).
Proof.
  revert done. induction group as [| ball group IH]; intros done.
  - cbn. now rewrite app_nil_r.
  - cbn [map fold_left].
    change (call (mkContext2D style path done) (draw_square ball))
      with (mkContext2D style path (done ++ [(style, bounding_square ball)])).
    rewrite IH, <- app_assoc. reflexivity.
Qed.

Lemma paint_groups (keys : list Z) (balls : list Ball) (ctx : Context2D) :
  paintedSoFar
    (fold_left call
       (flat_map draw_group (map (fun c => (c, of_color c balls)) keys)) ctx)
  = paintedSoFar ctx
    ++ flat_map (fun c => map (fun ball => (own_color c, bounding_square ball))
                              (of_color c balls)) keys.
Proof.
  revert ctx. induction keys as [| c keys IH]; intros [style path done].
  - cbn. now rewrite app_nil_r.
  - cbn [map flat_map]. rewrite fold_call_app.
    change (fold_left call (draw_group (c, of_color c balls))
              (mkContext2D style path done))
      with (fold_left call (map draw_square (of_color c balls))
              (mkContext2D (rgb_of c) path done)).
    rewrite paint_squares, IH. cbn [paintedSoFar].
    rewrite rgb_of_own_color, <- app_assoc. reflexivity.
Qed.

Lemma paint_circles (balls : list Ball) (ctx : Context2D) :
  paintedSoFar (fold_left call (flat_map draw_circle balls) ctx)
  = paintedSoFar ctx
    ++ map (fun ball => (own_color (color ball), circle ball)) balls.
Proof.
  revert ctx. induction balls as [| ball balls IH]; intros [style path done].
  - cbn. now rewrite app_nil_r.
  - cbn [flat_map map]. rewrite fold_call_app.
    change (fold_left call (draw_circle ball) (mkContext2D style path done))
      with (mkContext2D (rgb_of (color ball))
              [(x ball, y ball, radius ball, lit 0, Math_PI * lit 2)]
              (done ++ [(rgb_of (color ball), circle ball)])).
    rewrite IH. cbn [paintedSoFar].
    rewrite rgb_of_own_color, <- app_assoc. reflexivity.
Qed.

Lemma of_color_In (c : Z) (balls : list Ball) (ball : Ball) :
  In ball (of_color c balls) <-> In ball balls /\ color ball = c.
Proof.
  unfold of_color. rewrite filter_In, Z.eqb_eq. reflexivity.
Qed.

Lemma groups_of_group_by_color (balls : list Ball) :
  group_by_color balls = groups_of balls.
Proof. exact (fold_group_step balls []). Qed.

End Painting.

(** C9: render() chooses by the count.  What it paints is what the
    specification describes: the background, and then, above 10000
    balls, for each distinct color in turn the bounding square (side
    2 * radius, centred on the ball) of every ball of exactly that color,
    filled with that color; up to 10000 balls, for each ball the circle at
    its position with its radius, filled with its own color.  The calls
    themselves: above 10000 balls one assignment to fillStyle for each
    distinct color, followed by one fillRect for each ball of the group;
    the groups partition the balls.  Up to 10000 balls, for each ball an
    assignment to fillStyle, beginPath, one arc from 0 to 2 pi, fill and
    closePath.  The color assigned is rgb(r, g, b) with r, g, b the three
    bytes of the color number. *)
Theorem render_strategy {N : Number} (this : JSBackend) :
  let colors := first_colors (map color (balls this)) in
  let group := fun c => of_color c (balls this) in
  painted (render this) = draw_spec this
  /\ ((10000 < Z.of_nat (getBallCount this))%Z ->
      render this
      = clear_canvas this
        ++ flat_map
             (fun c =>
                setFillStyle (rgb ((c / 65536) mod 256) ((c / 256) mod 256)
                                  (c mod 256))
                :: map (fun ball =>
                          fillRect (x ball - radius ball)%num
                                   (y ball - radius ball)%num
                                   (radius ball * lit 2)%num
                                   (radius ball * lit 2)%num)
                       (group c))
             colors
      /\ NoDup colors
      /\ (forall c, In c colors -> group c <> [])
      /\ (forall c ball,
            In ball (group c) <-> In ball (balls this) /\ color ball = c)
      /\ (forall ball, In ball (balls this) -> In (color ball) colors)
      /\ Permutation (flat_map group colors) (balls this))
  /\ ((Z.of_nat (getBallCount this) <= 10000)%Z ->
      render this
      = clear_canvas this
        ++ flat_map
             (fun ball =>
                [ setFillStyle
                    (rgb ((color ball / 65536) mod 256)
                         ((color ball / 256) mod 256)
                         (color ball mod 256));
                  beginPath;
                  arc (x ball) (y ball) (radius ball) (lit 0)
                      (Math_PI * lit 2)%num;
                  fill;
                  closePath ])
             (balls this)).
Proof.
  cbn zeta. unfold getBallCount. split; [| split].
  - unfold painted, render, draw_spec. rewrite fold_call_app.
    cbn [clear_canvas fold_left call fillStyle currentPath paintedSoFar app].
    destruct (10000 <? Z.of_nat (length (balls this)))%Z.
    + rewrite groups_of_group_by_color. unfold groups_of.
      rewrite paint_groups. reflexivity.
    + rewrite paint_circles. reflexivity.
  - intros H. apply Z.ltb_lt in H. unfold render. rewrite H.
    rewrite groups_of_group_by_color. unfold groups_of.
    split.
    { f_equal. rewrite flat_map_concat_map, map_map, <- flat_map_concat_map.
      apply flat_map_ext. intros c. unfold draw_group. cbn [fst snd].
      now rewrite rgb_of_own_color. }
    split; [apply first_colors_NoDup |].
    split.
    { intros c I E. apply first_colors_In, in_map_iff in I.
      destruct I as (ball & C & I).
      assert (I' : In ball (of_color c (balls this)))
        by (apply of_color_In; auto).
      rewrite E in I'. exact I'. }
    split; [intros c ball; apply of_color_In |].
    split.
    { intros ball I. apply first_colors_In, in_map. exact I. }
    destruct (group_by_color_partition (balls this)) as (_ & _ & P).
    rewrite groups_of_group_by_color in P. unfold groups_of in P.
    rewrite map_map in P. cbn [snd] in P.
    now rewrite flat_map_concat_map.
  - intros H. apply Z.ltb_ge in H. unfold render. rewrite H.
    f_equal. apply flat_map_ext. intros ball. unfold draw_circle.
    now rewrite rgb_of_own_color.
Qed.

Lemma render_strategy_witness :
  let red := @mkBall binary64 (lit 400) (lit 300) (lit 8.0) (lit (-6.0))
               (lit 60.0) 0xFF4444 false in
  let green := @mkBall binary64 (lit 100) (lit 200) (lit 1.0) (lit 2.0)
                 (lit 3.0) 0x00FF00 false in
  let canvas := @mkCanvas binary64 (lit 800) (lit 600) in
  let background :=
    (css "#1a1a1a", rectangle (lit 0) (lit 0) (lit 800) (lit 600)) in
  let few := mkJSBackend canvas 1000000 (lit 0.8) [red; green; red] in
  let many := mkJSBackend canvas 1000000 (lit 0.8)
                (red :: green :: repeat red (Z.to_nat 10000)) in
  let colors := first_colors (map color (balls many)) in
  painted (render few)
  = [ background;
      (rgb 255 68 68, circle red);
      (rgb 0 255 0, circle green);
      (rgb 255 68 68, circle red) ]
  /\ (10000 < Z.of_nat (getBallCount many))%Z
  /\ colors = [0xFF4444; 0x00FF00]%Z
  /\ Z.of_nat (length (of_color 0xFF4444 (balls many))) = 10001%Z
  /\ Z.of_nat (length (of_color 0x00FF00 (balls many))) = 1%Z
  /\ painted (render many)
     = background
       :: map (fun ball => (rgb 255 68 68, bounding_square ball))
              (of_color 0xFF4444 (balls many))
       ++ map (fun ball => (rgb 0 255 0, bounding_square ball))
              (of_color 0x00FF00 (balls many))
  /\ Permutation (flat_map (fun c => of_color c (balls many)) colors)
                 (balls many).
Proof.
  intros red green canvas background few many colors.
  assert (H : (10000 < Z.of_nat (getBallCount many))%Z)
    by (apply Z.ltb_lt; vm_compute; reflexivity).
  assert (C : colors = [0xFF4444; 0x00FF00]%Z) by (vm_compute; reflexivity).
  destruct (render_strategy many) as (P & F & _).
  destruct (F H) as (_ & _ & _ & _ & _ & Perm).
  split; [rewrite (proj1 (render_strategy few)); reflexivity |].
  split; [exact H |]. split; [exact C |].
  split; [vm_compute; reflexivity |].
  split; [vm_compute; reflexivity |].
  split; [| exact Perm].
  rewrite P. unfold draw_spec. apply Z.ltb_lt in H.
  unfold getBallCount in H. rewrite H. fold colors. rewrite C.
  cbn [flat_map]. rewrite app_nil_r. reflexivity.
Defined.

(** ** The compute shader, one invocation at a time *)

Section MoreShader.

Context {N : Number}.
Local Open Scope Z_scope.


Lemma store_other (balls : Z -> Shader.Ball) (i j : Z) (ball : Shader.Ball) :
  j <> i -> Shader.store balls i ball j = balls j.
Proof.
  intros D. unfold Shader.store.
  destruct (Z.eqb_spec j i); [contradiction | reflexivity].
Qed.

Lemma store_same (balls : Z -> Shader.Ball) (i : Z) (ball : Shader.Ball) :
  Shader.store balls i ball i = ball.
Proof. unfold Shader.store. now rewrite Z.eqb_refl. Qed.

Lemma u32_small (z : Z) : 0 <= z < 2 ^ 32 -> Shader.u32 z = z.
Proof. intros H. unfold Shader.u32. now apply Z.mod_small. Qed.




Lemma in_order_In (ballCount idx : Z) :
  In idx (Shader.in_order ballCount) <->
  0 <= idx < 64 * Shader.workgroupCount ballCount.
Proof.
  unfold Shader.in_order. rewrite in_map_iff. split.
  - intros (n & <- & I). apply in_seq in I. lia.
  - intros H. exists (Z.to_nat idx). split; [lia |]. apply in_seq. lia.
Qed.


Lemma bounce_speed `{!AbsLaw N} (config : Shader.Config)
    (ball : Shader.Ball) :
  nabs (snd (fst (Shader.bounce_x config ball))) = nabs (Shader.vel_x ball) /\
  nabs (snd (fst (Shader.bounce_y config ball))) = nabs (Shader.vel_y ball).
Proof.
  unfold Shader.bounce_x, Shader.bounce_y. split.
  - destruct (_ <? _)%num; [| destruct (_ >? _)%num]; cbn [fst snd];
      rewrite ?nabs_nneg, ?nabs_nabs; reflexivity.
  - destruct (_ <? _)%num; [| destruct (_ >? _)%num]; cbn [fst snd];
      rewrite ?nabs_nneg, ?nabs_nabs; reflexivity.
Qed.

End MoreShader.

(** X12.  A dispatch covers every index below a multiple of 64 that is at
    least the count the host has cached, and no other; so every ball the
    host knows of gets an invocation, and fewer than 64 invocations fall
    past the cached count. *)
Theorem dispatch_covers (ballCount : Z) :
  (forall idx,
     In idx (Shader.in_order ballCount) <->
     (0 <= idx < 64 * Shader.workgroupCount ballCount)%Z) /\
  (ballCount <= 64 * Shader.workgroupCount ballCount < ballCount + 64)%Z.
Proof.
  split; [intros idx; apply in_order_In |].
  unfold Shader.workgroupCount.
  pose proof (Z.div_mod (ballCount + 63) 64 ltac:(lia)).
  pose proof (Z.mod_pos_bound (ballCount + 63) 64 ltac:(lia)).
  lia.
Qed.

(** ** WebGPUBackend: the cached count and the arena *)

Section MoreHost.

Context {N : Number}.
Local Open Scope Z_scope.





Lemma step_buffers (r : Running) (e : Event) :
  configBuffer (buffers (step r e)) = configBuffer (buffers r) /\
  (resolutionBuffer (buffers r) = updateResolution (this r) ->
   resolutionBuffer (buffers (step r e)) = updateResolution (this (step r e))).
Proof.
  destruct e as [| | | j | w h]; cbn [step]; try (split; [reflexivity | auto]).
  unfold readBallCount_resume.
  destruct (nth_error (mapping r) j); cbn [fst]; split; auto.
Qed.

End MoreHost.



(** X16.  The arena of the compute shader is the canvas as it was at
    init(): no call of the host changes the config buffer, while a
    resize of the window changes the canvas and the resolution that the
    vertex shader divides by.  After a resize the balls bounce in the old
    rectangle. *)
Theorem gpu_arena_fixed_at_init {N : Number} (c : Canvas) (cap : Z)
    (ratio : num) (browser : Browser) (this0 : WebGPUBackend)
    (r0 : Running) (events : list Event) :
  WebGPUBackend_constructor c cap ratio = Normal this0 ->
  init browser this0 = Normal r0 ->
  let r := steps events r0 in
  configBuffer (buffers r)
    = Shader.mkConfig (width c) (height c) (Shader.u32 cap) ratio /\
  resolutionBuffer (buffers r)
    = (width (gpu_canvas (this r)), height (gpu_canvas (this r))).
Proof.
  intros C I. cbn zeta. injection C as <-.
  unfold init in I.
  destruct (negb (navigator_gpu browser)); [discriminate I |].
  destruct (negb (adapter browser)); [discriminate I |].
  destruct (later_error browser); [discriminate I |].
  injection I as <-.
  match goal with
  | |- context [steps events ?r] =>
      assert (G : forall r0,
                 configBuffer (buffers (steps events r0))
                 = configBuffer (buffers r0) /\
                 (resolutionBuffer (buffers r0) = updateResolution (this r0) ->
                  resolutionBuffer (buffers (steps events r0))
                  = updateResolution (this (steps events r0))));
      [| destruct (G r) as [G1 G2]; split;
         [rewrite G1; reflexivity | apply G2; reflexivity]]
  end.
  induction events as [| e events IH]; intros r0; [auto |].
  cbn [steps fold_left]. fold (steps events (step r0 e)).
  destruct (IH (step r0 e)) as [I1 I2].
  destruct (step_buffers r0 e) as [S1 S2].
  split; [congruence | auto].
Qed.

Lemma gpu_arena_fixed_at_init_witness :
  let c := @mkCanvas binary32 (lit 800) (lit 600) in
  let this0 := @mkWebGPUBackend binary32 c 10 (lit 0.8) 1 in
  let r0 := mkRunning this0 (initBuffers this0) [] in
  let r := steps [call_update; window_resize (lit 1024) (lit 768);
                  call_update] r0 in
  configBuffer (buffers r)
    = Shader.mkConfig (lit 800) (lit 600) (Shader.u32 10) (lit 0.8) /\
  resolutionBuffer (buffers r)
    = (width (gpu_canvas (this r)), height (gpu_canvas (this r))).
Proof.
  intros c this0 r0.
  exact (gpu_arena_fixed_at_init c 10 (lit 0.8) (mkBrowser true true None)
           this0 r0 _ eq_refl eq_refl).
Defined.

(** ** The animation loop *)

Section MoreAnimation.

Variable B : Type.
Variable body : B -> Q -> B.

Lemma js_rem_range (d i : Q) :
  0 < i -> i <= d -> 0 <= js_rem d i < i.
Proof.
  intros Hi Hd. unfold js_rem.
  assert (P : 1 <= d / i) by (apply Qle_shift_div_l; [exact Hi | lra]).
  destruct (Qltb (d / i) 0) eqn:L; [apply Qltb_lt in L; lra |].
  pose proof (Qfloor_le (d / i)) as F1.
  pose proof (Qlt_floor (d / i)) as F2.
  rewrite inject_Z_plus in F2. change (inject_Z 1) with 1 in F2.
  set (f := inject_Z (Qfloor (d / i))) in *.
  assert (D : d == i * (d / i)) by (field; lra).
  split.
  - assert (i * f <= i * (d / i)) by (apply Qmult_le_l; assumption). lra.
  - assert (i * (d / i) < i * (f + 1)) by (apply Qmult_lt_l; assumption).
    lra.
Qed.

Lemma loop_skips (a : Animation B) (currentTime : Q) :
  Qltb (currentTime - lastRenderTime a) (frameInterval a) = true ->
  loop body a currentTime = requestAnimationFrame a.
Proof.
  intros H. unfold loop. cbn [requestAnimationFrame lastRenderTime
                              frameInterval]. now rewrite H.
Qed.

Lemma loop_renders (a : Animation B) (currentTime : Q) :
  Qltb (currentTime - lastRenderTime a) (frameInterval a) = false ->
  loop body a currentTime =
  mkAnimation (body (backend a) currentTime)
    (currentTime
     - js_rem (currentTime - lastRenderTime a) (frameInterval a))
    (frameInterval a) (S (S (requested a))).
Proof.
  intros H. unfold loop. cbn [requestAnimationFrame lastRenderTime
                              frameInterval backend requested].
  now rewrite H.
Qed.

Lemma callbacks_skip (n : nat) (a : Animation B) (currentTime : Q) :
  Qltb (currentTime - lastRenderTime a) (frameInterval a) = true ->
  Nat.iter n (fun a => loop body a currentTime) a =
  mkAnimation (backend a) (lastRenderTime a) (frameInterval a)
              (n + requested a).
Proof.
  intros H. induction n as [| n IH]; [now destruct a |].
  rewrite Nat.iter_succ, IH, loop_skips; [reflexivity | exact H].
Qed.

Lemma animation_frame_cases (a : Animation B) (currentTime : Q) :
  0 < frameInterval a ->
  (1 <= requested a)%nat ->
  let a' := animation_frame body a currentTime in
  if Qltb (currentTime - lastRenderTime a) (frameInterval a)
  then a' = a
  else a' = mkAnimation (body (backend a) currentTime)
              (currentTime
               - js_rem (currentTime - lastRenderTime a) (frameInterval a))
              (frameInterval a) (S (requested a)).
Proof.
  intros Hi Hn. cbn zeta. unfold animation_frame.
  destruct a as [b last i n]. cbn [backend lastRenderTime frameInterval
                                   requested] in *.
  destruct (Qltb (currentTime - last) i) eqn:L.
  - rewrite callbacks_skip by exact L. cbn. now rewrite Nat.add_0_r.
  - destruct n as [| n]; [lia |].
    rewrite Nat.iter_succ_r, loop_renders by exact L.
    cbn [backend lastRenderTime frameInterval requested].
    rewrite callbacks_skip.
    + cbn [backend lastRenderTime frameInterval requested].
      f_equal. lia.
    + cbn [lastRenderTime frameInterval]. apply Qltb_lt.
      assert (D : i <= currentTime - last)
        by (apply Qnot_lt_le; intros C; apply Qltb_lt in C; congruence).
      pose proof (js_rem_range _ _ Hi D). lra.
Qed.

End MoreAnimation.

(** X19.  From startAnimation() on, with a positive frame interval:
    after any frames of the browser, the number of callbacks requested
    for the next frame is one more than the number of frames rendered so
    far.  loop() calls requestAnimationFrame() at its start and again at
    its end, so every rendered frame adds a callback that is never
    removed. *)
Theorem callbacks_accumulate (lastRenderTime0 interval : Q)
    (timestamps : list Q) :
  0 < interval ->
  let start := mkAnimation 0%nat lastRenderTime0 interval 1 in
  let a := animation (fun rendered _ => S rendered) timestamps start in
  requested a = S (backend a).
Proof.
  intros Hi. cbn zeta.
  assert (G : forall a : Animation nat,
             frameInterval a = interval ->
             requested a = S (backend a) ->
             let a' := animation (fun rendered _ => S rendered) timestamps a
             in requested a' = S (backend a')).
  { induction timestamps as [| t timestamps IH]; intros a Ha Hr;
      [exact Hr |].
    cbn zeta. cbn [animation fold_left].
    fold (animation (fun rendered (_ : Q) => S rendered) timestamps).
    pose proof (animation_frame_cases nat (fun rendered _ => S rendered)
                  a t ltac:(rewrite Ha; exact Hi) ltac:(lia)) as C.
    cbn zeta in C.
    destruct (Qltb (t - lastRenderTime a) (frameInterval a)).
    - rewrite C. now apply IH.
    - rewrite C. apply IH; cbn; [exact Ha | lia]. }
  now apply G.
Qed.

Lemma callbacks_accumulate_witness :
  let start := mkAnimation 0%nat 0 (1000 / 60) 1 in
  let a := animation (fun rendered _ => S rendered) [8; 17; 25; 34; 42]
             start in
  requested a = S (backend a).
Proof.
  apply (callbacks_accumulate 0 (1000 / 60) [8; 17; 25; 34; 42]).
  reflexivity.
Defined.

(** ** The grace flag and the children of JSBackend, on an example *)

Lemma grace_blocks_next_split_witness :
  let seed := @mkBall binary64 (lit 400) (lit 54) (lit 8.0) (lit (-6.0))
                (lit 60.0) 0xFF4444 false in
  let this := mkJSBackend (@mkCanvas binary64 (lit 800) (lit 600)) 10
                (lit 0.8) [seed] in
  let this1 := fst (update this halves 0) in
  let k1 := snd (update this halves 0) in
  splits_at this halves 0 0 = true /\
  splits_at this1 halves k1 0 = false /\
  splits_at this1 halves k1 1 = false.
Proof.
  intros seed this this1 k1.
  assert (L : length (balls this1) = 2%nat) by (vm_compute; reflexivity).
  assert (S0 : splits_at this halves 0 0 = true) by (vm_compute; reflexivity).
  split; [exact S0 |].
  destruct (grace_blocks_next_split this halves 0) as [_ G].
  split.
  - apply (G 0%nat (nth 0 (balls this1) seed)).
    + apply nth_error_nth'. rewrite L. lia.
    + left. exact S0.
  - apply (G 1%nat (nth 1 (balls this1) seed)).
    + apply nth_error_nth'. rewrite L. lia.
    + right. cbn. lia.
Defined.

Lemma children_appended_unvisited_witness :
  let seed := @mkBall binary64 (lit 400) (lit 54) (lit 8.0) (lit (-6.0))
                (lit 60.0) 0xFF4444 false in
  let this := mkJSBackend (@mkCanvas binary64 (lit 800) (lit 600)) 10
                (lit 0.8) [seed] in
  let this1 := fst (update this halves 0) in
  exists child,
    (1 <= child_slot this halves 0 0)%nat /\
    nth_error (balls this1) (child_slot this halves 0 0) = Some child.
Proof.
  intros seed this this1.
  destruct (children_appended_unvisited this halves 0) as (_ & C & _).
  destruct (C 0%nat) as (ball & result & child & _ & _ & _ & S1 & S2).
  - vm_compute. reflexivity.
  - exists child. split; [exact S1 | exact S2].
Defined.

(** * The compute shader under every interleaving *)

(** ** Lists of invocations *)

Section Lists.

Context {A : Type}.

Lemma set_nth_length (l : list A) (i : nat) (a : A) :
  length (Interleaved.set_nth l i a) = length l.
Proof.
  revert i. induction l as [| b l IH]; intros [| i]; simpl; auto.
Qed.

Lemma set_nth_same (l : list A) (i : nat) (a b : A) :
  nth_error l i = Some b ->
  nth_error (Interleaved.set_nth l i a) i = Some a.
Proof.
  revert i. induction l as [| c l IH]; intros [| i] H; simpl in *;
    try discriminate; auto.
Qed.

Lemma set_nth_other (l : list A) (i j : nat) (a : A) :
  j <> i ->
  nth_error (Interleaved.set_nth l i a) j = nth_error l j.
Proof.
  revert i j. induction l as [| c l IH]; intros [| i] [| j] H; simpl;
    try reflexivity; try contradiction.
  apply IH. congruence.
Qed.

End Lists.

Section Pending.

Context {N : Number}.
Local Open Scope Z_scope.

Lemma pending_bounds (l : list Interleaved.Invocation) :
  0 <= Interleaved.pending l <= Z.of_nat (length l).
Proof.
  induction l as [| a l IH]; cbn [Interleaved.pending length]; [lia |].
  destruct (Interleaved.is_at_sub a); lia.
Qed.

Lemma pending_set_nth (l : list Interleaved.Invocation) (i : nat)
    (a b : Interleaved.Invocation) :
  nth_error l i = Some a ->
  Interleaved.pending (Interleaved.set_nth l i b)
  = Interleaved.pending l
    - (if Interleaved.is_at_sub a then 1 else 0)
    + (if Interleaved.is_at_sub b then 1 else 0).
Proof.
  revert i. induction l as [| c l IH]; intros [| i] H; simpl in H;
    try discriminate.
  - injection H as ->. cbn [Interleaved.set_nth Interleaved.pending]. lia.
  - cbn [Interleaved.set_nth Interleaved.pending]. rewrite (IH i H). lia.
Qed.

(** An invocation that is not about to take its addition back leaves
    room among the pending ones. *)
Lemma pending_room (l : list Interleaved.Invocation) (i : nat)
    (a : Interleaved.Invocation) :
  nth_error l i = Some a -> Interleaved.is_at_sub a = false ->
  Interleaved.pending l + 1 <= Z.of_nat (length l).
Proof.
  revert i. induction l as [| c l IH]; intros [| i] H E; simpl in H;
    try discriminate.
  - injection H as ->. cbn [Interleaved.pending length]. rewrite E.
    pose proof (pending_bounds l). lia.
  - cbn [Interleaved.pending length]. specialize (IH i H E).
    destruct (Interleaved.is_at_sub c); lia.
Qed.

Lemma pending_finished (l : list Interleaved.Invocation) :
  forallb Interleaved.is_returned l = true -> Interleaved.pending l = 0.
Proof.
  induction l as [| a l IH]; cbn [forallb Interleaved.pending]; [reflexivity |].
  intros H. apply andb_prop in H. destruct H as [H1 H2].
  rewrite (IH H2). now destruct a.
Qed.

Lemma pick_some (config : Shader.Config) (pass : Interleaved.Pass) (i : nat)
    (invocation : Interleaved.Invocation) :
  nth_error (Interleaved.invocations pass) i = Some invocation ->
  Interleaved.pick config pass i
  = Interleaved.mkPass
      (Interleaved.set_nth (Interleaved.invocations pass) i
         (fst (Interleaved.step config (Z.of_nat i) invocation
                 (Interleaved.memory pass))))
      (snd (Interleaved.step config (Z.of_nat i) invocation
              (Interleaved.memory pass))).
Proof.
  intros H. unfold Interleaved.pick. rewrite H.
  now destruct (Interleaved.step _ _ _ _).
Qed.

Lemma pick_none (config : Shader.Config) (pass : Interleaved.Pass) (i : nat) :
  nth_error (Interleaved.invocations pass) i = None ->
  Interleaved.pick config pass i = pass.
Proof. intros H. unfold Interleaved.pick. now rewrite H. Qed.

Lemma run_app (config : Shader.Config) (s1 s2 : list nat)
    (pass : Interleaved.Pass) :
  Interleaved.run config (s1 ++ s2) pass
  = Interleaved.run config s2 (Interleaved.run config s1 pass).
Proof. apply fold_left_app. Qed.

End Pending.

(** ** The invariants of a dispatch *)

Section Dispatch.

Context {N : Number}.
Local Open Scope Z_scope.
Import Interleaved.

(** Line 43 to the next access, in terms of [moved], [clamped] and
    [eligible]. *)
Lemma step_read (config : Shader.Config) (idx : Z) (storage : Shader.Storage) :
  let ball := Shader.balls storage idx in
  step config idx at_read storage
  = (if (snd (Shader.bounce_x config ball) || snd (Shader.bounce_y config ball))
        && negb (Shader.just_split ball =? 1)
     then
       if (Shader.radius ball * Shader.split_ratio config >=? lit 1.0)%num
       then at_check (moved config ball)
              (snd (Shader.bounce_x config ball))
              (snd (Shader.bounce_y config ball))
       else at_store (clamped (moved config ball))
     else at_store (moved config ball),
     storage).
Proof.
  cbn zeta. unfold step, moved, clamped.
  destruct (Shader.bounce_x config (Shader.balls storage idx)) as [[px vx] hx].
  destruct (Shader.bounce_y config (Shader.balls storage idx)) as [[py vy] hy].
  cbn [fst snd Shader.radius Shader.color Shader.padding Shader.pos_x
       Shader.pos_y Shader.vel_x Shader.vel_y].
  destruct ((hx || hy) && negb (Shader.just_split (Shader.balls storage idx) =? 1));
    [| reflexivity].
  destruct (_ >=? _)%num; reflexivity.
Qed.

Lemma step_check (config : Shader.Config) (idx : Z) (storage : Shader.Storage)
    (ball : Shader.Ball) (hit_x hit_y : bool) :
  step config idx (at_check ball hit_x hit_y) storage
  = (if Shader.ball_count storage <? Shader.max_balls config
     then at_add (shrunk config ball) hit_x hit_y
     else at_store ball,
     storage).
Proof.
  unfold step, shrunk. now destruct (_ <? _).
Qed.

Variable config : Shader.Config.
Variable origin : Shader.Storage.

(** *** What is held and what is stored *)




(** *** The count and the balls that were live *)

Variable n : nat.

Hypothesis count_nonneg : 0 <= Shader.ball_count origin.
Hypothesis no_wrap :
  Z.max (Shader.ball_count origin) (Shader.max_balls config) + Z.of_nat n
  < 2 ^ 32.

Lemma sound_begin (invocations : list Invocation) :
  length invocations = n ->
  Forall (fun invocation => invocation = at_load) invocations ->
  sound config origin n (mkPass invocations origin).
Proof.
  intros L F.
  assert (A : forall i invocation,
             nth_error invocations i = Some invocation ->
             invocation = at_load).
  { intros i invocation E. rewrite Forall_forall in F.
    apply F. eapply nth_error_In, E. }
  assert (P : pending invocations = 0).
  { clear L A. induction F as [| a l -> _ IH]; cbn [pending]; [reflexivity |].
    rewrite IH. reflexivity. }
  constructor; cbn [Interleaved.invocations memory].
  - exact L.
  - rewrite P. lia.
  - rewrite P. lia.
  - intros i ball hx hy ni E. apply A in E. discriminate E.
  - intros i invocation E _. rewrite (A _ _ E). reflexivity.
  - reflexivity.
Qed.

(** One access keeps the invariant. *)
Lemma sound_pick (pass : Pass) (i : nat) :
  sound config origin n pass -> sound config origin n (pick config pass i).
Proof.
  intros S.
  destruct (nth_error (invocations pass) i) as [invocation |] eqn:E;
    [| now rewrite pick_none].
  rewrite (pick_some config pass i invocation E).
  pose proof (sound_length _ _ _ _ S) as SL.
  pose proof (sound_low _ _ _ _ S) as SLo.
  pose proof (sound_high _ _ _ _ S) as SHi.
  pose proof (sound_reserved _ _ _ _ S) as SR.
  pose proof (sound_old _ _ _ _ S) as SO.
  pose proof (sound_rest _ _ _ _ S) as SRest.
  pose proof (pending_bounds (invocations pass)) as PB.
  assert (frame :
    forall invocation' storage',
      let pending' :=
        pending (invocations pass)
        - (if is_at_sub invocation then 1 else 0)
        + (if is_at_sub invocation' then 1 else 0) in
      Shader.ball_count origin + pending' <= Shader.ball_count storage' ->
      Shader.ball_count storage' - pending'
      <= Z.max (Shader.ball_count origin) (Shader.max_balls config) ->
      (forall ball hit_x hit_y new_idx,
          invocation' = at_spawn ball hit_x hit_y new_idx ->
          Shader.ball_count origin <= new_idx) ->
      (Z.of_nat i < Shader.ball_count origin ->
       holds_old config (Shader.balls origin (Z.of_nat i)) invocation'
         (Shader.balls storage' (Z.of_nat i))) ->
      (forall j, j <> Z.of_nat i ->
                 j < Shader.ball_count origin ->
                 Shader.balls storage' j = Shader.balls (memory pass) j) ->
      sound config origin n
        (mkPass (set_nth (invocations pass) i invocation') storage')).
  { intros invocation' storage' pending' Hlo Hhi Hr Ho Hf.
    constructor; cbn [Interleaved.invocations memory].
    - now rewrite set_nth_length.
    - rewrite (pending_set_nth _ _ _ _ E). exact Hlo.
    - rewrite (pending_set_nth _ _ _ _ E). exact Hhi.
    - intros i' ball hx hy ni E'.
      destruct (Nat.eq_dec i' i) as [-> | D].
      + rewrite (set_nth_same _ _ _ _ E) in E'. injection E' as E'.
        eapply Hr, E'.
      + rewrite set_nth_other in E' by exact D. eapply SR, E'.
    - intros i' inv' E' Hi'.
      destruct (Nat.eq_dec i' i) as [-> | D].
      + rewrite (set_nth_same _ _ _ _ E) in E'. injection E' as <-.
        now apply Ho.
      + rewrite set_nth_other in E' by exact D.
        rewrite Hf by lia. now apply SO.
    - intros j Hj Hout.
      assert (Hi : (i < n)%nat)
        by (rewrite <- SL; apply nth_error_Some; congruence).
      rewrite Hf by lia. now apply SRest. }
  destruct invocation as [| | ball hx hy | ball hx hy | ball hx hy new_idx
                          | ball | ball |].
  - (* line 35 *)
    cbn [step].
    destruct (Shader.ball_count (memory pass) <=? Z.of_nat i) eqn:C;
      cbn [fst snd]; apply frame; cbn [is_at_sub holds_old]; try lia;
      try discriminate; auto.
    intros Hold. exact (SO _ _ E Hold).
  - (* line 43 *)
    rewrite step_read. cbn zeta. cbn [fst snd].
    set (ball0 := Shader.balls (memory pass) (Z.of_nat i)).
    assert (Hold : Z.of_nat i < Shader.ball_count origin ->
                   ball0 = Shader.balls origin (Z.of_nat i))
      by (intros Hold; exact (SO _ _ E Hold)).
    destruct ((snd (Shader.bounce_x config ball0)
               || snd (Shader.bounce_y config ball0))
              && negb (Shader.just_split ball0 =? 1)) eqn:C1;
      [destruct (Shader.radius ball0 * Shader.split_ratio config >=? lit 1.0)%num
         eqn:C2 |];
      apply frame; cbn [is_at_sub holds_old]; try lia;
      try discriminate; auto.
    + intros Ho. rewrite <- (Hold Ho).
      repeat split. unfold eligible. now rewrite C1, C2.
    + intros Ho. rewrite <- (Hold Ho). split; [reflexivity |].
      constructor.
    + intros Ho. rewrite <- (Hold Ho). split; [reflexivity |].
      constructor.
  - (* line 82 *)
    rewrite step_check. cbn [fst snd].
    destruct (Shader.ball_count (memory pass) <? Shader.max_balls config);
      apply frame; cbn [is_at_sub holds_old]; try lia;
      try discriminate; auto.
    + intros Ho. destruct (SO _ _ E Ho) as (O1 & O2 & O3).
      rewrite O2. auto.
    + intros Ho. destruct (SO _ _ E Ho) as (O1 & O2 & O3).
      split; [exact O1 |]. rewrite O2. constructor.
  - (* line 90 *)
    cbn [step].
    pose proof (pending_room _ _ _ E eq_refl) as Room.
    rewrite SL in Room.
    assert (U : Shader.u32 (Shader.ball_count (memory pass) + 1)
                = Shader.ball_count (memory pass) + 1)
      by (apply u32_small; lia).
    rewrite U.
    destruct (Shader.ball_count (memory pass) + 1 <=? Shader.max_balls config)
      eqn:C; cbn [fst snd];
      [apply Z.leb_le in C | apply Z.leb_gt in C];
      apply frame;
      cbn [is_at_sub holds_old Shader.ball_count Shader.balls];
      try lia; try discriminate; auto.
    + intros b' hx' hy' ni E'. injection E' as _ _ _ <-. lia.
    + intros Ho. exact (SO _ _ E Ho).
    + intros Ho. exact (SO _ _ E Ho).
  - (* line 110 *)
    cbn [step fst snd].
    pose proof (SR _ _ _ _ _ E) as Hres.
    apply frame;
      cbn [is_at_sub holds_old Shader.ball_count Shader.balls];
      try lia; try discriminate; auto.
    + intros Ho. destruct (SO _ _ E Ho) as (O1 & O2 & O3).
      rewrite store_other by lia.
      split; [exact O1 |]. rewrite O2. now apply outcome_shrunk.
    + intros j D Hj. apply store_other. lia.
  - (* line 113 *)
    cbn [step fst snd].
    assert (P1 : 1 <= pending (invocations pass)).
    { clear - E. revert i E.
      induction (invocations pass) as [| a l IH]; intros [| i] E;
        simpl in E; try discriminate.
      - injection E as ->. cbn [pending is_at_sub].
        pose proof (pending_bounds l). lia.
      - cbn [pending]. specialize (IH i E).
        destruct (is_at_sub a); lia. }
    assert (U : Shader.u32 (Shader.ball_count (memory pass) - 1)
                = Shader.ball_count (memory pass) - 1)
      by (apply u32_small; lia).
    rewrite U.
    apply frame;
      cbn [is_at_sub holds_old Shader.ball_count Shader.balls];
      try lia; try discriminate; auto.
    intros Ho. destruct (SO _ _ E Ho) as (O1 & O2 & O3).
    split; [exact O1 |]. rewrite O2. now apply outcome_shrunk.
  - (* line 122 *)
    cbn [step fst snd].
    apply frame;
      cbn [is_at_sub holds_old Shader.ball_count Shader.balls];
      try lia; try discriminate; auto.
    + intros Ho. destruct (SO _ _ E Ho) as (O1 & O2).
      now rewrite store_same.
    + intros j D Hj. now apply store_other.
  - (* returned *)
    cbn [step fst snd].
    apply frame; cbn [is_at_sub holds_old]; try lia;
      try discriminate; auto.
    intros Ho. exact (SO _ _ E Ho).
Qed.

Lemma sound_run (schedule : list nat) (pass : Pass) :
  sound config origin n pass ->
  sound config origin n (run config schedule pass).
Proof.
  revert pass. induction schedule as [| i schedule IH]; intros pass S;
    [exact S |].
  apply IH, sound_pick, S.
Qed.

End Dispatch.

(** ** The serial runs *)

Section Serial.

Context {N : Number}.
Local Open Scope Z_scope.
Import Interleaved.

Variable config : Shader.Config.

Lemma set_nth_id (l : list Invocation) (i : nat) (a : Invocation) :
  nth_error l i = Some a -> set_nth l i a = l.
Proof.
  revert i. induction l as [| b l IH]; intros [| i] E; simpl in *;
    try discriminate.
  - now injection E as ->.
  - now rewrite IH.
Qed.

Lemma set_nth_twice (l : list Invocation) (i : nat) (a b : Invocation) :
  set_nth (set_nth l i a) i b = set_nth l i b.
Proof.
  revert i. induction l as [| c l IH]; intros [| i]; simpl; auto.
  now rewrite IH.
Qed.

Lemma run_repeat (k : nat) (invocations : list Invocation) (i : nat)
    (invocation : Invocation) (storage : Shader.Storage) :
  nth_error invocations i = Some invocation ->
  run config (repeat i k) (mkPass invocations storage)
  = mkPass (set_nth invocations i
              (fst (accesses config (Z.of_nat i) k invocation storage)))
           (snd (accesses config (Z.of_nat i) k invocation storage)).
Proof.
  revert invocations invocation storage.
  induction k as [| k IH]; intros invocations invocation storage E.
  - cbn. now rewrite set_nth_id.
  - cbn [repeat run fold_left accesses].
    rewrite (pick_some config _ i invocation) by exact E.
    cbn [Interleaved.invocations memory].
    destruct (step config (Z.of_nat i) invocation storage)
      as [invocation' storage'].
    cbn [fst snd].
    change (fold_left (pick config) (repeat i k) ?p)
      with (run config (repeat i k) p).
    rewrite (IH _ invocation') by (eapply set_nth_same, E).
    now rewrite set_nth_twice.
Qed.

(** Six accesses in a row are the whole invocation: [Shader.main]. *)
Lemma accesses_main (idx : Z) (storage : Shader.Storage) :
  accesses config idx 6 at_load storage
  = (returned, Shader.main config idx storage).
Proof.
  unfold Shader.main.
  change (accesses config idx 6 at_load storage)
    with (let '(invocation', storage') := step config idx at_load storage in
          accesses config idx 5 invocation' storage').
  cbn [step].
  destruct (Shader.ball_count storage <=? idx); [reflexivity |].
  destruct (Shader.bounce_x config (Shader.balls storage idx))
    as [[px vx] hx] eqn:BX.
  destruct (Shader.bounce_y config (Shader.balls storage idx))
    as [[py vy] hy] eqn:BY.
  cbn [accesses step]. rewrite BX, BY.
  cbn [Shader.radius Shader.color Shader.padding].
  destruct ((hx || hy)
            && negb (Shader.just_split (Shader.balls storage idx) =? 1));
    [| reflexivity].
  destruct (_ >=? _)%num; [| reflexivity].
  cbn [step accesses Shader.ball_count Shader.balls Shader.radius
       Shader.color Shader.padding Shader.pos_x Shader.pos_y Shader.vel_x
       Shader.vel_y].
  destruct (Shader.ball_count storage <? Shader.max_balls config);
    [| reflexivity].
  cbn [step accesses Shader.ball_count Shader.balls Shader.radius
       Shader.color Shader.padding Shader.pos_x Shader.pos_y Shader.vel_x
       Shader.vel_y].
  destruct (Shader.u32 (Shader.ball_count storage + 1)
            <=? Shader.max_balls config); reflexivity.
Qed.

Lemma run_one_by_one (ids : list nat) (invocations : list Invocation)
    (storage : Shader.Storage) :
  NoDup ids ->
  (forall i, In i ids -> nth_error invocations i = Some at_load) ->
  let pass := run config (one_by_one ids) (mkPass invocations storage) in
  memory pass = Shader.run config (map Z.of_nat ids) storage
  /\ length (Interleaved.invocations pass) = length invocations
  /\ forall i, nth_error (Interleaved.invocations pass) i
               = if in_dec Nat.eq_dec i ids
                 then Some returned
                 else nth_error invocations i.
Proof.
  cbn zeta. revert invocations storage.
  induction ids as [| a ids IH]; intros invocations storage ND A.
  - cbn. auto.
  - change (one_by_one (a :: ids)) with (repeat a 6 ++ one_by_one ids).
    rewrite run_app, (run_repeat 6 _ a at_load) by (apply A; now left).
    rewrite accesses_main. cbn [fst snd map].
    inversion ND as [| ? ? Na ND']; subst.
    destruct (IH (set_nth invocations a returned)
                (Shader.main config (Z.of_nat a) storage) ND')
      as (I1 & I2 & I3).
    { intros i Hi. rewrite set_nth_other by (intros ->; contradiction).
      apply A. now right. }
    split; [exact I1 |]. split; [now rewrite I2, set_nth_length |].
    intros i. rewrite I3.
    destruct (in_dec Nat.eq_dec i ids) as [Hin | Hin];
      destruct (in_dec Nat.eq_dec i (a :: ids)) as [Hin' | Hin'];
      try reflexivity.
    + exfalso. apply Hin'. now right.
    + destruct Hin' as [<- | Hin']; [| contradiction].
      eapply set_nth_same. apply A. now left.
    + apply set_nth_other. intros ->. apply Hin'. now left.
Qed.

End Serial.

(** ** Whole dispatches *)



Section Dispatches.

Context {N : Number}.
Local Open Scope Z_scope.
Import Interleaved.

Lemma repeat_at_load (n : nat) :
  Forall (fun invocation => invocation = at_load) (repeat at_load n).
Proof.
  apply Forall_forall. intros x I. now apply repeat_spec in I.
Qed.


Lemma dispatch_sound (config : Shader.Config) (ballCount : Z)
    (schedule : list nat) (origin : Shader.Storage) :
  0 <= Shader.ball_count origin ->
  Z.max (Shader.ball_count origin) (Shader.max_balls config)
  + Z.max 0 (64 * Shader.workgroupCount ballCount) < 2 ^ 32 ->
  sound config origin (Z.to_nat (64 * Shader.workgroupCount ballCount))
        (dispatch config ballCount schedule origin).
Proof.
  intros H0 HW. unfold dispatch, begin.
  apply sound_run; [exact H0 | lia |].
  apply sound_begin; [apply repeat_length | apply repeat_at_load].
Qed.

(** The invocation of a ball that was live at the start has left it
    alone or has stored its outcome. *)
Lemma holds_old_slot (config : Shader.Config) (ball0 : Shader.Ball)
    (invocation : Invocation) (slot : Shader.Ball) :
  holds_old config ball0 invocation slot ->
  slot = ball0 \/ outcome config ball0 slot.
Proof.
  destruct invocation; cbn [holds_old]; intuition.
Qed.

Lemma dispatch_old (config : Shader.Config) (ballCount : Z)
    (schedule : list nat) (origin : Shader.Storage) (j : Z) :
  0 <= Shader.ball_count origin ->
  Z.max (Shader.ball_count origin) (Shader.max_balls config)
  + Z.max 0 (64 * Shader.workgroupCount ballCount) < 2 ^ 32 ->
  j < Shader.ball_count origin ->
  let ball := Shader.balls origin j in
  let ball' :=
    Shader.balls (memory (dispatch config ballCount schedule origin)) j in
  ball' = ball \/ outcome config ball ball'.
Proof.
  intros H0 HW Hj. cbn zeta.
  pose proof (dispatch_sound config ballCount schedule origin H0 HW) as S.
  set (n := Z.to_nat (64 * Shader.workgroupCount ballCount)) in *.
  destruct (Z_lt_le_dec j 0) as [Neg | Pos];
    [left; apply (sound_rest _ _ _ _ S); auto |].
  destruct (Z_lt_le_dec j (Z.of_nat n)) as [In | Out];
    [| left; apply (sound_rest _ _ _ _ S); auto].
  destruct (nth_error (invocations (dispatch config ballCount schedule origin))
              (Z.to_nat j)) as [invocation |] eqn:E.
  - pose proof (sound_old _ _ _ _ S _ _ E) as O.
    rewrite Z2Nat.id in O by exact Pos.
    apply holds_old_slot with invocation. apply O. exact Hj.
  - apply nth_error_None in E. rewrite (sound_length _ _ _ _ S) in E. lia.
Qed.

Lemma outcome_keeps `{!AbsLaw N} (config : Shader.Config)
    (ball ball' : Shader.Ball) :
  outcome config ball ball' ->
  Shader.color ball' = Shader.color ball
  /\ nabs (Shader.vel_x ball') = nabs (Shader.vel_x ball)
  /\ nabs (Shader.vel_y ball') = nabs (Shader.vel_y ball).
Proof.
  destruct (bounce_speed config ball) as [BX BY].
  intros [| E |]; cbn [shrunk clamped moved Shader.color Shader.vel_x
                       Shader.vel_y]; auto.
Qed.

Lemma outcome_radius `{!MaxLaw N} (config : Shader.Config)
    (ball ball' : Shader.Ball) :
  outcome config ball ball' ->
  (Shader.radius ball >=? lit 1.0)%num = true ->
  (Shader.radius ball' >=? lit 1.0)%num = true.
Proof.
  intros [| E |] R; cbn [shrunk clamped moved Shader.radius].
  - exact R.
  - unfold eligible in E. apply andb_prop in E. now destruct E as [_ E].
  - now apply nmax_geb.
Qed.




Lemma finished_returned (l : list Invocation) :
  (forall i, (i < length l)%nat -> nth_error l i = Some returned) ->
  forallb is_returned l = true.
Proof.
  intros H. apply forallb_forall. intros x I.
  apply In_nth_error in I. destruct I as [i E].
  assert (L : (i < length l)%nat) by (apply nth_error_Some; congruence).
  rewrite (H i L) in E. now injection E as <-.
Qed.

Lemma frames_app (config : Shader.Config) (calls : list (Z * list nat))
    (call : Z * list nat) (storage : Shader.Storage) :
  frames config (calls ++ [call]) storage
  = memory (dispatch config (fst call) (snd call)
              (frames config calls storage))
  /\ complete config (calls ++ [call]) storage
     = complete config calls storage
       && finished (dispatch config (fst call) (snd call)
                      (frames config calls storage)).
Proof.
  revert storage. induction calls as [| [bc sch] calls IH]; intros storage.
  - destruct call as [bc sch]. cbn. now rewrite andb_true_r.
  - cbn [app frames complete].
    destruct (IH (memory (dispatch config bc sch storage))) as [I1 I2].
    rewrite I1, I2. split; [reflexivity | now rewrite andb_assoc].
Qed.

(** A dispatch that has run to its end leaves the count between the
    count at its start and the cap. *)
Lemma dispatch_count (config : Shader.Config) (ballCount : Z)
    (schedule : list nat) (origin : Shader.Storage) :
  0 <= Shader.ball_count origin ->
  Z.max (Shader.ball_count origin) (Shader.max_balls config)
  + Z.max 0 (64 * Shader.workgroupCount ballCount) < 2 ^ 32 ->
  finished (dispatch config ballCount schedule origin) = true ->
  Shader.ball_count origin
  <= Shader.ball_count (memory (dispatch config ballCount schedule origin))
  <= Z.max (Shader.ball_count origin) (Shader.max_balls config).
Proof.
  intros H0 HW F.
  pose proof (dispatch_sound config ballCount schedule origin H0 HW) as S.
  pose proof (sound_low _ _ _ _ S) as Lo.
  pose proof (sound_high _ _ _ _ S) as Hi.
  rewrite (pending_finished _ F) in Lo, Hi. lia.
Qed.

Lemma workgroups_bound (ballCount : Z) :
  Z.max 0 (64 * Shader.workgroupCount ballCount) <= Z.max 0 (ballCount + 63).
Proof.
  unfold Shader.workgroupCount.
  pose proof (Z.mul_div_le (ballCount + 63) 64 ltac:(lia)). lia.
Qed.

Lemma interleaved_frames_count (config : Shader.Config)
    (calls : list (Z * list nat)) (storage : Shader.Storage) :
  1 <= Shader.ball_count storage <= Shader.max_balls config ->
  2 * Shader.max_balls config + 64 <= 2 ^ 32 ->
  Forall (fun call => fst call <= Shader.max_balls config) calls ->
  complete config calls storage = true ->
  Shader.ball_count storage
  <= Shader.ball_count (frames config calls storage)
  <= Shader.max_balls config.
Proof.
  intros H1 HM. revert storage H1.
  induction calls as [| [bc sch] calls IH]; intros storage H1 F C.
  - cbn. lia.
  - cbn [frames complete] in *. apply andb_prop in C. destruct C as [C1 C2].
    inversion F as [| ? ? Fb F']; subst. cbn [fst] in Fb.
    pose proof (workgroups_bound bc) as WB.
    destruct (dispatch_count config bc sch storage) as [D1 D2];
      [lia | lia | exact C1 |].
    specialize (IH (memory (dispatch config bc sch storage))
                  ltac:(lia) F' C2).
    lia.
Qed.

End Dispatches.

(** X26.  The serial runs are among the interleavings: a dispatch whose
    invocations make their accesses one invocation after the other, in
    index order, runs to its end and leaves the buffers as [Shader.run]
    does with [Shader.in_order]. *)
Theorem serial_dispatch_is_interleaving {N : Number}
    (config : Shader.Config) (ballCount : Z) (storage : Shader.Storage) :
  let n := Z.to_nat (64 * Shader.workgroupCount ballCount) in
  let pass :=
    Interleaved.dispatch config ballCount
      (Interleaved.one_by_one (seq 0 n)) storage in
  Interleaved.memory pass
  = Shader.run config (Shader.in_order ballCount) storage
  /\ Interleaved.finished pass = true.
Proof.
  cbn zeta. unfold Interleaved.dispatch, Interleaved.begin.
  set (n := Z.to_nat (64 * Shader.workgroupCount ballCount)).
  destruct (run_one_by_one config (seq 0 n) (repeat Interleaved.at_load n)
              storage) as (R1 & R2 & R3).
  - apply seq_NoDup.
  - intros i I. apply in_seq in I. apply nth_error_repeat. lia.
  - cbn zeta in R1, R2, R3. split; [exact R1 |].
    unfold Interleaved.finished. apply finished_returned.
    intros i L. rewrite R3. rewrite R2, repeat_length in L.
    destruct (in_dec Nat.eq_dec i (seq 0 n)) as [_ | NI]; [reflexivity |].
    exfalso. apply NI, in_seq. lia.
Qed.

(** X10.  The counter under every interleaving.  At every moment of a
    dispatch the count is at least the count at the start, and exceeds
    the larger of that count and max_balls by no more than the number of
    invocations that have added one at line 90 and not yet taken it back
    at line 113; when every invocation has returned, none is left and the
    count lies between the count at the start and that bound. *)
Theorem shader_count_interleaved {N : Number} (config : Shader.Config)
    (ballCount : Z) (schedule : list nat) (origin : Shader.Storage) :
  (0 <= Shader.ball_count origin)%Z ->
  (Z.max (Shader.ball_count origin) (Shader.max_balls config)
   + Z.max 0 (64 * Shader.workgroupCount ballCount) < 2 ^ 32)%Z ->
  let pass := Interleaved.dispatch config ballCount schedule origin in
  let count := Shader.ball_count (Interleaved.memory pass) in
  let rolling_back := Interleaved.pending (Interleaved.invocations pass) in
  (Shader.ball_count origin + rolling_back <= count
   /\ count <= Z.max (Shader.ball_count origin) (Shader.max_balls config)
               + rolling_back
   /\ 0 <= rolling_back <= Z.max 0 (64 * Shader.workgroupCount ballCount)
   /\ (Interleaved.finished pass = true -> rolling_back = 0))%Z.
Proof.
  intros H0 HW. cbn zeta.
  pose proof (dispatch_sound config ballCount schedule origin H0 HW) as S.
  pose proof (Interleaved.sound_low _ _ _ _ S) as Lo.
  pose proof (Interleaved.sound_high _ _ _ _ S) as Hi.
  pose proof (pending_bounds
                (Interleaved.invocations
                   (Interleaved.dispatch config ballCount schedule origin)))
    as PB.
  rewrite (Interleaved.sound_length _ _ _ _ S) in PB.
  repeat split; try lia. apply pending_finished.
Qed.

Lemma shader_count_interleaved_witness :
  let config := @Shader.mkConfig binary32 (lit 800) (lit 600) 8 (lit 0.8) in
  let origin :=
    Shader.frames config 1 135 (Shader.initial (lit 800) (lit 600)) in
  let race := [0; 0; 0; 4; 4; 4; 0; 4]%nat in
  let pass := Interleaved.dispatch config 1 race origin in
  let done :=
    Interleaved.dispatch config 1
      (race ++ Interleaved.one_by_one (seq 0 64)) origin in
  (Shader.ball_count origin = 7
   /\ Shader.ball_count (Interleaved.memory pass) = 9
   /\ Interleaved.pending (Interleaved.invocations pass) = 1
   /\ Interleaved.finished done = true
   /\ Shader.ball_count (Interleaved.memory done) = 8
   /\ Shader.ball_count origin
      + Interleaved.pending (Interleaved.invocations pass)
      <= Shader.ball_count (Interleaved.memory pass)
      <= Z.max (Shader.ball_count origin) (Shader.max_balls config)
         + Interleaved.pending (Interleaved.invocations pass))%Z.
Proof.
  intros config origin race pass done.
  split; [vm_compute; reflexivity |].
  split; [vm_compute; reflexivity |].
  split; [vm_compute; reflexivity |].
  split; [vm_compute; reflexivity |].
  split; [vm_compute; reflexivity |].
  assert (H0 : (0 <= Shader.ball_count origin)%Z)
    by (vm_compute; discriminate).
  assert (HW : (Z.max (Shader.ball_count origin) (Shader.max_balls config)
                + Z.max 0 (64 * Shader.workgroupCount 1) < 2 ^ 32)%Z)
    by (vm_compute; reflexivity).
  destruct (shader_count_interleaved config 1 race origin H0 HW)
    as (A & B & _).
  split; [exact A | exact B].
Defined.

(** X11.  The radius floor for the balls that are live when a dispatch
    starts, under every interleaving: such a ball with radius >= 1.0
    has radius >= 1.0 at every moment of the dispatch.  (The slots that
    the dispatch reserves are not covered: see the radius floor on the
    GPU path.) *)
Theorem shader_floor_of_live_balls {N : Number} `{!MaxLaw N}
    (config : Shader.Config) (ballCount : Z) (schedule : list nat)
    (origin : Shader.Storage) (j : Z) :
  (0 <= Shader.ball_count origin)%Z ->
  (Z.max (Shader.ball_count origin) (Shader.max_balls config)
   + Z.max 0 (64 * Shader.workgroupCount ballCount) < 2 ^ 32)%Z ->
  (j < Shader.ball_count origin)%Z ->
  (Shader.radius (Shader.balls origin j) >=? lit 1.0)%num = true ->
  (Shader.radius
     (Shader.balls
        (Interleaved.memory
           (Interleaved.dispatch config ballCount schedule origin)) j)
   >=? lit 1.0)%num = true.
Proof.
  intros H0 HW Hj R.
  destruct (dispatch_old config ballCount schedule origin j H0 HW Hj)
    as [-> | O]; [exact R |].
  eapply outcome_radius; eassumption.
Qed.

(** X14.  What a dispatch does to a ball that is live when it starts,
    under every interleaving: at every moment the slot holds the ball as
    it was or its outcome, stored by its own invocation; so the ball
    keeps its slot, its color and the magnitude of each velocity
    component. *)
Theorem shader_ball_keeps_color_speed {N : Number} `{!AbsLaw N}
    (config : Shader.Config) (ballCount : Z) (schedule : list nat)
    (origin : Shader.Storage) (j : Z) :
  (0 <= Shader.ball_count origin)%Z ->
  (Z.max (Shader.ball_count origin) (Shader.max_balls config)
   + Z.max 0 (64 * Shader.workgroupCount ballCount) < 2 ^ 32)%Z ->
  (j < Shader.ball_count origin)%Z ->
  let ball := Shader.balls origin j in
  let ball' :=
    Shader.balls
      (Interleaved.memory
         (Interleaved.dispatch config ballCount schedule origin)) j in
  (ball' = ball \/ Interleaved.outcome config ball ball')
  /\ Shader.color ball' = Shader.color ball
  /\ nabs (Shader.vel_x ball') = nabs (Shader.vel_x ball)
  /\ nabs (Shader.vel_y ball') = nabs (Shader.vel_y ball).
Proof.
  intros H0 HW Hj. cbn zeta.
  pose proof (dispatch_old config ballCount schedule origin j H0 HW Hj) as O.
  cbn zeta in O. split; [exact O |].
  destruct O as [-> | O]; [auto |]. exact (outcome_keeps config _ _ O).
Qed.

(** X13.  While the count that the host has cached lags behind, a ball
    that is live at an index past the dispatched range is left exactly
    as it is by every call of update() that the host makes with such a
    count, whatever the interleavings: it does not move and it keeps its
    grace flag. *)
Theorem stale_count_freezes {N : Number} (config : Shader.Config)
    (calls : list (Z * list nat)) (origin : Shader.Storage) (j : Z) :
  (0 <= j < Shader.ball_count origin)%Z ->
  (Z.max (Shader.ball_count origin) (Shader.max_balls config) + j < 2 ^ 32)%Z ->
  Forall (fun call => 64 * Shader.workgroupCount (fst call) <= j)%Z calls ->
  Interleaved.complete config calls origin = true ->
  Shader.balls (Interleaved.frames config calls origin) j
  = Shader.balls origin j.
Proof.
  intros Hj HW F. revert origin HW Hj.
  induction F as [| [bc sch] calls Hc F IH]; intros origin HW Hj C;
    [reflexivity |].
  cbn [fst] in Hc. cbn [Interleaved.frames Interleaved.complete] in *.
  apply andb_prop in C. destruct C as [C1 C2].
  assert (H0 : (0 <= Shader.ball_count origin)%Z) by lia.
  assert (HW' : (Z.max (Shader.ball_count origin) (Shader.max_balls config)
                 + Z.max 0 (64 * Shader.workgroupCount bc) < 2 ^ 32)%Z) by lia.
  pose proof (dispatch_count config bc sch origin H0 HW' C1) as D.
  pose proof (dispatch_sound config bc sch origin H0 HW') as S.
  rewrite IH; [| lia | lia | exact C2].
  apply (Interleaved.sound_rest _ _ _ _ S); lia.
Qed.

Lemma stale_count_freezes_witness :
  let config :=
    @Shader.mkConfig binary32 (lit 800) (lit 600) 1000000 (lit 0.8) in
  let origin :=
    Shader.frames config 1 303 (Shader.initial (lit 800) (lit 600)) in
  let calls :=
    [ (1%Z, Interleaved.one_by_one (seq 0 64));
      (64%Z, Interleaved.one_by_one (rev (seq 0 64))) ] in
  Shader.ball_count origin = 65%Z
  /\ Shader.just_split (Shader.balls origin 64) = 1%Z
  /\ Shader.vel_x (Shader.balls origin 64) <> lit 0
  /\ (Shader.ball_count origin
      < Shader.ball_count (Interleaved.frames config calls origin))%Z
  /\ Shader.balls (Interleaved.frames config calls origin) 64
     = Shader.balls origin 64.
Proof.
  intros config origin calls.
  split; [vm_compute; reflexivity |].
  split; [vm_compute; reflexivity |].
  split; [vm_compute; discriminate |].
  split; [vm_compute; reflexivity |].
  apply (stale_count_freezes config calls origin 64).
  - split; [discriminate | vm_compute; reflexivity].
  - vm_compute. reflexivity.
  - repeat constructor; vm_compute; discriminate.
  - vm_compute. reflexivity.
Defined.

Lemma shader_ball_keeps_color_speed_witness :
  let config := @Shader.mkConfig binary32 (lit 800) (lit 600) 10 (lit 0.8) in
  let origin :=
    Shader.frames config 1 40 (Shader.initial (lit 800) (lit 600)) in
  let schedule := ([0; 0; 0; 0; 1; 1; 0; 0; 1] ++ seq 2 62)%nat in
  let ball := Shader.balls origin 0 in
  let ball' :=
    Shader.balls
      (Interleaved.memory (Interleaved.dispatch config 1 schedule origin)) 0 in
  snd (Shader.bounce_y config ball) = true
  /\ Shader.radius ball' = (Shader.radius ball * lit 0.8)%num
  /\ Shader.vel_y ball' = (- Shader.vel_y ball)%num
  /\ Shader.color ball' = Shader.color ball
  /\ nabs (Shader.vel_x ball') = nabs (Shader.vel_x ball)
  /\ nabs (Shader.vel_y ball') = nabs (Shader.vel_y ball).
Proof.
  intros config origin schedule ball ball'.
  split; [vm_compute; reflexivity |].
  split; [vm_compute; reflexivity |].
  split; [vm_compute; reflexivity |].
  apply (@shader_ball_keeps_color_speed binary32 (IEEE_AbsLaw 24 128)
           config 1 schedule origin 0).
  - vm_compute. discriminate.
  - vm_compute. reflexivity.
  - vm_compute. reflexivity.
Defined.

Lemma shader_floor_of_live_balls_witness :
  let config := @Shader.mkConfig binary32 (lit 800) (lit 600) 8 (lit 0.8) in
  let origin :=
    Shader.frames config 1 135 (Shader.initial (lit 800) (lit 600)) in
  let schedule :=
    ([0; 0; 0; 4; 4; 4; 0; 4] ++ Interleaved.one_by_one (seq 0 64))%nat in
  let after :=
    Interleaved.memory (Interleaved.dispatch config 1 schedule origin) in
  Shader.radius (Shader.balls after 4)
  = (Shader.radius (Shader.balls origin 4) * lit 0.8)%num
  /\ (Shader.radius (Shader.balls after 4) >=? lit 1.0)%num = true.
Proof.
  intros config origin schedule after.
  split; [vm_compute; reflexivity |].
  apply (@shader_floor_of_live_balls binary32 (IEEE_MaxLaw 24 128)
           config 1 schedule origin 4).
  - vm_compute. discriminate.
  - vm_compute. reflexivity.
  - vm_compute. reflexivity.
  - vm_compute. reflexivity.
Defined.

(** * The claims that involve both backends *)

(** ** The population count (C1) *)

(** C1, as the code has it.  With a cap that is a whole number and at
    least 1, from the seeded initial state:
    - JSBackend: the count returned by getBallCount() never decreases
      from one tick to the next and never exceeds maxBalls;
    - WebGPUBackend (with a cap small enough for the u32 counter not to
      wrap around): the count on the device, which readBallCount()
      copies between two dispatches, never decreases from one dispatch
      to the next and never exceeds maxBalls, whatever the interleaving
      of the invocations of each dispatch and whatever count within the
      cap the host has cached for it. *)
Theorem count_monotone_capped {N : Number}
    (canvas : Canvas) (maxBalls : Z) (splitRatio : num) :
  (1 <= maxBalls)%Z ->
  (forall (this : JSBackend) (random : Random) (n : nat),
      constructor canvas maxBalls splitRatio = Normal this ->
      (getBallCount (fst (ticks n this random 0))
       <= getBallCount (fst (ticks (S n) this random 0)))%nat
      /\ (Z.of_nat (getBallCount (fst (ticks n this random 0)))
          <= maxBalls)%Z)
  /\ (forall (this : WebGPUBackend) (calls : list (Z * list nat))
             (call : Z * list nat),
        WebGPUBackend_constructor canvas maxBalls splitRatio = Normal this ->
        (2 * maxBalls + 64 <= 2 ^ 32)%Z ->
        Forall (fun call => fst call <= maxBalls)%Z (calls ++ [call]) ->
        let config := configBuffer (initBuffers this) in
        let seeded := ballBuffer (initBuffers this) in
        Interleaved.complete config (calls ++ [call]) seeded = true ->
        let before :=
          Shader.ball_count (Interleaved.frames config calls seeded) in
        let after :=
          Shader.ball_count
            (Interleaved.frames config (calls ++ [call]) seeded) in
        (1 <= before <= after /\ after <= maxBalls)%Z).
Proof.
  intros Hcap. split.
  - intros this random n Hc. injection Hc as <-. split.
    + rewrite ticks_succ. apply update_count_bounds.
    + apply (ticks_count_capped random n
               (mkJSBackend canvas maxBalls splitRatio _)).
      simpl. lia.
  - intros this calls call Hc HM F. injection Hc as <-. cbn zeta.
    cbn [initBuffers configBuffer ballBuffer updateConfig gpu_canvas
         gpu_maxBalls gpu_splitRatio].
    unfold updateConfig. cbn [gpu_canvas gpu_maxBalls gpu_splitRatio].
    rewrite (u32_small maxBalls) by lia.
    set (config := Shader.mkConfig _ _ maxBalls splitRatio).
    set (seeded := Shader.initial _ _).
    intros C.
    destruct (frames_app config calls call seeded) as [A1 A2].
    rewrite A2 in C. apply andb_prop in C. destruct C as [C1 C2].
    apply Forall_app in F. destruct F as [F1 F2].
    apply Forall_inv in F2.
    assert (B : (1 <= Shader.ball_count seeded <= Shader.max_balls config)%Z)
      by (unfold seeded, config;
          cbn [Shader.initial Shader.ball_count Shader.max_balls]; lia).
    assert (HM' : (2 * Shader.max_balls config + 64 <= 2 ^ 32)%Z)
      by (unfold config; cbn [Shader.max_balls]; lia).
    pose proof (interleaved_frames_count config calls seeded B HM' F1 C1) as D1.
    rewrite A1.
    pose proof (workgroups_bound (fst call)) as WB.
    assert (E : Shader.max_balls config = maxBalls) by reflexivity.
    rewrite E in *.
    destruct (dispatch_count config (fst call) (snd call)
                (Interleaved.frames config calls seeded)) as [D2 D3];
      [lia | rewrite E; lia | exact C2 |].
    rewrite E in D3. lia.
Qed.

Lemma count_monotone_capped_witness :
  let canvas := @mkCanvas binary64 (lit 800) (lit 600) in
  let this := mkJSBackend canvas 8 (lit 0.8)
                [mkBall (lit 800 / lit 2) (lit 600 / lit 2) (lit 8.0)
                   (lit (-6.0)) (lit 60.0) 0xFF4444 false]%num in
  let gpu_canvas := @mkCanvas binary32 (lit 800) (lit 600) in
  let gpu := {| gpu_canvas := gpu_canvas; gpu_maxBalls := 8;
                gpu_splitRatio := lit 0.8; ballCount := 1 |} in
  let serial := (1%Z, Interleaved.one_by_one (seq 0 64)) in
  let race :=
    (1%Z,
     ([0; 0; 0; 4; 4; 4; 0; 4] ++ Interleaved.one_by_one (seq 0 64))%nat) in
  let calls := repeat serial 135 in
  let config := configBuffer (initBuffers gpu) in
  let seeded := ballBuffer (initBuffers gpu) in
  (1 <= 8)%Z
  /\ (getBallCount (fst (ticks 50 this halves 0))
      <= getBallCount (fst (ticks 51 this halves 0)))%nat
  /\ (Z.of_nat (getBallCount (fst (ticks 50 this halves 0))) <= 8)%Z
  /\ Shader.ball_count (Interleaved.frames config calls seeded) = 7%Z
  /\ Shader.ball_count (Interleaved.frames config (calls ++ [race]) seeded)
     = 8%Z
  /\ (1 <= Shader.ball_count (Interleaved.frames config calls seeded)
      <= Shader.ball_count
           (Interleaved.frames config (calls ++ [race]) seeded)
      /\ Shader.ball_count
           (Interleaved.frames config (calls ++ [race]) seeded) <= 8)%Z.
Proof.
  intros canvas this gpu_canvas gpu serial race calls config seeded.
  assert (H : (1 <= 8)%Z) by lia.
  destruct (@count_monotone_capped binary64 canvas 8 (lit 0.8) H) as [J _].
  destruct (@count_monotone_capped binary32 gpu_canvas 8 (lit 0.8) H)
    as [_ G].
  split; [exact H |].
  split; [exact (proj1 (J this halves 50%nat eq_refl)) |].
  split; [exact (proj2 (J this halves 50%nat eq_refl)) |].
  split; [vm_compute; reflexivity |].
  split; [vm_compute; reflexivity |].
  apply (G gpu calls race eq_refl).
  - vm_compute. discriminate.
  - apply Forall_forall. intros c I. apply in_app_or in I.
    destruct I as [I | [<- | []]]; [apply repeat_spec in I; subst c |];
      cbn; lia.
  - vm_compute. reflexivity.
Defined.

(** C1 as stated fails when the cap is below 1: both backends seed one
    ball whatever maxBalls is, so with maxBalls = 0 the count is 1. *)
Lemma count_exceeds_cap_zero :
  let canvas := @mkCanvas binary64 (lit 800) (lit 600) in
  let random := fun _ : nat => @lit binary64 0.5 in
  (exists this,
      constructor canvas 0 (lit 0.8) = Normal this
      /\ getBallCount (fst (ticks 1 this random 0)) = 1%nat
      /\ ~ (Z.of_nat (getBallCount (fst (ticks 1 this random 0)))
            <= maxBalls this)%Z)
  /\ (exists this,
        WebGPUBackend_constructor canvas 0 (lit 0.8) = Normal this
        /\ Shader.ball_count (ballBuffer (initBuffers this)) = 1%Z
        /\ Shader.max_balls (configBuffer (initBuffers this)) = 0%Z).
Proof.
  split.
  - eexists. split; [reflexivity |]. split; [vm_compute; reflexivity |].
    vm_compute. intros H. apply H. reflexivity.
  - eexists. split; [reflexivity |]. split; reflexivity.
Qed.

(** ** The radius floor on the GPU path (C2) *)

(** C2 on the GPU path.  JSBackend keeps the floor, as shown above for
    update(); the shader does not, for the same reason as in
    C3 and C6: every invocation loads the counter for itself (line 35),
    and the slot of a new ball counts as live from the atomicAdd of line
    90 on, before the ball is stored at line 110.  On an 800 x 600 canvas
    with cap 10 and split ratio 0.8 the 41st dispatch starts with one
    ball, of radius 60.  Invocation 0 reads it, finds the top wall hit
    and reserves slot 1; invocation 1 now loads the count 2 and reads
    slot 1, which is still zero; invocation 0 stores the new ball in
    slot 1 and the parent in slot 0; invocation 1 stores what it read,
    moved by its zero velocity, over the new ball.  The dispatch ends
    with two live balls, the second of radius 0. *)
Theorem shader_radius_floor_lost :
  let config := @Shader.mkConfig binary32 (lit 800) (lit 600) 10 (lit 0.8) in
  let before := Shader.frames config 1 40 (Shader.initial (lit 800) (lit 600)) in
  let schedule := ([0; 0; 0; 0; 1; 1; 0; 0; 1] ++ seq 2 62)%nat in
  let pass1 := Interleaved.dispatch config 1 [0; 0; 0; 0]%nat before in
  let pass2 := Interleaved.dispatch config 1 [0; 0; 0; 0; 1; 1]%nat before in
  let pass3 :=
    Interleaved.dispatch config 1 [0; 0; 0; 0; 1; 1; 0; 0]%nat before in
  let pass := Interleaved.dispatch config 1 schedule before in
  let after := Interleaved.memory pass in
  Shader.ball_count before = 1%Z
  /\ (Shader.radius (Shader.balls before 0) >=? lit 1.0)%num = true
  /\ Shader.ball_count (Interleaved.memory pass1) = 2%Z
  /\ Interleaved.reserved (Interleaved.invocation_of pass1 0) = Some 1%Z
  /\ option_map Shader.radius
       (Interleaved.held (Interleaved.invocation_of pass2 1))
     = Some (lit 0)
  /\ Shader.radius (Shader.balls (Interleaved.memory pass2) 1) = lit 0
  /\ Shader.radius (Shader.balls (Interleaved.memory pass3) 1)
     = (lit 60.0 * lit 0.8)%num
  /\ Interleaved.finished pass = true
  /\ Shader.ball_count after = 2%Z
  /\ Shader.radius (Shader.balls after 0) = (lit 60.0 * lit 0.8)%num
  /\ Shader.radius (Shader.balls after 1) = lit 0
  /\ (Shader.radius (Shader.balls after 1) >=? lit 1.0)%num = false.
Proof.
  cbv zeta. repeat apply conj; vm_compute; reflexivity.
Qed.

(** ** What a split makes (C4) *)

(** X27.  A split in JSBackend.update: a ball that hits a wall without
    the grace flag, with radius * splitRatio >= 1.0 and room under the
    cap, takes the new radius and the grace flag, and exactly one child
    is pushed: at the parent's position after the bounce, with the new
    radius and the grace flag, and with the parent's velocity after the
    bounce scaled by speedFactor = 0.8 + u * 0.4, plus, for each axis
    hit, a jitter (u' - 0.5) * 2.0 on the other axis, where u and u' are
    values of Math.random(). *)
Theorem js_split_makes_one_child {N : Number}
    (this : JSBackend) (newBalls : list Ball) (random : Random)
    (k : nat) (ball : Ball) :
  (hitX this ball || hitY this ball) = true ->
  justSplit ball = false ->
  (radius ball * splitRatio this >=? lit 1.0)%num = true ->
  (Z.of_nat (length (balls this) + length newBalls) < maxBalls this)%Z ->
  exists parent child k',
    loop_body this newBalls random k ball
    = (parent, newBalls ++ [child], k')
    /\ parent
       = mkBall (x (bounced this ball)) (y (bounced this ball))
                (vx (bounced this ball)) (vy (bounced this ball))
                (radius ball * splitRatio this)%num (color ball) true
    /\ x child = x parent /\ y child = y parent
    /\ radius child = (radius ball * splitRatio this)%num
    /\ justSplit child = true
    /\ vx child
       = (if hitY this ball
          then vx parent * speedFactor random k
               + jitter random (if hitX this ball then 3 + k else 2 + k)
          else vx parent * speedFactor random k)%num
    /\ vy child
       = (if hitX this ball
          then vy parent * speedFactor random k + jitter random (2 + k)
          else vy parent * speedFactor random k)%num.
Proof.
  intros Hhit Hgrace Hrad Hroom.
  assert (Hs : splits this newBalls ball = true).
  { unfold splits. rewrite Hhit, Hgrace, Hrad. simpl.
    apply Z.ltb_lt. exact Hroom. }
  pose proof (loop_body_split this random newBalls k ball Hs) as Hb.
  cbv zeta in Hb.
  eexists _, _, _. split; [exact Hb |].
  split; [reflexivity |]. cbn [x y vx vy radius justSplit].
  repeat apply conj; destruct (hitX this ball); reflexivity.
Qed.

Lemma js_split_makes_one_child_witness :
  let ball := @mkBall binary64 (lit 400) (lit 64) (lit 8.0) (lit (-6.0))
                (lit 60.0) 0xFF4444 false in
  let this := mkJSBackend (@mkCanvas binary64 (lit 800) (lit 600)) 10
                (lit 0.8) [ball] in
  (hitX this ball || hitY this ball) = true
  /\ justSplit ball = false
  /\ (radius ball * splitRatio this >=? lit 1.0)%num = true
  /\ (Z.of_nat (length (balls this) + length (@nil Ball)) < maxBalls this)%Z
  /\ exists parent child k',
       loop_body this [] halves 0 ball = (parent, [] ++ [child], k')
       /\ y child = y parent
       /\ radius child = (lit 60.0 * lit 0.8)%num
       /\ vx child = (lit 8.0 * speedFactor halves 0 + jitter halves 2)%num.
Proof.
  intros ball this.
  assert (H1 : (hitX this ball || hitY this ball) = true)
    by (vm_compute; reflexivity).
  assert (H2 : justSplit ball = false) by reflexivity.
  assert (H3 : (radius ball * splitRatio this >=? lit 1.0)%num = true)
    by (vm_compute; reflexivity).
  assert (H4 : (Z.of_nat (length (balls this) + length (@nil Ball))
                < maxBalls this)%Z) by (simpl; lia).
  repeat (split; [assumption |]).
  destruct (js_split_makes_one_child this [] halves 0%nat ball H1 H2 H3 H4)
    as (parent & child & k' & Hb & Hp & Hx & Hy & Hr & Hj & Hvx & Hvy).
  exists parent, child, k'. split; [exact Hb |].
  split; [exact Hy |]. split; [exact Hr |].
  rewrite Hvx, Hp. cbn [vx].
  assert (E : hitY this ball = true) by (vm_compute; reflexivity).
  assert (E' : hitX this ball = false) by (vm_compute; reflexivity).
  rewrite E, E'. unfold bounced. cbn [vx].
  assert (V : snd (fst (bounceX this ball)) = lit 8.0)
    by (vm_compute; reflexivity).
  rewrite V. reflexivity.
Defined.

(** C4 on the GPU path.  JSBackend splits as claimed, as shown just
    above for the loop body, and its factor and jitter stay within
    the ranges: at the two ends of what Math.random() can return, 0 and
    1 - 2^-53, the factor is the double above 0.8 and the double just
    below 1.2, and the jitter is -1 and 1 - 2^-52.  The shader differs in
    two ways.

    Its random() (lines 26-30) divides a u32 by 4294967295.0, which as
    an f32 is 2^32, after converting it to f32, which rounds the 128
    largest values up to 2^32: for them it returns exactly 1.0.  Then
    the jitter is exactly 1.0, and the factor is the f32 nearest to 1.2,
    which is above 1.2.  Both happen in runs from the initial buffers
    with cap 1000000 and split ratio 0.8, the invocations in index
    order:
    - on a canvas of 3924 x 2068 the first split is in dispatch 163, at
      the top wall; the child's vx is the parent's vx times the factor
      plus a jitter of exactly 1.0;
    - on a canvas of 1353 x 1621, in dispatch 386 invocation 8 splits at
      the right wall with random() = 1.0 for the factor: the child's vx
      is the parent's vx times a factor above 1.2.

    And the parent takes the new radius and the grace flag at lines
    86-87, before the slot is reserved at line 90.  On a canvas of
    800 x 600 with cap 8, dispatch 136 starts with 7 balls, of which the
    balls 0 and 4 are about to split.  When both invocations pass the
    test of line 85 before either reaches line 90, both balls shrink and
    take the flag, and only ball 0 gets a child: the reservation of
    invocation 4 is taken back at line 113. *)
Theorem shader_split_reaches_upper_end :
  let top :=
    @Shader.mkConfig binary32 (lit 3924) (lit 2068) 1000000 (lit 0.8) in
  let before :=
    Shader.frames top 1 162 (Shader.initial (lit 3924) (lit 2068)) in
  let after := Shader.main top 0 before in
  let seed := Shader.seed_of top 0 in
  let right :=
    @Shader.mkConfig binary32 (lit 1353) (lit 1621) 1000000 (lit 0.8) in
  let before' :=
    Shader.run right (map Z.of_nat (seq 0 8))
      (Shader.frames right 1 385 (Shader.initial (lit 1353) (lit 1621))) in
  let after' := Shader.main right 8 before' in
  let seed' := Shader.seed_of right 8 in
  let capped := @Shader.mkConfig binary32 (lit 800) (lit 600) 8 (lit 0.8) in
  let origin :=
    Shader.frames capped 1 135 (Shader.initial (lit 800) (lit 600)) in
  let race :=
    ([0; 0; 0; 4; 4; 4; 0; 4] ++ Interleaved.one_by_one (seq 0 64))%nat in
  let pass := Interleaved.dispatch capped 1 race origin in
  let raced := Interleaved.memory pass in
  let u : @num binary64 := S754_finite false 9007199254740991 (-53) in
  (* JSBackend at its smallest and its largest draw *)
  ((u <? lit 1)%num = true
   /\ SFsucc 53 1024 u = lit 1
   /\ (0.8 <= IEEE.to_Q (speedFactor (fun _ => @lit binary64 0) 0))%Q
   /\ (IEEE.to_Q (speedFactor (fun _ => u) 0) < 1.2)%Q
   /\ (IEEE.to_Q (jitter (fun _ => @lit binary64 0) 0) == -1)%Q
   /\ (IEEE.to_Q (jitter (fun _ => u) 0) < 1)%Q)
  (* the jitter of exactly 1.0 *)
  /\ (Shader.ball_count before = 1%Z
      /\ Shader.ball_count after = 2%Z
      /\ snd (Shader.bounce_x top (Shader.balls before 0)) = false
      /\ snd (Shader.bounce_y top (Shader.balls before 0)) = true
      /\ Shader.just_split (Shader.balls after 0) = 1%Z
      /\ Shader.just_split (Shader.balls after 1) = 1%Z
      /\ snd (@Shader.random binary32 (fst (@Shader.random binary32 seed)))
         = lit 1.0
      /\ @Shader.jitter binary32 (fst (@Shader.random binary32 seed))
         = lit 1.0
      /\ Shader.vel_x (Shader.balls after 1)
         = (Shader.vel_x (Shader.balls after 0)
            * @Shader.speed_factor binary32 seed + lit 1.0)%num)
  (* the factor above 1.2 *)
  /\ (Shader.ball_count before' = 16%Z
      /\ Shader.ball_count after' = 17%Z
      /\ snd (Shader.bounce_x right (Shader.balls before' 8)) = true
      /\ snd (Shader.bounce_y right (Shader.balls before' 8)) = false
      /\ Shader.just_split (Shader.balls after' 8) = 1%Z
      /\ Shader.just_split (Shader.balls after' 16) = 1%Z
      /\ snd (@Shader.random binary32 seed') = lit 1.0
      /\ (1.2 < IEEE.to_Q (@Shader.speed_factor binary32 seed'))%Q
      /\ Shader.vel_x (Shader.balls after' 16)
         = (Shader.vel_x (Shader.balls after' 8)
            * @Shader.speed_factor binary32 seed')%num
      /\ (IEEE.to_Q (Shader.vel_x (Shader.balls after' 16))
          < IEEE.to_Q (Shader.vel_x (Shader.balls after' 8)) * 1.2 < 0)%Q)
  (* a parent that shrinks without a child *)
  /\ (Shader.ball_count origin = 7%Z
      /\ Interleaved.eligible capped (Shader.balls origin 0) = true
      /\ Interleaved.eligible capped (Shader.balls origin 4) = true
      /\ Interleaved.finished pass = true
      /\ Shader.ball_count raced = 8%Z
      /\ Shader.radius (Shader.balls raced 0)
         = (Shader.radius (Shader.balls origin 0) * lit 0.8)%num
      /\ Shader.just_split (Shader.balls raced 0) = 1%Z
      /\ Shader.radius (Shader.balls raced 4)
         = (Shader.radius (Shader.balls origin 4) * lit 0.8)%num
      /\ Shader.just_split (Shader.balls raced 4) = 1%Z
      /\ Shader.radius (Shader.balls raced 7)
         = Shader.radius (Shader.balls raced 0)).
Proof.
  cbv zeta.
  repeat apply conj; vm_compute; first [reflexivity | discriminate].
Qed.

(** ** Staying inside the arena (C10) *)

Section Settled.

Context {N : Number}.
Local Open Scope num_scope.

Variable this : JSBackend.
Variable random : Random.



End Settled.






